(** * Code Map layout and Visualizer playback: a shallow embedding

    The two visual components of the IDE are embedded here:
    - [CodeMap]: the graph builder and force-directed solver [forceLayout]
      together with the pan/zoom handlers of the canvas;
    - [Visualizer]: the step playback controller ([showStep], [playLoop],
      [togglePlay], [stepFwd], [reset]) acting on the rendered diagram.

    Around them: the entrance animations, the render loop and the click
    handling of the canvas; the zoom controls, the node clicks and the
    loading of Mermaid in the Visualizer; and the editor tabs of the
    application ([App]), which the clicks in the code map open.

    JavaScript numbers that carry coordinates, delays and zoom factors are
    read as real numbers ([R]): rounding and overflow of IEEE doubles are
    outside the model.  Integer-valued quantities (step indices, slider
    positions, milliseconds) are [Z]. *)

From Stdlib Require Import Reals Lra ZArith Lia Ascii String FunctionalExtensionality.
From stdpp Require Import gmap strings list.

(** ** String helpers shared by both components *)

(** [s.includes(pat)] *)
Fixpoint includes (pat s : string) : bool :=
  if String.prefix pat s then true
  else match s with
       | EmptyString => false
       | String _ r => includes pat r
       end.

(** [s.split('/').pop()]: the text after the last slash. *)
Fixpoint split_pop (cur s : string) : string :=
  match s with
  | EmptyString => cur
  | String c r =>
      if Ascii.eqb c "/"%char then split_pop EmptyString r
      else split_pop (cur +:+ String c EmptyString) r
  end.

(** [s.replace(pat, '')]: only the first occurrence is removed. *)
Fixpoint replace_first (pat s : string) : string :=
  if String.prefix pat s
  then String.substring (String.length pat) (String.length s - String.length pat) s
  else match s with
       | EmptyString => EmptyString
       | String c r => String c (replace_first pat r)
       end.

(** [arr.forEach((a, i) => ...)] over a state, where the callback may throw. *)
Inductive result (A : Type) : Type :=
| Ok (a : A)
| TypeError.
Arguments Ok {A} a.
Arguments TypeError {A}.

#[global] Instance result_ret : MRet result := fun _ a => Ok a.
#[global] Instance result_bind : MBind result := fun _ _ f r =>
  match r with
  | Ok a => f a
  | TypeError => TypeError
  end.

Fixpoint forEach {St A : Type} (f : A -> nat -> St -> result St)
    (l : list A) (i : nat) (s : St) : result St :=
  match l with
  | [] => Ok s
  | a :: l' =>
      match f a i s with
      | Ok s' => forEach f l' (S i) s'
      | TypeError => TypeError
      end
  end.

Module CodeMap.

Local Open Scope R_scope.

(** *** Analysis result consumed by the builder *)

Record Named := { name : string }.

(** One entry of [graph.modules].  A key that the object does not carry is
    [None] (JavaScript [undefined]).  [forceLayout] reads [module],
    [functions] and [classes]; [path] is carried by entries written after
    the interface description and is never read by the code. *)
Record ModEntry := {
  module : option string;
  path : option string;
  functions : option (list Named);
  classes : option (list Named)
}.

Record EdgeEntry := { source : string; target : string }.

Record Graph := {
  modules : option (list ModEntry);
  edges : option (list EdgeEntry)
}.

(** *** Entities *)

Inductive ntype := TModule | TFunction | TClass.

(** [NCOL[type] || '#58a6ff'] *)
Definition NCOL (t : ntype) : string :=
  match t with
  | TModule => "#58a6ff"
  | TFunction => "#bc8cff"
  | TClass => "#d29922"
  end.

Record GNode := {
  n_id : string; n_label : string; n_type : ntype; n_color : string;
  n_tx : R; n_ty : R; n_x : R; n_y : R;
  n_r : R; n_cr : R; n_delay : R; n_t : R; n_dur : R;
  n_visible : bool; n_hover : bool;
  n_scale : R; n_opacity : R; n_pulse : R
}.

(** [new GNode(id, label, type, x, y, delay, r)]; [u] is the value that
    [Math.random()] returns inside the constructor. *)
Definition new_GNode (u : R) (id label : string) (type : ntype)
    (x y delay r : R) : GNode :=
  {| n_id := id; n_label := label; n_type := type; n_color := NCOL type;
     n_tx := x; n_ty := y; n_x := x; n_y := y - 50;
     n_r := r; n_cr := 0; n_delay := delay; n_t := 0; n_dur := 0.6;
     n_visible := false; n_hover := false;
     n_scale := 0; n_opacity := 0; n_pulse := u * 6 |}.

(** What an edge holds as [src] or [tgt].  It is a node, given by its index
    in [nodes] (what [nodes.indexOf] returns), or, for a cross-module edge,
    another value that [nodeMap[key]] yields because the plain object
    [nodeMap] inherits the key (see [nodeMap_get]); [nodes.indexOf] of such
    a value is [-1]. *)
Inductive ref := Node (i : nat) | Inherited (key : string).

Coercion Node : nat >-> ref.

(** Looking up or altering a list at a reference: only a node has a place
    in it. *)
#[export] Instance ref_lookup {A} : Lookup ref A (list A) | 100 := fun r l =>
  match r with
  | Node i => l !! i
  | Inherited _ => None
  end.

#[export] Instance ref_alter {A} : Alter ref A (list A) | 100 := fun f r l =>
  match r with
  | Node i => alter f i l
  | Inherited _ => l
  end.

(** An edge holds its two ends by reference. *)
Record GEdge := {
  e_src : ref; e_tgt : ref; e_label : string; e_color : string;
  e_delay : R; e_t : R; e_dur : R; e_visible : bool; e_progress : R
}.

(** [new GEdge(src, tgt, label, color, delay)] *)
Definition new_GEdge (src tgt : ref) (label color : string) (delay : R) : GEdge :=
  {| e_src := src; e_tgt := tgt; e_label := label; e_color := color;
     e_delay := delay; e_t := 0; e_dur := 0.5; e_visible := false;
     e_progress := 0 |}.

(** *** The builder (steps 1, 2 and 4 of [forceLayout]) *)

(** [nodes], [edges] and [nodeMap] while the graph is built.  [nodeMap] is
    a plain object used as a dictionary from node id to node.  The map
    holds the keys that the builder has assigned.  An assignment to the key
    [__proto__] sets the prototype of the object instead of a property of
    its own, and reading that key gives the prototype back: for this key
    too the map holds the node last assigned.  What a read yields for a key
    that was never assigned is [inherits] below. *)
Record build := {
  nodes : list GNode;
  gedges : list GEdge;
  nodeMap : gmap string nat
}.

Definition build0 : build := {| nodes := []; gedges := []; nodeMap := ∅ |}.

Section Builder.

(** The successive results of [Math.random()]: the [k]-th node constructed
    draws [rnd k]. *)
Variable rnd : nat -> R.
Variables W H : R.

Definition cx : R := W / 2.
Definition cy : R := H / 2.
Definition baseR : R := Rmin W H * 0.32.

(** Body of the first [mods.forEach((mod, i) => ...)]. *)
Definition addModule (N : nat) (md : ModEntry) (i : nat) (st : build) : result build :=
  match module md with
  | None => TypeError  (* mod.module.split on undefined *)
  | Some m =>
      let angle := (INR i / INR N) * PI * 2 - PI / 2 in
      let x := cx + cos angle * baseR in
      let y := cy + sin angle * baseR in
      let n := new_GNode (rnd (length (nodes st))) m
                 (replace_first ".py" (split_pop EmptyString m)) TModule x y (INR i * 0.1) 24 in
      Ok {| nodes := nodes st ++ [n];
            gedges := gedges st;
            nodeMap := <[m := length (nodes st)]> (nodeMap st) |}
  end.

(** [[...(mod.functions || []).slice(0, 2).map(...), ...(mod.classes || []).slice(0, 1).map(...)]] *)
Definition children (md : ModEntry) : list (string * ntype) :=
  ((fun f => (name f, TFunction)) <$> take 2 (default [] (functions md)))
  ++ ((fun c => (name c, TClass)) <$> take 1 (default [] (classes md))).

(** Body of [children.forEach((ch, j) => ...)] for module [m] of index [i],
    whose node is [parent] (an index into [nodes]) with seed position
    [(ptx, pty)]. *)
Definition addChild (m : string) (i : nat) (nch : nat) (parent : nat) (ptx pty : R)
    (ch : string * ntype) (j : nat) (st : build) : result build :=
  let a := (INR j / INR (Nat.max nch 1)) * PI * 2 - PI / 2 in
  let or := 50 in
  let fx := ptx + cos a * or in
  let fy := pty + sin a * or in
  let cid := m +:+ "::" +:+ ch.1 in
  let cn := new_GNode (rnd (length (nodes st))) cid ch.1 ch.2 fx fy
              (INR i * 0.1 + (INR j + 1) * 0.06) 14 in
  Ok {| nodes := nodes st ++ [cn];
        gedges := gedges st ++
                  [new_GEdge parent (length (nodes st)) EmptyString "#30363d55"
                     (INR i * 0.1 + (INR j + 1) * 0.08)];
        nodeMap := <[cid := length (nodes st)]> (nodeMap st) |}.

(** Body of the second [mods.forEach((mod, i) => ...)].  The first loop has
    registered every module, or has thrown: [parent] is always a node, and
    the error branches below are never taken (see [forEach_addChildren]). *)
Definition addChildren (md : ModEntry) (i : nat) (st : build) : result build :=
  match module md with
  | None => TypeError
  | Some m =>
      match nodeMap st !! m with
      | None => TypeError  (* parent.tx on undefined *)
      | Some parent =>
          match nodes st !! parent with
          | None => TypeError
          | Some p =>
              let chs := children md in
              forEach (addChild m i (length chs) parent (n_tx p) (n_ty p)) chs 0%nat st
          end
      end
  end.

(** The names that a plain object inherits from [Object.prototype]; the
    value under each of them is a function or an object, hence truthy. *)
Definition Object_prototype : list string :=
  ["constructor"; "__defineGetter__"; "__defineSetter__"; "hasOwnProperty";
   "__lookupGetter__"; "__lookupSetter__"; "isPrototypeOf"; "propertyIsEnumerable";
   "toString"; "valueOf"; "__proto__"; "toLocaleString"].

(** The methods that a node inherits from [GNode.prototype]. *)
Definition GNode_prototype : list string := ["constructor"; "start"; "update"; "draw"].

(** Truthiness of a number and of a string. *)
Definition truthy_number (x : R) : bool := if Req_dec_T x 0 then false else true.
Definition truthy_string (s : string) : bool := negb (String.eqb s EmptyString).

(** Whether the property [key] of the node [n] is truthy, when [key] is one
    of the properties that the constructor assigns. *)
Definition GNode_own (n : GNode) (key : string) : option bool :=
  if String.eqb key "id" then Some (truthy_string (n_id n))
  else if String.eqb key "label" then Some (truthy_string (n_label n))
  else if String.eqb key "type" then Some true
  else if String.eqb key "color" then Some (truthy_string (n_color n))
  else if String.eqb key "tx" then Some (truthy_number (n_tx n))
  else if String.eqb key "ty" then Some (truthy_number (n_ty n))
  else if String.eqb key "x" then Some (truthy_number (n_x n))
  else if String.eqb key "y" then Some (truthy_number (n_y n))
  else if String.eqb key "r" then Some (truthy_number (n_r n))
  else if String.eqb key "cr" then Some (truthy_number (n_cr n))
  else if String.eqb key "delay" then Some (truthy_number (n_delay n))
  else if String.eqb key "t" then Some (truthy_number (n_t n))
  else if String.eqb key "dur" then Some (truthy_number (n_dur n))
  else if String.eqb key "visible" then Some (n_visible n)
  else if String.eqb key "hover" then Some (n_hover n)
  else if String.eqb key "scale" then Some (truthy_number (n_scale n))
  else if String.eqb key "opacity" then Some (truthy_number (n_opacity n))
  else if String.eqb key "pulse" then Some (truthy_number (n_pulse n))
  else None.

(** Whether [nodeMap[key]] is truthy for a key that was never assigned.
    The prototype of [nodeMap] is [Object.prototype], unless a module named
    [__proto__] has made a node the prototype: then the properties of that
    node and the methods of [GNode.prototype] come first. *)
Definition inherits (st : build) (key : string) : bool :=
  match p ← nodeMap st !! "__proto__"; nodes st !! p with
  | Some n =>
      match GNode_own n key with
      | Some b => b
      | None => bool_decide (key ∈ GNode_prototype) || bool_decide (key ∈ Object_prototype)
      end
  | None => bool_decide (key ∈ Object_prototype)
  end.

(** [nodeMap[key]] when it is truthy: a node, or a value that is inherited. *)
Definition nodeMap_get (st : build) (key : string) : option ref :=
  match nodeMap st !! key with
  | Some i => Some (Node i)
  | None => if inherits st key then Some (Inherited key) else None
  end.

(** Body of [gEdges.forEach((e, i) => ...)]: an entry is kept when both
    [nodeMap[e.source]] and [nodeMap[e.target]] are truthy. *)
Definition addCross (N : nat) (e : EdgeEntry) (i : nat) (st : build) : result build :=
  match nodeMap_get st (source e), nodeMap_get st (target e) with
  | Some s, Some t =>
      Ok {| nodes := nodes st;
            gedges := gedges st ++
                      [new_GEdge s t "imports" "#39d2c0" (INR N * 0.1 + INR i * 0.12)];
            nodeMap := nodeMap st |}
  | _, _ => Ok st
  end.

End Builder.

(** *** The force simulation (step 3 of [forceLayout]) *)

(** A [{x, y}] object of [positions] or [velocities]. *)
Record pt := { px : R; py : R }.

#[export] Instance pt_inhabited : Inhabited pt := populate {| px := 0; py := 0 |}.
#[export] Instance GNode_inhabited : Inhabited GNode :=
  populate (new_GNode 0 EmptyString EmptyString TModule 0 0 0 0).

Definition REPULSION : R := 3000.
Definition SPRING : R := 0.005.
Definition DAMPING : R := 0.85.

(** [Math.sqrt(dx * dx + dy * dy) || 1] *)
Definition dist_or_1 (dx dy : R) : R :=
  let d := sqrt (dx * dx + dy * dy) in
  if Req_dec_T d 0 then 1 else d.

(** [v.x += fx; v.y += fy] *)
Definition add_v (fx fy : R) (v : pt) : pt :=
  {| px := px v + fx; py := py v + fy |}.

(** [Math.max(margin, Math.min(D - margin, c))] *)
Definition clamp (margin D c : R) : R := Rmax margin (Rmin (D - margin) c).

Section Simulation.

Variables W H : R.
Variable ns : list GNode.
Variable es : list GEdge.

(** Body of the inner repulsion loop for the pair [i < j].  All indices
    range below [positions.length], which is also the length of [nodes]
    and of [velocities]. *)
Definition repel (positions : list pt) (i j : nat) (velocities : list pt) : list pt :=
  let dx := px (positions !!! i) - px (positions !!! j) in
  let dy := py (positions !!! i) - py (positions !!! j) in
  let dist := dist_or_1 dx dy in
  let minDist := (n_r (ns !!! i) + n_r (ns !!! j)) * 2.5 in
  let dist := if Rlt_dec dist minDist then minDist else dist in
  let force := REPULSION / (dist * dist) in
  let fx := (dx / dist) * force in
  let fy := (dy / dist) * force in
  alter (add_v (- fx) (- fy)) j (alter (add_v fx fy) i velocities).

Definition repulsion (positions velocities : list pt) : list pt :=
  let n := length positions in
  foldl (fun v i => foldl (fun v j => repel positions i j v) v (seq (S i) (n - S i)))
        velocities (seq 0 n).

(** Body of [edges.forEach(e => ...)]: [si] and [ti] are
    [nodes.indexOf(e.src)] and [nodes.indexOf(e.tgt)]; an edge whose node is
    not in [nodes] is skipped.  (When the solver runs, [edges] holds the
    parent-child edges only.) *)
Definition spring (positions velocities : list pt) (e : GEdge) : list pt :=
  match positions !! e_src e, positions !! e_tgt e with
  | Some ps, Some pt =>
      let dx := px pt - px ps in
      let dy := py pt - py ps in
      let dist := dist_or_1 dx dy in
      let targetDist := 70 in
      let force := (dist - targetDist) * SPRING in
      alter (add_v (- ((dx / dist) * force)) (- ((dy / dist) * force))) (e_tgt e)
        (alter (add_v ((dx / dist) * force) ((dy / dist) * force)) (e_src e) velocities)
  | _, _ => velocities
  end.

Definition gravity (positions velocities : list pt) : list pt :=
  foldl (fun v i =>
           alter (add_v ((cx W - px (positions !!! i)) * 0.001)
                        ((cy H - py (positions !!! i)) * 0.001)) i v)
        velocities (seq 0 (length positions)).

(** Body of the loop that applies the velocities to node [i]. *)
Definition integrate_at (pv : list pt * list pt) (i : nat) : list pt * list pt :=
  let velocities :=
    alter (fun v => {| px := px v * DAMPING; py := py v * DAMPING |}) i pv.2 in
  let v := velocities !!! i in
  let positions :=
    alter (fun p => {| px := px p + px v; py := py p + py v |}) i pv.1 in
  let margin := 40 in
  let positions :=
    alter (fun p => {| px := clamp margin W (px p); py := clamp margin H (py p) |})
          i positions in
  (positions, velocities).

(** One pass of [for (let iter = 0; iter < 80; iter++)]. *)
Definition iteration (pv : list pt * list pt) : list pt * list pt :=
  let positions := pv.1 in
  let velocities := repulsion positions pv.2 in
  let velocities := foldl (spring positions) velocities es in
  let velocities := gravity positions velocities in
  foldl integrate_at (positions, velocities) (seq 0 (length positions)).

Definition simulate : list pt * list pt :=
  Nat.iter 80 iteration
    ((fun n => {| px := n_tx n; py := n_ty n |}) <$> ns,
     (fun _ => {| px := 0; py := 0 |}) <$> ns).

End Simulation.

(** [n.tx = positions[i].x; n.ty = positions[i].y; n.x = n.tx; n.y = n.ty - 50] *)
Definition set_target (p : pt) (n : GNode) : GNode :=
  {| n_id := n_id n; n_label := n_label n; n_type := n_type n; n_color := n_color n;
     n_tx := px p; n_ty := py p; n_x := px p; n_y := py p - 50;
     n_r := n_r n; n_cr := n_cr n; n_delay := n_delay n; n_t := n_t n;
     n_dur := n_dur n; n_visible := n_visible n; n_hover := n_hover n;
     n_scale := n_scale n; n_opacity := n_opacity n; n_pulse := n_pulse n |}.

Definition apply_positions (positions : list pt) (st : build) : build :=
  {| nodes := imap (fun i n => set_target (positions !!! i) n) (nodes st);
     gedges := gedges st;
     nodeMap := nodeMap st |}.

(** *** [forceLayout(graph, W, H)] *)

Definition forceLayout (rnd : nat -> R) (graph : option Graph) (W H : R)
  : result (list GNode * list GEdge) :=
  match graph ≫= modules with
  | None => Ok ([], [])  (* if (!graph?.modules) return { nodes, edges } *)
  | Some mods =>
      let gEdges := default [] (graph ≫= edges) in
      st ← forEach (addModule rnd W H (length mods)) mods 0%nat build0;
      st ← forEach (addChildren rnd) mods 0%nat st;
      let positions := (simulate W H (nodes st) (gedges st)).1 in
      let st := apply_positions positions st in
      st ← forEach (addCross (length mods)) gEdges 0%nat st;
      Ok (nodes st, gedges st)
  end.

(** *** Pan and zoom of the canvas *)

(** The part of [state.current] that the pointer and wheel handlers use. *)
Record view := {
  pan : pt; zoom : R;
  dragging : bool; dragStart : pt; panStart : pt;
  mouse : pt
}.

Definition view0 : view :=
  {| pan := {| px := 0; py := 0 |}; zoom := 1; dragging := false;
     dragStart := {| px := 0; py := 0 |}; panStart := {| px := 0; py := 0 |};
     mouse := {| px := -999; py := -999 |} |}.

(** [canvasRef.current?.getBoundingClientRect()] *)
Record rect := { r_left : R; r_top : R; r_width : R; r_height : R }.

Record pointer := { clientX : R; clientY : R; deltaY : R }.

Definition onMove (r : option rect) (e : pointer) (s : view) : view :=
  match r with
  | None => s
  | Some r =>
      let m := {| px := clientX e - r_left r; py := clientY e - r_top r |} in
      {| pan := if dragging s
                then {| px := px (panStart s) + (clientX e - px (dragStart s));
                        py := py (panStart s) + (clientY e - py (dragStart s)) |}
                else pan s;
         zoom := zoom s; dragging := dragging s; dragStart := dragStart s;
         panStart := panStart s; mouse := m |}
  end.

Definition onDown (e : pointer) (s : view) : view :=
  {| pan := pan s; zoom := zoom s; dragging := true;
     dragStart := {| px := clientX e; py := clientY e |};
     panStart := pan s; mouse := mouse s |}.

(** The hit test of [onUp] calls the navigation callbacks and emits
    particles; of the view it only clears [dragging]. *)
Definition onUp (e : pointer) (s : view) : view :=
  {| pan := pan s; zoom := zoom s; dragging := false;
     dragStart := dragStart s; panStart := panStart s; mouse := mouse s |}.

Definition onWheel (r : option rect) (e : pointer) (s : view) : view :=
  match r with
  | None => s
  | Some r =>
      let mx := clientX e - r_left r in
      let my := clientY e - r_top r in
      let oz := zoom s in
      let z := Rmax 0.2 (Rmin 4 (zoom s * (if Rlt_dec 0 (deltaY e) then 0.9 else 1.1))) in
      {| pan := {| px := mx - (mx - px (pan s)) * (z / oz);
                   py := my - (my - py (pan s)) * (z / oz) |};
         zoom := z; dragging := dragging s; dragStart := dragStart s;
         panStart := panStart s; mouse := mouse s |}
  end.

Definition reset (s : view) : view :=
  {| pan := {| px := 0; py := 0 |}; zoom := 1; dragging := dragging s;
     dragStart := dragStart s; panStart := panStart s; mouse := mouse s |}.

(** The two toolbar buttons: [zoom = Math.min(4, zoom * 1.3)] and
    [zoom = Math.max(0.2, zoom * 0.7)]. *)
Definition zoomInButton (s : view) : view :=
  {| pan := pan s; zoom := Rmin 4 (zoom s * 1.3); dragging := dragging s;
     dragStart := dragStart s; panStart := panStart s; mouse := mouse s |}.

Definition zoomOutButton (s : view) : view :=
  {| pan := pan s; zoom := Rmax 0.2 (zoom s * 0.7); dragging := dragging s;
     dragStart := dragStart s; panStart := panStart s; mouse := mouse s |}.

Inductive gesture :=
| Move (r : option rect) (e : pointer)
| Down (e : pointer)
| Up (e : pointer)
| Wheel (r : option rect) (e : pointer)
| ResetView
| ZoomIn
| ZoomOut.

Definition handle (s : view) (g : gesture) : view :=
  match g with
  | Move r e => onMove r e s
  | Down e => onDown e s
  | Up e => onUp e s
  | Wheel r e => onWheel r e s
  | ResetView => reset s
  | ZoomIn => zoomInButton s
  | ZoomOut => zoomOutButton s
  end.

(** The views that a sequence of gestures can produce from the one
    installed when a graph is built ([pan = {0, 0}], [zoom = 1]). *)
Definition reachable (s : view) : Prop :=
  exists gs : list gesture, s = foldl handle view0 gs.

(** [ctx.translate(pan.x, pan.y); ctx.scale(zoom, zoom)]: where a point of
    the model is drawn on the canvas. *)
Definition to_screen (s : view) (m : pt) : pt :=
  {| px := px (pan s) + zoom s * px m; py := py (pan s) + zoom s * py m |}.

(** [(p - pan) / zoom]: the model point under a canvas point, as computed
    for the hover test and the click test. *)
Definition to_model (s : view) (p : pt) : pt :=
  {| px := (px p - px (pan s)) / zoom s; py := (py p - py (pan s)) / zoom s |}.

(** *** Easing and the entrance animations *)

(** [ease.outCubic], [ease.outElastic], [ease.outBack] and [lerp]. *)
Definition outCubic (t : R) : R := 1 - (1 - t) ^ 3.

Definition outElastic (t : R) : R :=
  if Req_dec_T t 0 then t
  else if Req_dec_T t 1 then t
  else Rpower 2 (-10 * t) * sin ((t - 0.075) * (2 * PI) / 0.3) + 1.

Definition outBack (t : R) : R :=
  let c := 2.70158 in
  1 + (c + 1) * (t - 1) ^ 3 + c * (t - 1) ^ 2.

Definition lerp (a b t : R) : R := a + (b - a) * t.

(** [GNode.start()] *)
Definition node_start (n : GNode) : GNode :=
  {| n_id := n_id n; n_label := n_label n; n_type := n_type n; n_color := n_color n;
     n_tx := n_tx n; n_ty := n_ty n; n_x := n_x n; n_y := n_y n;
     n_r := n_r n; n_cr := n_cr n; n_delay := n_delay n; n_t := 0;
     n_dur := n_dur n; n_visible := true; n_hover := n_hover n;
     n_scale := n_scale n; n_opacity := n_opacity n; n_pulse := n_pulse n |}.

(** [GNode.update(dt, mx, my)] *)
Definition node_update (dt mx my : R) (n : GNode) : GNode :=
  if n_visible n then
    let t := n_t n + dt in
    let p := Rmin 1 (t / n_dur n) in
    let y := lerp (n_ty n - 50) (n_ty n) (outBack p) in
    let x := n_tx n in
    let scale := outElastic p in
    let cr := n_r n * scale in
    let dx := mx - x in
    let dy := my - y in
    {| n_id := n_id n; n_label := n_label n; n_type := n_type n; n_color := n_color n;
       n_tx := n_tx n; n_ty := n_ty n; n_x := x; n_y := y;
       n_r := n_r n; n_cr := cr; n_delay := n_delay n; n_t := t;
       n_dur := n_dur n; n_visible := true;
       n_hover := if Rle_dec (dx * dx + dy * dy) ((cr + 6) ^ 2) then true else false;
       n_scale := scale; n_opacity := Rmin 1 (p * 3); n_pulse := n_pulse n + dt * 2 |}
  else n.

(** [GEdge.start()] *)
Definition edge_start (e : GEdge) : GEdge :=
  {| e_src := e_src e; e_tgt := e_tgt e; e_label := e_label e; e_color := e_color e;
     e_delay := e_delay e; e_t := 0; e_dur := e_dur e; e_visible := true;
     e_progress := e_progress e |}.

(** [GEdge.update(dt)] *)
Definition edge_update (dt : R) (e : GEdge) : GEdge :=
  if e_visible e then
    let t := e_t e + dt in
    {| e_src := e_src e; e_tgt := e_tgt e; e_label := e_label e; e_color := e_color e;
       e_delay := e_delay e; e_t := t; e_dur := e_dur e; e_visible := true;
       e_progress := Rmin 1 (outCubic (Rmin 1 (t / e_dur e))) |}
  else e.

(** The staggered start of the build effect:
    [nodes.forEach(n => setTimeout(() => n.start(), n.delay * 1000))] and
    [edges.forEach(e => setTimeout(() => e.start(), e.delay * 1000 + 300))].
    These are the timeouts, in milliseconds; the node timers are registered
    before the edge timers. *)
Definition node_timeout (n : GNode) : R := n_delay n * 1000.
Definition edge_timeout (e : GEdge) : R := e_delay e * 1000 + 300.

(** *** Particles *)

Record Particle := {
  p_x : R; p_y : R; p_color : string; p_vx : R; p_vy : R;
  p_life : R; p_maxLife : R; p_size : R; p_alive : bool
}.

(** [new Particle(x, y, color, vx, vy, life, size)] *)
Definition new_Particle (x y : R) (color : string) (vx vy life size : R) : Particle :=
  {| p_x := x; p_y := y; p_color := color; p_vx := vx; p_vy := vy;
     p_life := life; p_maxLife := life; p_size := size; p_alive := true |}.

(** [Particle.update(dt)] *)
Definition particle_update (dt : R) (p : Particle) : Particle :=
  let life := p_life p - dt in
  {| p_x := p_x p + p_vx p * dt * 60; p_y := p_y p + p_vy p * dt * 60;
     p_color := p_color p; p_vx := p_vx p; p_vy := p_vy p;
     p_life := life; p_maxLife := p_maxLife p; p_size := p_size p;
     p_alive := if Rle_dec life 0 then false else p_alive p |}.

(** [Particles.emit(x, y, c, n, s, l, sz)]: the [i]-th particle draws the
    three values [u (3 i)], [u (3 i + 1)], [u (3 i + 2)] of [Math.random()].
    Every call in the component passes all seven arguments. *)
Definition emit (u : nat -> R) (x y : R) (c : string) (n : nat) (s l sz : R)
    (plist : list Particle) : list Particle :=
  plist ++ ((fun i => new_Particle x y c ((u (3 * i)%nat - 0.5) * s * 2)
                       ((u (3 * i + 1)%nat - 0.5) * s * 2)
                       (l + u (3 * i + 2)%nat * 0.2) sz) <$> seq 0 n).

(** [Particles.update(dt)]:
    [this.list = this.list.filter(p => p.alive); this.list.forEach(p => p.update(dt))] *)
Definition particles_update (dt : R) (plist : list Particle) : list Particle :=
  particle_update dt <$> filter (fun p => p_alive p = true) plist.

(** *** The render loop *)

(** The time step of one call of [tick], from the timestamp of the previous
    call kept in [lastT.current] ([None] is [null]; [0] is falsy as well):
    [dt = lastT.current ? Math.min(now - lastT.current, 0.05) : 0.016]. *)
Definition frame_dt (lastT : option R) (now : R) : R :=
  match lastT with
  | Some l => if Req_dec_T l 0 then 0.016 else Rmin (now - l) 0.05
  | None => 0.016
  end.

(** Successive calls of [tick]: each is given by [now] and by the model
    point under the mouse, and yields the arguments of [n.update]. *)
Fixpoint tick_frames (lastT : option R) (inputs : list (R * R * R)) : list (R * R * R) :=
  match inputs with
  | [] => []
  | (now, mx, my) :: rest => (frame_dt lastT now, mx, my) :: tick_frames (Some now) rest
  end.

(** *** Clicks on the canvas *)

(** [s.split(sep)[0]]: the text before the first occurrence of [sep]. *)
Fixpoint split_head (sep s : string) : string :=
  if String.prefix sep s then EmptyString
  else match s with
       | EmptyString => EmptyString
       | String c r => String c (split_head sep r)
       end.

(** The callback that a click on a node invokes. *)
Inductive callback :=
| FileSelect (path : string)
| FunctionClick (path : string).

(** [if (n.type === 'module') onFileSelect?.(n.id);
     else if (n.id.includes('::')) onFunctionClick?.(n.id.split('::')[0])] *)
Definition dispatch (n : GNode) : option callback :=
  match n_type n with
  | TModule => Some (FileSelect (n_id n))
  | _ => if includes "::" (n_id n)
         then Some (FunctionClick (split_head "::" (n_id n)))
         else None
  end.

(** The test of the loop in [onUp] on one node, for the model point
    [(wx, wy)]. *)
Definition hit (wx wy : R) (n : GNode) : bool :=
  n_visible n &&
  (if Rle_dec ((wx - n_x n) ^ 2 + (wy - n_y n) ^ 2) ((n_cr n + 5) ^ 2) then true else false).

(** [for (const n of s.nodes) { ...; break; }]: the first node hit. *)
Fixpoint first_hit (wx wy : R) (ns : list GNode) : option nat :=
  match ns with
  | [] => None
  | n :: ns' => if hit wx wy n then Some 0%nat else S <$> first_hit wx wy ns'
  end.

(** The node that [onUp] selects, if any: the release counts as a click when
    the pointer moved less than 5 px in total since the press. *)
Definition click_target (r : option rect) (e : pointer) (s : view) (ns : list GNode)
  : option nat :=
  let moved := Rabs (clientX e - px (dragStart s)) + Rabs (clientY e - py (dragStart s)) in
  if Rlt_dec moved 5 then
    match r with
    | None => None
    | Some r =>
        let wx := (clientX e - r_left r - px (pan s)) / zoom s in
        let wy := (clientY e - r_top r - py (pan s)) / zoom s in
        first_hit wx wy ns
    end
  else None.

(** The callback that [onUp] invokes. *)
Definition click_callback (r : option rect) (e : pointer) (s : view) (ns : list GNode)
  : option callback :=
  k ← click_target r e s ns; n ← ns !! k; dispatch n.

End CodeMap.

(** * The Visualizer: step playback over the rendered diagram *)

Module Visualizer.

Local Open Scope Z_scope.

(** *** The rendered diagram *)

(** The inline style properties that the component writes.  A property that
    was never set, or was set to the empty string, is [EmptyString]. *)
Record style := {
  s_opacity : string; s_filter : string; s_transition : string;
  s_stroke : string; s_strokeWidth : string; s_strokeDasharray : string;
  s_animation : string; s_cursor : string
}.

Inductive tag := PathTag | PolygonTag | MarkerTag | OtherTag.

(** A descendant of an element, with its tag.  Descendants carry no id of
    their own. *)
Record part := { p_tag : tag; p_style : style }.

Inductive class := NodeClass | EdgeClass | NoClass.

(** An element of the diagram that carries an id: a [.node] group, an
    [.edge] group with its descendants, or some other element. *)
Record element := {
  el_id : string; el_class : class; el_style : style; el_parts : list part
}.

(** The [svg] element, as the list of these elements in document order. *)
Abbreviation diagram := (list element).

Definition with_style (f : style -> style) (e : element) : element :=
  {| el_id := el_id e; el_class := el_class e; el_style := f (el_style e);
     el_parts := el_parts e |}.

Definition with_parts (sel : tag -> bool) (f : style -> style) (e : element) : element :=
  {| el_id := el_id e; el_class := el_class e; el_style := el_style e;
     el_parts := (fun p => if sel (p_tag p)
                           then {| p_tag := p_tag p; p_style := f (p_style p) |}
                           else p) <$> el_parts e |}.

Definition is_node (e : element) : bool :=
  match el_class e with NodeClass => true | _ => false end.

Definition is_edge (e : element) : bool :=
  match el_class e with EdgeClass => true | _ => false end.

(** The selectors ['path, polygon'] and ['path, polygon, marker']. *)
Definition path_polygon (t : tag) : bool :=
  match t with PathTag | PolygonTag => true | _ => false end.

Definition path_polygon_marker (t : tag) : bool :=
  match t with PathTag | PolygonTag | MarkerTag => true | _ => false end.

(** [svg.querySelectorAll('.node').forEach(...)], then
    [svg.querySelectorAll('.edge path, .edge polygon, .edge marker').forEach(...)] *)
Definition dimAll (d : diagram) : diagram :=
  (fun e =>
     if is_node e then
       with_style (fun s =>
         {| s_opacity := "0.2"; s_filter := "none"; s_transition := "all 0.4s ease";
            s_stroke := s_stroke s; s_strokeWidth := s_strokeWidth s;
            s_strokeDasharray := s_strokeDasharray s; s_animation := s_animation s;
            s_cursor := s_cursor s |}) e
     else if is_edge e then
       with_parts path_polygon_marker (fun s =>
         {| s_opacity := "0.08"; s_filter := s_filter s; s_transition := "all 0.4s ease";
            s_stroke := s_stroke s; s_strokeWidth := s_strokeWidth s;
            s_strokeDasharray := s_strokeDasharray s; s_animation := s_animation s;
            s_cursor := s_cursor s |}) e
     else e) <$> d.

(** [svg.querySelectorAll('.node').forEach(...)], then
    [svg.querySelectorAll('.edge path, .edge polygon').forEach(...)] *)
Definition resetAll (d : diagram) : diagram :=
  (fun e =>
     if is_node e then
       with_style (fun s =>
         {| s_opacity := "1"; s_filter := "none"; s_transition := "all 0.35s ease";
            s_stroke := s_stroke s; s_strokeWidth := s_strokeWidth s;
            s_strokeDasharray := s_strokeDasharray s; s_animation := s_animation s;
            s_cursor := s_cursor s |}) e
     else if is_edge e then
       with_parts path_polygon (fun s =>
         {| s_opacity := "0.7"; s_filter := s_filter s; s_transition := "all 0.35s ease";
            s_stroke := EmptyString; s_strokeWidth := EmptyString;
            s_strokeDasharray := EmptyString; s_animation := EmptyString;
            s_cursor := s_cursor s |}) e
     else e) <$> d.

(** [GLOW[key]], keyed by [kind + 'Style']; only the color is used for the
    node glow. *)
Definition GLOW (key : string) : option string :=
  if String.eqb key "startStyle" then Some "#58a6ff"
  else if String.eqb key "defineStyle" then Some "#bc8cff"
  else if String.eqb key "callStyle" then Some "#3fb950"
  else if String.eqb key "importStyle" then Some "#39d2c0"
  else if String.eqb key "conditionStyle" then Some "#d29922"
  else if String.eqb key "loopStyle" then Some "#f778ba"
  else if String.eqb key "returnStyle" then Some "#f85149"
  else if String.eqb key "classStyle" then Some "#d29922"
  else if String.eqb key "assignStyle" then Some "#8b949e"
  else None.

Definition DEF_GLOW : string := "#58a6ff".

(** The sids that can be written into the selector as they are: no
    character that ends or continues the quoted value (double quote,
    backslash) and none that CSS does not take inside a string (line feed,
    form feed, carriage return, NUL). *)
Definition plain_char (c : ascii) : bool :=
  negb (Nat.eqb (nat_of_ascii c) 34 || Nat.eqb (nat_of_ascii c) 92 ||
        Nat.eqb (nat_of_ascii c) 10 || Nat.eqb (nat_of_ascii c) 12 ||
        Nat.eqb (nat_of_ascii c) 13 || Nat.eqb (nat_of_ascii c) 0).

Fixpoint plain_sid (sid : string) : bool :=
  match sid with
  | EmptyString => true
  | String c sid' => plain_char c && plain_sid sid'
  end.

(** [svg.querySelector('[id*="flowchart-' + sid + '-"]')] for a sid that is
    [plain_sid]: the position of the first element, in document order, whose
    id contains the text.  For any other sid the text between the brackets
    is not the attribute selector meant: the call throws [SyntaxError], or
    selects by some other rule.  [querySelector], and [showStep] and the
    play loop that are built on it, say what the code does on plain sids
    only. *)
Fixpoint find_id (pat : string) (d : diagram) : option nat :=
  match d with
  | [] => None
  | e :: d' => if includes pat (el_id e) then Some 0%nat else S <$> find_id pat d'
  end.

Definition querySelector (sid : string) (d : diagram) : option nat :=
  find_id ("flowchart-" +:+ sid +:+ "-") d.

(** The filter that [glowNode] writes for a step of the given kind. *)
Definition glow_filter (kind : string) : string :=
  "drop-shadow(0 0 14px " +:+ default DEF_GLOW (GLOW (kind +:+ "Style"))
  +:+ "88) brightness(1.4)".

Definition glowNode (sid kind : string) (d : diagram) : diagram :=
  match querySelector sid d with
  | None => d
  | Some n =>
      alter (with_style (fun s =>
        {| s_opacity := "1"; s_filter := glow_filter kind;
           s_transition := "all 0.3s ease";
           s_stroke := s_stroke s; s_strokeWidth := s_strokeWidth s;
           s_strokeDasharray := s_strokeDasharray s; s_animation := s_animation s;
           s_cursor := s_cursor s |})) n d
  end.

(** The test of [glowEdge] on an edge id. *)
Definition edge_matches (fromSid toSid : string) (e : element) : bool :=
  is_edge e && includes fromSid (el_id e) && includes toSid (el_id e).

Definition glowEdge (fromSid toSid : string) (d : diagram) : diagram :=
  (fun e =>
     if edge_matches fromSid toSid e then
       with_parts path_polygon (fun s =>
         {| s_opacity := "1"; s_filter := s_filter s; s_transition := s_transition s;
            s_stroke := "#58a6ff"; s_strokeWidth := "3";
            s_strokeDasharray := "8 4";
            s_animation := "edgeFlow 0.6s linear infinite";
            s_cursor := s_cursor s |}) e
     else e) <$> d.

(** *** Steps and controller state *)

Record Step := {
  step_id : Z; sid : string; parent : option Z;
  kind : string; step_label : string; line : Z
}.

(** The component state: the React state [steps], [curStep], [playing],
    [speed] (with the refs [stepsRef] and [speedRef] that mirror [steps] and
    [speed]), the ref [playRef], the rendered [svg] if there is one, and the
    play loops suspended in [await new Promise(r => setTimeout(r, ...))]:
    each with the value of its local [i] and the delay it was armed with. *)
Record state := {
  steps : list Step;
  curStep : Z;
  playing : bool;
  playRef : bool;
  speed : Z;
  svg : option diagram;
  timers : list (Z * Z)
}.

Definition len (st : state) : Z := Z.of_nat (length (steps st)).

Definition set_play (b : bool) (st : state) : state :=
  {| steps := steps st; curStep := curStep st; playing := b; playRef := b;
     speed := speed st; svg := svg st; timers := timers st |}.

Definition set_playing (b : bool) (st : state) : state :=
  {| steps := steps st; curStep := curStep st; playing := b; playRef := playRef st;
     speed := speed st; svg := svg st; timers := timers st |}.

Definition set_playRef (b : bool) (st : state) : state :=
  {| steps := steps st; curStep := curStep st; playing := playing st; playRef := b;
     speed := speed st; svg := svg st; timers := timers st |}.

Definition set_timers (t : list (Z * Z)) (st : state) : state :=
  {| steps := steps st; curStep := curStep st; playing := playing st;
     playRef := playRef st; speed := speed st; svg := svg st; timers := t |}.

(** [all.find(x => x.id === p)] *)
Definition find_step (all : list Step) (p : Z) : option Step :=
  List.find (fun x => step_id x =? p) all.

(** [if (s.parent)]: an absent parent and the id 0 are both falsy. *)
Definition truthy (p : option Z) : option Z :=
  match p with
  | Some v => if v =? 0 then None else Some v
  | None => None
  end.

(** Body of [for (let i = 0; i <= idx; i++)] in [showStep], with the [svg]
    present. *)
Definition trail (all : list Step) (idx : nat) (d : diagram) (i : nat) : diagram :=
  match all !! i with
  | None => d
  | Some s =>
      let d :=
        match querySelector (sid s) d with
        | None => d
        | Some n =>
            let d := alter (with_style (fun st =>
                       {| s_opacity := if Nat.eqb i idx then "1" else "0.5";
                          s_filter := s_filter st; s_transition := s_transition st;
                          s_stroke := s_stroke st; s_strokeWidth := s_strokeWidth st;
                          s_strokeDasharray := s_strokeDasharray st;
                          s_animation := s_animation st;
                          s_cursor := s_cursor st |})) n d in
            if Nat.eqb i idx then glowNode (sid s) (kind s) d else d
        end in
      match truthy (parent s) with
      | None => d
      | Some p =>
          match find_step all p with
          | None => d
          | Some ps => glowEdge (sid ps) (sid s) d
          end
      end
  end.

(** [showStep(idx)].  Without an [svg] the highlight helpers return at once
    and the loop body is skipped, but [setCurStep(idx)] still runs.  The
    final scrolling of the active node into view changes no state kept
    here. *)
Definition showStep (idx : Z) (st : state) : state :=
  if (idx <? 0) || (idx >=? len st) then st
  else
    {| steps := steps st; curStep := idx; playing := playing st;
       playRef := playRef st; speed := speed st;
       svg := (fun d => foldl (trail (steps st) (Z.to_nat idx)) (dimAll d)
                          (seq 0 (S (Z.to_nat idx)))) <$> svg st;
       timers := timers st |}.

(** The [while] loop of [playLoop] from its test to the next [await], or to
    the end of the function when the test fails. *)
Definition loop_from (i : Z) (st : state) : state :=
  if playRef st && (i <? len st) then
    let st := showStep i st in
    set_timers (timers st ++ [(i + 1, speed st)]) st
  else if i >=? len st then set_play false st
  else st.

(** [playLoop(start)] up to its first [await]. *)
Definition playLoop (start : Z) (st : state) : state :=
  loop_from start (set_playRef true st).

(** The [k]-th suspended play loop resumes: its timer has fired. *)
Definition wake (k : nat) (st : state) : state :=
  match timers st !! k with
  | None => st
  | Some (i, _) => loop_from i (set_timers (delete k (timers st)) st)
  end.

Definition togglePlay (st : state) : state :=
  if playing st then set_play false st
  else playLoop (if curStep st >=? len st - 1 then 0 else curStep st + 1)
                (set_playing true st).

Definition stepFwd (st : state) : state :=
  let st := set_play false st in
  if curStep st + 1 <? len st then showStep (curStep st + 1) st else st.

Definition reset (st : state) : state :=
  {| steps := steps st; curStep := -1; playing := false; playRef := false;
     speed := speed st; svg := resetAll <$> svg st; timers := timers st |}.

(** The speed slider: [<input type="range" min="200" max="2000" step="100"
    value={2200 - speed} onChange={e => setSpeed(2200 - +e.target.value)}>]. *)
Definition sliderMin : Z := 200.
Definition sliderMax : Z := 2000.
Definition sliderStep : Z := 100.

Definition slider_value (st : state) : Z := 2200 - speed st.

(** The values that the range input can report. *)
Definition slider_accepts (v : Z) : Prop :=
  sliderMin <= v <= sliderMax /\ (v - sliderMin) mod sliderStep = 0.

Definition onChange (v : Z) (st : state) : state :=
  {| steps := steps st; curStep := curStep st; playing := playing st;
     playRef := playRef st; speed := 2200 - v; svg := svg st; timers := timers st |}.

(** [loadFlow] runs in three stretches, separated by its [await]s; other
    handlers can run in between.  Suspended play loops stay suspended
    throughout.

    The first stretch, up to [await visualizeFile(activeFile)]:
    [setCurStep(-1); setPlaying(false); playRef.current = false].  The
    diagram and the steps of the previous load stay in place, and so do the
    click listeners of its nodes; [setRendered(false)] takes the Play, Step
    and Reset buttons off the toolbar, and [setLoading(true)] disables the
    Visualize button, until the load is over. *)
Definition loadStart (st : state) : state :=
  {| steps := steps st; curStep := -1; playing := false; playRef := false;
     speed := speed st; svg := svg st; timers := timers st |}.

(** The second stretch, once [visualizeFile] and [initMermaid] have
    returned: [box.innerHTML = ''] removes the previous diagram.  A load
    that fails before this point leaves the previous diagram in the page. *)
Definition loadClear (st : state) : state :=
  {| steps := steps st; curStep := curStep st; playing := playing st;
     playRef := playRef st; speed := speed st; svg := None; timers := timers st |}.

(** The styles that [loadFlow] writes into the diagram it has rendered:
    [cursor] and [transition] on every [.node], [strokeWidth] and [opacity]
    on every [.edge path].  (The styles written on the [svg] element itself
    belong to no element of a [diagram].) *)
Definition is_path (t : tag) : bool :=
  match t with PathTag => true | _ => false end.

Definition interactive (d : diagram) : diagram :=
  (fun e =>
     if is_node e then
       with_style (fun s =>
         {| s_opacity := s_opacity s; s_filter := s_filter s;
            s_transition := "all 0.35s ease";
            s_stroke := s_stroke s; s_strokeWidth := s_strokeWidth s;
            s_strokeDasharray := s_strokeDasharray s; s_animation := s_animation s;
            s_cursor := "pointer" |}) e
     else if is_edge e then
       with_parts is_path (fun s =>
         {| s_opacity := "0.7"; s_filter := s_filter s; s_transition := s_transition s;
            s_stroke := s_stroke s; s_strokeWidth := "2";
            s_strokeDasharray := s_strokeDasharray s; s_animation := s_animation s;
            s_cursor := s_cursor s |}) e
     else e) <$> d.

(** The third stretch, once [merm.render] has returned the diagram [d]:
    [box.innerHTML = svg], the styles and the listeners, then
    [setSteps(data.steps || [])].  The index and the two flags are not
    touched again. *)
Definition loadDone (all : list Step) (d : diagram) (st : state) : state :=
  {| steps := all; curStep := curStep st; playing := playing st;
     playRef := playRef st; speed := speed st; svg := Some (interactive d);
     timers := timers st |}.

(** A load can also end without a third stretch: [visualizeFile],
    [initMermaid] or [merm.render] throws, and the [catch] block stores the
    message with [setError]; nothing of the state kept here changes
    ([LoadFail] below). *)

(** A load during which no other handler runs. *)
Definition load (all : list Step) (d : diagram) (st : state) : state :=
  loadDone all d (loadClear (loadStart st)).

(** The component as first mounted. *)
Definition mounted : state :=
  {| steps := []; curStep := -1; playing := false; playRef := false;
     speed := 800; svg := None; timers := [] |}.

(** *** Clicks on the nodes of the diagram *)

(** [arr.findIndex(p)] *)
Fixpoint findIndex {A} (p : A -> bool) (l : list A) : option nat :=
  match l with
  | [] => None
  | a :: l' => if p a then Some 0%nat else S <$> findIndex p l'
  end.

(** The click listener that [loadFlow] installs on every [.node] element,
    for the element of id [nid]:
    [idx = data.steps.findIndex(s => nid.includes(`flowchart-${s.sid}-`));
     if (idx >= 0) showStep(idx)]. *)
Definition clickNode (nid : string) (st : state) : state :=
  match findIndex (fun s => includes ("flowchart-" +:+ sid s +:+ "-") nid) (steps st) with
  | Some idx => showStep (Z.of_nat idx) st
  | None => st
  end.

(** *** What can happen to the component *)

Inductive command :=
| TogglePlay
| StepForward
| Reset
| ShowStep (idx : Z)
| Wake (k : nat)
| Speed (v : Z)
| Load (all : list Step) (d : diagram)
| Click (nid : string)
| LoadStart
| LoadClear
| LoadDone (all : list Step) (d : diagram)
| LoadFail.

Definition exec (st : state) (c : command) : state :=
  match c with
  | TogglePlay => togglePlay st
  | StepForward => stepFwd st
  | Reset => reset st
  | ShowStep idx => showStep idx st
  | Wake k => wake k st
  | Speed v => onChange v st
  | Load all d => load all d st
  | Click nid => clickNode nid st
  | LoadStart => loadStart st
  | LoadClear => loadClear st
  | LoadDone all d => loadDone all d st
  | LoadFail => st
  end.

Definition run (cs : list command) (st : state) : state := foldl exec st cs.

(** *** Loading Mermaid *)

(** How a call of [initMermaid] ends: it returns at once because an earlier
    call has initialised the library, it initialises the library, or it
    throws [Error('Mermaid not loaded ...')]. *)
Inductive mermaid := AlreadyReady | Initialized | NotLoaded.

(** The [for] loop of [initMermaid]: [avail i] tells whether
    [window.mermaid] is set when it is read after [i] waits of 150 ms.  The
    result is the value of [i] when the loop is left, which is the number of
    waits made. *)
Fixpoint poll (avail : nat -> bool) (fuel i : nat) : nat :=
  match fuel with
  | O => i
  | S fuel' => if avail i then i else poll avail fuel' (S i)
  end.

(** [initMermaid()], given the module variable [mermaidReady]: the number
    of waits and the outcome.  [mermaidReady] is [true] afterwards unless
    the call throws. *)
Definition initMermaid (mermaidReady : bool) (avail : nat -> bool) : nat * mermaid :=
  if mermaidReady && avail 0%nat then (0%nat, AlreadyReady)
  else
    let i := poll avail 40 0 in
    if avail i then (i, Initialized) else (i, NotLoaded).

(** *** Zoom of the diagram *)

Section Zoom.

Local Open Scope R_scope.

(** [+(x).toFixed(1)]: [toFixed] takes the integer [n] for which [n / 10]
    is nearest to [x], the larger one of two, after setting the sign of a
    negative [x] aside.  (Values of [10^21] and more are printed in
    exponent notation; they are outside the model.) *)
Definition round_tenth (x : R) : R := IZR (Int_part (x * 10 + / 2)) / 10.

Definition toFixed1 (x : R) : R :=
  if Rlt_dec x 0 then - round_tenth (- x) else round_tenth x.

(** [setZoom(z => Math.min(3, +(z + 0.2).toFixed(1)))] and
    [setZoom(z => Math.max(0.3, +(z - 0.2).toFixed(1)))] *)
Definition zoomIn (z : R) : R := Rmin 3 (toFixed1 (z + 0.2)).
Definition zoomOut (z : R) : R := Rmax 0.3 (toFixed1 (z - 0.2)).

(** The wheel handler: it only acts with [ctrlKey] or [metaKey] held. *)
Definition onWheel (ctrlKey metaKey : bool) (deltaY : R) (z : R) : R :=
  if ctrlKey || metaKey
  then Rmax 0.3 (Rmin 3 (toFixed1 (z + (if Rlt_dec 0 deltaY then - 0.1 else 0.1))))
  else z.

(** What [fitView] measures: the container rectangle, the bounding box of
    the diagram and the scroll size of the [svg] element. *)
Record measures := {
  cr_width : R; cr_height : R;
  bbox_width : R; bbox_height : R;
  scrollWidth : R; scrollHeight : R
}.

(** [a || b] on numbers: [0] is falsy. *)
Definition or_else (a b : R) : R := if Req_dec_T a 0 then b else a.

Definition fit_w (m : measures) : R := or_else (bbox_width m) (or_else (scrollWidth m) 800).
Definition fit_h (m : measures) : R := or_else (bbox_height m) (or_else (scrollHeight m) 600).

(** [ideal = Math.max(0.3, Math.min(Math.min((cr.width - 20) / w,
    (cr.height - 20) / h), 1.5))] *)
Definition ideal (m : measures) : R :=
  Rmax 0.3 (Rmin (Rmin ((cr_width m - 20) / fit_w m) ((cr_height m - 20) / fit_h m)) 1.5).

(** [fitView()], and the automatic fit 300 ms after a diagram is rendered:
    nothing happens without the [svg] or the container. *)
Definition fitView (m : option measures) (z : R) : R :=
  match m with
  | Some m => ideal m
  | None => z
  end.

Inductive zoom_command :=
| ZoomIn
| ZoomOut
| Fit (m : option measures)
| WheelZoom (ctrlKey metaKey : bool) (deltaY : R).

Definition zoom_exec (z : R) (c : zoom_command) : R :=
  match c with
  | ZoomIn => zoomIn z
  | ZoomOut => zoomOut z
  | Fit m => fitView m z
  | WheelZoom c m dy => onWheel c m dy z
  end.

End Zoom.

End Visualizer.

(** * The editor tabs of the application

    [CodeMap] reports clicks through [onFileSelect] and [onFunctionClick],
    which the application binds to [handleFileSelect] and
    [handleFunctionClick]; the file of the active tab is the [activeFile]
    of the [Visualizer]. *)

Module App.

(** One entry of [tabs]: [{ path, content, savedContent, modified }]. *)
Record Tab := {
  t_path : string; content : string; savedContent : string; modified : bool
}.

(** The React state [tabs] and [activeTab] ([None] is [null]). *)
Record editor := { tabs : list Tab; activeTab : option string }.

(** [useState([])] and [useState(null)] *)
Definition initial : editor := {| tabs := []; activeTab := None |}.

(** [tabs.find((t) => t.path === path)] *)
Definition find_tab (path : string) (ts : list Tab) : option Tab :=
  List.find (fun t => String.eqb (t_path t) path) ts.

(** The part of [handleFileSelect] that runs once [readFile] has returned
    [content]: [setTabs((prev) => [...prev, {...}]); setActiveTab(filePath)]. *)
Definition openTab (filePath data : string) (st : editor) : editor :=
  {| tabs := tabs st ++ [{| t_path := filePath; content := data;
                            savedContent := data; modified := false |}];
     activeTab := Some filePath |}.

(** [handleFileSelect(filePath)] when no other handler runs before
    [readFile] returns; [read] is the content read, or [None] when
    [readFile] fails (the error is only logged). *)
Definition handleFileSelect (filePath : string) (read : option string) (st : editor)
  : editor :=
  match find_tab filePath (tabs st) with
  | Some _ => {| tabs := tabs st; activeTab := Some filePath |}
  | None =>
      match read with
      | Some data => openTab filePath data st
      | None => st
      end
  end.

(** [handleFunctionClick(modulePath, line)] *)
Definition handleFunctionClick (modulePath : string) (read : option string) (st : editor)
  : editor :=
  handleFileSelect modulePath read st.

(** [handleTabClose(path)]; [confirmed] is the answer to the [confirm]
    dialog, which is only asked for a modified tab. *)
Definition handleTabClose (path : string) (confirmed : bool) (st : editor) : editor :=
  if match find_tab path (tabs st) with
     | Some tab => modified tab && negb confirmed
     | None => false
     end
  then st
  else
    let next := filter (fun t => t_path t <> path) (tabs st) in
    {| tabs := next;
       activeTab := if bool_decide (activeTab st = Some path)
                    then t_path <$> last next
                    else activeTab st |}.

(** [handleContentChange(path, newContent)] *)
Definition handleContentChange (path newContent : string) (st : editor) : editor :=
  {| tabs := (fun t =>
                if String.eqb (t_path t) path
                then {| t_path := t_path t; content := newContent;
                        savedContent := savedContent t;
                        modified := negb (String.eqb newContent (savedContent t)) |}
                else t) <$> tabs st;
     activeTab := activeTab st |}.

(** The part of [handleSave] that runs once [saveFile] has returned, for
    the tab [path] that was active when the save began.  It takes the
    content that the tab has by then, not the content that was sent. *)
Definition saved (path : string) (st : editor) : editor :=
  {| tabs := (fun t =>
                if String.eqb (t_path t) path
                then {| t_path := t_path t; content := content t;
                        savedContent := content t; modified := false |}
                else t) <$> tabs st;
     activeTab := activeTab st |}.

(** [handleSave()] when no other handler runs before [saveFile] returns;
    [ok] tells whether [saveFile] succeeded.  An empty path is falsy. *)
Definition handleSave (ok : bool) (st : editor) : editor :=
  match activeTab st with
  | None => st
  | Some path =>
      if String.eqb path EmptyString then st
      else match find_tab path (tabs st) with
           | None => st
           | Some _ => if ok then saved path st else st
           end
  end.

(** [setTabs([]); setActiveTab(null)] of [handleOpenFolder],
    [handleNewProject] and [handleOpenRecent]. *)
Definition openProject (st : editor) : editor := {| tabs := []; activeTab := None |}.

(** What can happen to the tabs.  [ReadDone] and [SaveDone] are the second
    parts of a [handleFileSelect] and of a [handleSave] that other events
    have overtaken; [sent] is the content that [handleSave] took from the
    tab, and passed to [saveFile], when it began. *)
Inductive event :=
| Select (path : string) (read : option string)
| FunctionClick (modulePath : string) (read : option string)
| Close (path : string) (confirmed : bool)
| Change (path newContent : string)
| Save (ok : bool)
| OpenProject
| ReadDone (path data : string)
| SaveDone (path sent : string).

Definition exec (st : editor) (e : event) : editor :=
  match e with
  | Select p r => handleFileSelect p r st
  | FunctionClick p r => handleFunctionClick p r st
  | Close p c => handleTabClose p c st
  | Change p c => handleContentChange p c st
  | Save ok => handleSave ok st
  | OpenProject => openProject st
  | ReadDone p c => openTab p c st
  | SaveDone p _ => saved p st
  end.

Definition run (es : list event) (st : editor) : editor := foldl exec st es.

(** *** The files behind the tabs *)

(** The editor together with the content of the files, as far as the
    application has read or written them: [disk !! p] is what
    [readFile(p)] last returned or what [saveFile(p, ...)] last stored.
    Nothing else is taken to write the files. *)
Record world := { ed : editor; disk : gmap string string }.

Definition world0 : world := {| ed := initial; disk := ∅ |}.

(** What an event does to the files.  [handleFileSelect] reads the file
    unless a tab is open for it; [handleSave] stores the content that the
    active tab has when the save begins. *)
Definition write (st : editor) (e : event) (fs : gmap string string)
  : gmap string string :=
  match e with
  | Select p (Some data) | FunctionClick p (Some data) =>
      match find_tab p (tabs st) with
      | Some _ => fs
      | None => <[p := data]> fs
      end
  | ReadDone p data => <[p := data]> fs
  | Save true =>
      match activeTab st with
      | None => fs
      | Some path =>
          if String.eqb path EmptyString then fs
          else match find_tab path (tabs st) with
               | None => fs
               | Some tab => <[path := content tab]> fs
               end
      end
  | SaveDone p sent => <[p := sent]> fs
  | _ => fs
  end.

Definition step (w : world) (e : event) : world :=
  {| ed := exec (ed w) e; disk := write (ed w) e (disk w) |}.

Definition play (es : list event) (w : world) : world := foldl step w es.

(** The callback of a click in the code map, as the application binds it. *)
Definition on_click (cb : CodeMap.callback) (read : option string) (st : editor) : editor :=
  match cb with
  | CodeMap.FileSelect p => handleFileSelect p read st
  | CodeMap.FunctionClick p => handleFunctionClick p read st
  end.

End App.

(** * Properties of the Code Map *)

Module CodeMapFacts.
Import CodeMap.

Local Open Scope R_scope.

(** ** The solver keeps every node inside the margins *)

(** The clamp puts a coordinate inside the margins when they leave room,
    and on the lower margin when they do not. *)
Lemma clamp_bounds D c : 80 <= D -> 40 <= clamp 40 D c <= D - 40.
Proof.
  intros HD. unfold clamp, Rmax, Rmin.
  repeat destruct (Rle_dec _ _); lra.
Qed.

Lemma clamp_narrow D c : D < 80 -> clamp 40 D c = 40.
Proof.
  intros HD. unfold clamp, Rmax, Rmin.
  repeat destruct (Rle_dec _ _); lra.
Qed.

Section Bounds.

Variables W H : R.

(** Any property that the clamped coordinates have. *)
Variables PX PY : R -> Prop.
Hypothesis HX : forall c, PX (clamp 40 W c).
Hypothesis HY : forall c, PY (clamp 40 H c).

Definition clamped (p : pt) : Prop := PX (px p) /\ PY (py p).

Lemma length_integrate_at pv i :
  length (integrate_at W H pv i).1 = length pv.1.
Proof. unfold integrate_at. cbn. by rewrite !length_alter. Qed.

Lemma length_integrate pv l :
  length (foldl (integrate_at W H) pv l).1 = length pv.1.
Proof.
  revert pv. induction l as [|i l IH]; intros pv; [done|].
  cbn [foldl]. by rewrite IH, length_integrate_at.
Qed.

(** After the loop has visited the indices below [k], those positions are
    clamped. *)
Lemma integrate_prefix_clamped pv k :
  (k <= length pv.1)%nat ->
  forall i p, (i < k)%nat ->
    (foldl (integrate_at W H) pv (seq 0 k)).1 !! i = Some p -> clamped p.
Proof.
  induction k as [|k IH]; intros Hk i p Hi Hp; [lia|].
  rewrite seq_S, foldl_snoc in Hp. cbn [Nat.add] in Hp.
  set (pv' := foldl (integrate_at W H) pv (seq 0 k)) in *.
  unfold integrate_at in Hp. cbn [fst] in Hp.
  destruct (decide (i = k)) as [->|Hne].
  - rewrite list_lookup_alter_eq, list_lookup_alter_eq in Hp.
    destruct (pv'.1 !! k) as [q|]; [|done].
    cbn in Hp. injection Hp as <-. unfold clamped. cbn.
    split; [apply HX|apply HY].
  - rewrite list_lookup_alter_ne, list_lookup_alter_ne in Hp by done.
    apply (IH ltac:(lia) i p); [lia|done].
Qed.

Lemma length_iteration ns es pv :
  length (iteration W H ns es pv).1 = length pv.1.
Proof. unfold iteration. by rewrite length_integrate. Qed.

Lemma iteration_clamped ns es pv :
  Forall clamped (iteration W H ns es pv).1.
Proof.
  apply Forall_lookup_2. intros i p Hp.
  unfold iteration in Hp.
  assert (i < length pv.1)%nat as Hi.
  { apply lookup_lt_Some in Hp. by rewrite length_integrate in Hp. }
  eapply integrate_prefix_clamped; [| |exact Hp]; cbn; lia.
Qed.

Lemma length_simulate ns es :
  length (simulate W H ns es).1 = length ns.
Proof.
  unfold simulate. generalize 80%nat as k.
  induction k as [|k IH].
  - cbn. by rewrite length_fmap.
  - by rewrite Nat.iter_succ, length_iteration.
Qed.

Lemma simulate_clamped ns es :
  Forall clamped (simulate W H ns es).1.
Proof. unfold simulate. rewrite Nat.iter_succ. apply iteration_clamped. Qed.

End Bounds.

#[local] Arguments simulate : simpl never.
#[local] Arguments apply_positions : simpl never.

(** ** Generic facts on [forEach] *)

Lemma forEach_inv {St A} (P : St -> Prop) (f : A -> nat -> St -> result St) l i s s' :
  (forall a i s s', P s -> f a i s = Ok s' -> P s') ->
  P s -> forEach f l i s = Ok s' -> P s'.
Proof.
  intros Hf. revert i s. induction l as [|a l IH]; intros i s Hs He; cbn in He.
  - by injection He as <-.
  - destruct (f a i s) as [s1|] eqn:E1; [|done].
    eapply IH; [|exact He]. eauto.
Qed.

Lemma forEach_total {St A} (P : St -> Prop) (f : A -> nat -> St -> result St) l i s :
  (forall a i s, a ∈ l -> P s -> exists s', f a i s = Ok s' /\ P s') ->
  P s -> exists s', forEach f l i s = Ok s' /\ P s'.
Proof.
  revert i s. induction l as [|a l IH]; intros i s Hf Hs; cbn.
  - eauto.
  - destruct (Hf a i s) as (s1 & -> & Hs1); [left|done|].
    apply IH; [|done]. intros b k t Hb. apply Hf. by right.
Qed.

(** ** Cross-module edges (step 4) *)

(** The edges that [gEdges.forEach] appends, entry by entry. *)
Fixpoint cross_from (N : nat) (get : string -> option ref) (l : list EdgeEntry) (i : nat)
  : list GEdge :=
  match l with
  | [] => []
  | e :: l' =>
      match get (source e), get (target e) with
      | Some s, Some t =>
          [new_GEdge s t "imports" "#39d2c0" (INR N * 0.1 + INR i * 0.12)]
      | _, _ => []
      end ++ cross_from N get l' (S i)
  end.

Lemma forEach_addCross N l i st :
  forEach (addCross N) l i st =
  Ok {| nodes := nodes st;
        gedges := gedges st ++ cross_from N (nodeMap_get st) l i;
        nodeMap := nodeMap st |}.
Proof.
  revert i st. induction l as [|e l IH]; intros i st; cbn.
  - rewrite app_nil_r. by destruct st.
  - unfold addCross at 1.
    destruct (nodeMap_get st (source e)) as [s|] eqn:Es,
             (nodeMap_get st (target e)) as [t|] eqn:Et;
      rewrite IH; cbn [nodes gedges nodeMap]; rewrite ?Es, ?Et;
      try (by rewrite app_nil_l).
    rewrite <- app_assoc. do 2 f_equal.
Qed.

Lemma elem_of_cross_from N m l i e :
  e ∈ cross_from N m l i <->
  exists k ge s t, l !! k = Some ge /\ m (source ge) = Some s /\ m (target ge) = Some t /\
    e = new_GEdge s t "imports" "#39d2c0" (INR N * 0.1 + INR (i + k) * 0.12).
Proof.
  revert i. induction l as [|g l IH]; intros i; cbn [cross_from].
  - split; [by intros ?%elem_of_nil|]. by intros (k & ge & ? & ? & ? & _).
  - rewrite elem_of_app, IH. split.
    + intros [He|(k & ge & s & t & Hk & Hs & Ht & ->)].
      * exists 0%nat, g.
        destruct (m (source g)) as [s|], (m (target g)) as [t|];
          try by apply elem_of_nil in He.
        apply list_elem_of_singleton in He as ->.
        exists s, t. by rewrite Nat.add_0_r.
      * exists (S k), ge, s, t. repeat split; try done.
        by replace (i + S k)%nat with (S i + k)%nat by lia.
    + intros (k & ge & s & t & Hk & Hs & Ht & ->).
      destruct k as [|k]; cbn in Hk.
      * injection Hk as ->. left. rewrite Hs, Ht, Nat.add_0_r.
        by apply list_elem_of_singleton.
      * right. exists k, ge, s, t. repeat split; try done.
        by replace (i + S k)%nat with (S i + k)%nat by lia.
Qed.

(** ** Nodes and positions after the solver *)

Definition layout_nodes (r : result (list GNode * list GEdge)) : list GNode :=
  match r with
  | Ok (ns, _) => ns
  | TypeError => []
  end.

Definition layout_edges (r : result (list GNode * list GEdge)) : list GEdge :=
  match r with
  | Ok (_, es) => es
  | TypeError => []
  end.

(** Steps 1 and 2: module nodes, then child nodes with their edges. *)
Definition built (rnd : nat -> R) (W H : R) (mods : list ModEntry) : result build :=
  st ← forEach (addModule rnd W H (length mods)) mods 0%nat build0;
  forEach (addChildren rnd) mods 0%nat st.

Lemma forceLayout_built rnd g W H mods :
  modules g = Some mods ->
  forceLayout rnd (Some g) W H =
  st ← built rnd W H mods;
  let st' := apply_positions (simulate W H (nodes st) (gedges st)).1 st in
  Ok (nodes st',
      gedges st' ++ cross_from (length mods) (nodeMap_get st') (default [] (edges g)) 0).
Proof.
  intros Hm. unfold forceLayout, built. cbn. rewrite Hm.
  destruct (forEach (addModule _ _ _ _) _ _ _) as [st1|]; [|done]. cbn.
  destruct (forEach (addChildren _) _ _ _) as [st2|]; [|done]. cbn.
  by rewrite forEach_addCross.
Qed.

Lemma forceLayout_absent rnd graph W H :
  graph ≫= modules = None -> forceLayout rnd graph W H = Ok ([], []).
Proof. intros Hm. unfold forceLayout. by rewrite Hm. Qed.

(** Every target position that [forceLayout] returns went through the
    clamp. *)
Lemma layout_nodes_clamped rnd graph W H (PX PY : R -> Prop) :
  (forall c, PX (clamp 40 W c)) -> (forall c, PY (clamp 40 H c)) ->
  Forall (fun n => PX (n_tx n) /\ PY (n_ty n))
         (layout_nodes (forceLayout rnd graph W H)).
Proof.
  intros HX HY.
  destruct (graph ≫= modules) as [mods|] eqn:Hm;
    [|rewrite forceLayout_absent by done; constructor].
  destruct graph as [g|]; [cbn in Hm|done].
  rewrite (forceLayout_built _ _ _ _ mods) by done.
  destruct (built rnd W H mods) as [st|]; cbn; [|constructor].
  apply Forall_lookup_2. intros i n Hn.
  unfold apply_positions in Hn. cbn [nodes] in Hn.
  rewrite list_lookup_imap in Hn.
  destruct (nodes st !! i) as [n0|] eqn:Hi; [|done].
  cbn [fmap option_fmap option_map] in Hn.
  apply (inj Some) in Hn. subst n.
  unfold set_target. cbn [n_tx n_ty].
  apply lookup_lt_Some in Hi.
  rewrite <- (length_simulate W H (nodes st) (gedges st)) in Hi.
  apply lookup_lt_is_Some_2 in Hi as [p Hp].
  rewrite (list_lookup_total_correct _ _ _ Hp).
  exact (Forall_lookup_1 _ _ _ _ (simulate_clamped W H PX PY HX HY _ _) Hp).
Qed.

(** On a canvas narrower and lower than 80 every node ends on the point
    [(40, 40)]. *)
Lemma layout_nodes_narrow rnd graph W H :
  W < 80 -> H < 80 ->
  Forall (fun n => n_tx n = 40 /\ n_ty n = 40)
         (layout_nodes (forceLayout rnd graph W H)).
Proof.
  intros HW HH.
  apply (layout_nodes_clamped rnd graph W H (fun c => c = 40) (fun c => c = 40));
    intros c; by apply clamp_narrow.
Qed.

(** ** What the builder appends *)

(** Nodes and edges are only ever pushed. *)
Definition extends (st st' : build) : Prop :=
  (exists cn, nodes st' = nodes st ++ cn) /\ (exists ce, gedges st' = gedges st ++ ce).

Lemma extends_refl st : extends st st.
Proof. split; exists []; by rewrite app_nil_r. Qed.

Lemma extends_trans st1 st2 st3 : extends st1 st2 -> extends st2 st3 -> extends st1 st3.
Proof.
  intros [[a Ha] [b Hb]] [[c Hc] [d Hd]]. split.
  - exists (a ++ c). by rewrite Hc, Ha, app_assoc.
  - exists (b ++ d). by rewrite Hd, Hb, app_assoc.
Qed.

Lemma extends_node st st' i n : extends st st' -> nodes st !! i = Some n -> nodes st' !! i = Some n.
Proof. intros [[cn ->] _] Hn. by apply lookup_app_l_Some. Qed.

(** A reference that a list of nodes resolves is the index of a node. *)
Lemma ref_lookup_Node {A} (l : list A) (i : nat) : l !! Node i = l !! i.
Proof. reflexivity. Qed.

Lemma ref_lookup_Some {A} (l : list A) (r : ref) x :
  l !! r = Some x -> exists i : nat, r = Node i /\ l !! i = Some x.
Proof. destruct r as [i|key]; [|done]. intros Hl. by exists i. Qed.

Lemma ref_lookup_app_l {A} (l k : list A) (r : ref) x :
  l !! r = Some x -> (l ++ k) !! r = Some x.
Proof.
  intros (i & -> & Hl)%ref_lookup_Some. rewrite ref_lookup_Node.
  by apply lookup_app_l_Some.
Qed.

Lemma extends_ref st st' (r : ref) n :
  extends st st' -> nodes st !! r = Some n -> nodes st' !! r = Some n.
Proof. destruct r as [i|key]; [apply extends_node|done]. Qed.

Lemma extends_edge st st' e : extends st st' -> e ∈ gedges st -> e ∈ gedges st'.
Proof. intros [_ [ce ->]] He. apply elem_of_app. by left. Qed.

Lemma extends_length st st' : extends st st' -> (length (nodes st) <= length (nodes st'))%nat.
Proof. intros [[cn ->] _]. rewrite length_app. lia. Qed.

(** Every key of [nodeMap] is the id of the node it maps to, and every
    node is registered under its id. *)
Definition keys_ok (st : build) : Prop :=
  forall key idx, nodeMap st !! key = Some idx ->
    exists n, nodes st !! idx = Some n /\ n_id n = key.

Definition ids_known (st : build) : Prop :=
  forall n, n ∈ nodes st -> is_Some (nodeMap st !! n_id n).

Definition map_ok (st : build) : Prop := keys_ok st /\ ids_known st.

Lemma map_ok_build0 : map_ok build0.
Proof.
  split.
  - intros key idx Hk. cbn in Hk. by rewrite lookup_empty in Hk.
  - intros n Hn. by apply elem_of_nil in Hn.
Qed.

(** Pushing a node and registering it under its own id keeps [map_ok]. *)
Lemma map_ok_push st n es :
  map_ok st ->
  map_ok {| nodes := nodes st ++ [n]; gedges := es;
            nodeMap := <[n_id n := length (nodes st)]> (nodeMap st) |}.
Proof.
  intros [HK HI]. split.
  - intros key idx Hk. cbn in *.
    destruct (decide (n_id n = key)) as [<-|Hne].
    + rewrite lookup_insert_eq in Hk. injection Hk as <-.
      exists n. split; [|done].
      by rewrite lookup_app_r, Nat.sub_diag by lia.
    + rewrite lookup_insert_ne in Hk by done.
      destruct (HK key idx Hk) as (n' & Hn' & Hid).
      exists n'. split; [|done]. by apply lookup_app_l_Some.
  - intros n' Hn'. cbn in *.
    destruct (decide (n_id n = n_id n')) as [->|Hne].
    + rewrite lookup_insert_eq. eauto.
    + rewrite lookup_insert_ne by done. apply HI.
      apply elem_of_app in Hn' as [?|Hn']; [done|].
      apply list_elem_of_singleton in Hn'. by subst.
Qed.

Section Steps.

Variable rnd : nat -> R.
Variables W H : R.

Lemma addModule_Ok N md i st m :
  module md = Some m ->
  exists n, addModule rnd W H N md i st =
            Ok {| nodes := nodes st ++ [n]; gedges := gedges st;
                  nodeMap := <[n_id n := length (nodes st)]> (nodeMap st) |}
            /\ n_id n = m /\ n_type n = TModule /\ n_delay n = INR i * 0.1.
Proof.
  intros Hm. unfold addModule. rewrite Hm.
  eexists (new_GNode _ m _ TModule _ _ _ _). split; [reflexivity|done].
Qed.

(** Step 1 on named modules: the [k]-th entry becomes the [k]-th new node. *)
Lemma forEach_addModule N l i st :
  Forall (fun md => is_Some (module md)) l -> map_ok st ->
  exists st', forEach (addModule rnd W H N) l i st = Ok st' /\ map_ok st' /\
    gedges st' = gedges st /\
    (exists cn, nodes st' = nodes st ++ cn /\ length cn = length l /\
      forall k md, l !! k = Some md ->
        exists n, cn !! k = Some n /\ module md = Some (n_id n) /\
                  n_type n = TModule /\ n_delay n = INR (i + k) * 0.1).
Proof.
  revert i st. induction l as [|md l IH]; intros i st Hl Hst; cbn.
  - exists st. split_and!; try done. exists []. by rewrite app_nil_r.
  - apply Forall_cons in Hl as [[m Hm] Hl].
    destruct (addModule_Ok N md i st m Hm) as (n & -> & Hid & Hty & Hd).
    destruct (IH (S i) _ Hl (map_ok_push st n (gedges st) Hst))
      as (st' & -> & Hok & He & cn & Hn & Hlen & Hcn).
    exists st'. split_and!; try done.
    exists (n :: cn). cbn in *. rewrite Hn, <- app_assoc. split_and!; [done|by rewrite Hlen|].
    intros [|k] md' Hk; cbn in Hk.
    + injection Hk as <-. exists n. by rewrite Nat.add_0_r, Hid.
    + destruct (Hcn k md' Hk) as (n' & ? & ? & ? & Hd').
      exists n'. split_and!; try done.
      by replace (i + S k)%nat with (S i + k)%nat by lia.
Qed.

Lemma forEach_addModule_unnamed N l i st :
  Exists (fun md => module md = None) l ->
  forEach (addModule rnd W H N) l i st = TypeError.
Proof.
  revert i st. induction l as [|md l IH]; intros i st Hl; [by apply Exists_nil in Hl|].
  cbn. unfold addModule at 1. destruct (module md) as [m|] eqn:Hm; [|done].
  apply Exists_cons in Hl as [Hl|Hl]; [congruence|]. by apply IH.
Qed.

(** The child of module [m] (index [i]) at position [j] of its children
    list: a node together with the edge that points to it. *)
Definition child_built (st : build) (m : string) (i j : nat) (ch : string * ntype) : Prop :=
  exists (t : nat) n e p,
    nodes st !! t = Some n /\ e ∈ gedges st /\ e_tgt e = t /\
    nodes st !! e_src e = Some p /\ n_id p = m /\ e_label e = EmptyString /\
    n_id n = m +:+ "::" +:+ ch.1 /\ n_type n = ch.2 /\
    n_delay n = INR i * 0.1 + (INR j + 1) * 0.06 /\
    e_delay e = INR i * 0.1 + (INR j + 1) * 0.08.

Lemma child_built_extends st st' m i j ch :
  extends st st' -> child_built st m i j ch -> child_built st' m i j ch.
Proof.
  intros Hext (t & n & e & p & Hn & He & Ht & Hp & Hrest).
  exists t, n, e, p.
  split; [by eapply extends_node|].
  split; [by eapply extends_edge|].
  split; [done|].
  split; [by eapply extends_ref|done].
Qed.

Definition keys_mono (st st' : build) : Prop :=
  forall key, is_Some (nodeMap st !! key) -> is_Some (nodeMap st' !! key).

Lemma addChild_Ok m i nch parent ptx pty ch j st :
  exists n, addChild rnd m i nch parent ptx pty ch j st =
            Ok {| nodes := nodes st ++ [n];
                  gedges := gedges st ++
                    [new_GEdge parent (length (nodes st)) EmptyString "#30363d55"
                       (INR i * 0.1 + (INR j + 1) * 0.08)];
                  nodeMap := <[n_id n := length (nodes st)]> (nodeMap st) |}
            /\ n_id n = m +:+ "::" +:+ ch.1 /\ n_type n = ch.2 /\
            n_delay n = INR i * 0.1 + (INR j + 1) * 0.06.
Proof.
  unfold addChild.
  eexists (new_GNode _ (m +:+ "::" +:+ ch.1) _ _ _ _ _ _). split; [reflexivity|done].
Qed.

Lemma forEach_addChild m i nch parent ptx pty chs j st p :
  map_ok st -> nodes st !! parent = Some p -> n_id p = m ->
  exists st', forEach (addChild rnd m i nch parent ptx pty) chs j st = Ok st' /\
    map_ok st' /\ extends st st' /\ keys_mono st st' /\
    forall k ch, chs !! k = Some ch -> child_built st' m i (j + k) ch.
Proof.
  revert j st. induction chs as [|c chs IH]; intros j st Hst Hp Hid; cbn [forEach].
  - exists st. split_and!; try done; [apply extends_refl|by intros ?].
  - destruct (addChild_Ok m i nch parent ptx pty c j st) as (cn & -> & Hcid & Hcty & Hcd).
    set (ce := new_GEdge _ _ _ _ _).
    set (st1 := Build_build _ _ _).
    assert (map_ok st1) as Hst1 by apply (map_ok_push st cn _ Hst).
    assert (extends st st1) as Hext1.
    { split; [by exists [cn]|by exists [ce]]. }
    destruct (IH (S j) st1 Hst1) as (st' & -> & Hok & Hext & Hmono & Hch);
      [by eapply extends_node|done|].
    exists st'. split_and!; try done.
    + by eapply extends_trans.
    + intros key Hk. apply Hmono. cbn.
      destruct (decide (n_id cn = key)) as [<-|Hne].
      * rewrite lookup_insert_eq. eauto.
      * by rewrite lookup_insert_ne.
    + intros [|k] ch Hk; cbn in Hk.
      * injection Hk as <-. apply (child_built_extends st1); [done|].
        exists (length (nodes st)), cn, ce, p. rewrite Nat.add_0_r. cbn.
        split_and!; try done.
        -- by rewrite lookup_app_r, Nat.sub_diag by lia.
        -- apply elem_of_app. right. by apply list_elem_of_singleton.
        -- by apply lookup_app_l_Some.
      * replace (j + S k)%nat with (S j + k)%nat by lia. by apply Hch.
Qed.

(** Step 2 never throws once every module is registered in [nodeMap]. *)
Lemma forEach_addChildren l i st :
  map_ok st ->
  Forall (fun md => exists m, module md = Some m /\ is_Some (nodeMap st !! m)) l ->
  exists st', forEach (addChildren rnd) l i st = Ok st' /\
    map_ok st' /\ extends st st' /\ keys_mono st st' /\
    forall k md m j ch, l !! k = Some md -> module md = Some m ->
      children md !! j = Some ch -> child_built st' m (i + k) j ch.
Proof.
  revert i st. induction l as [|md l IH]; intros i st Hst Hl; cbn [forEach].
  - exists st. split_and!; try done; [apply extends_refl|by intros ?].
  - apply Forall_cons in Hl as [(m & Hm & [parent Hpar]) Hl].
    unfold addChildren at 1. rewrite Hm, Hpar.
    destruct (proj1 Hst m parent Hpar) as (p & Hp & Hid). rewrite Hp.
    destruct (forEach_addChild m i (length (children md)) parent (n_tx p) (n_ty p)
                (children md) 0 st p Hst Hp Hid)
      as (st1 & -> & Hst1 & Hext1 & Hmono1 & Hch1).
    destruct (IH (S i) st1 Hst1) as (st' & -> & Hok & Hext & Hmono & Hch).
    { eapply Forall_impl; [exact Hl|]. intros md' (m' & ? & ?). eauto. }
    exists st'. split_and!; try done.
    + by eapply extends_trans.
    + intros key Hk. by apply Hmono, Hmono1.
    + intros [|k] md' m' j ch Hk Hm' Hj; cbn in Hk.
      * injection Hk as <-. assert (m' = m) as -> by congruence.
        rewrite Nat.add_0_r. apply (child_built_extends st1); [done|].
        by apply (Hch1 j ch).
      * replace (i + S k)%nat with (S i + k)%nat by lia. by eapply Hch.
Qed.

End Steps.

(** ** The built graph *)

Definition named (md : ModEntry) : Prop := is_Some (module md).

Definition pc_labels (st : build) : Prop :=
  Forall (fun e => e_label e = EmptyString) (gedges st).

Lemma pc_labels_built rnd W H mods st :
  built rnd W H mods = Ok st -> pc_labels st.
Proof.
  unfold built. intros Hb.
  destruct (forEach (addModule _ _ _ _) _ _ _) as [st1|] eqn:E1; [|done].
  cbn in Hb.
  assert (pc_labels st1) as H1.
  { revert E1. apply (forEach_inv pc_labels); [|apply Forall_nil_2].
    intros md i s s' Hs He. unfold addModule in He.
    destruct (module md); [|done]. by injection He as <-. }
  revert Hb. apply (forEach_inv pc_labels); [|exact H1].
  intros md i s s' Hs He. unfold addChildren in He.
  destruct (module md) as [m|]; [|done].
  destruct (nodeMap s !! m) as [parent|]; [|done].
  destruct (nodes s !! parent) as [p|]; [|done].
  revert He. apply (forEach_inv pc_labels); [|exact Hs].
  intros ch j t t' Ht Hc. unfold addChild in Hc. injection Hc as <-.
  apply Forall_app. split; [done|]. by repeat constructor.
Qed.

Lemma forEach_addModule_named rnd W H N l i st st' :
  forEach (addModule rnd W H N) l i st = Ok st' -> Forall named l.
Proof.
  revert i st. induction l as [|md l IH]; intros i st He; [by constructor|].
  cbn [forEach] in He.
  destruct (addModule rnd W H N md i st) as [st1|] eqn:E1; [|done].
  constructor; [|by eapply IH].
  unfold addModule in E1. unfold named. destruct (module md); [eauto|done].
Qed.

Lemma built_named rnd W H mods st :
  built rnd W H mods = Ok st -> Forall named mods.
Proof.
  unfold built. intros Hb.
  destruct (forEach (addModule _ _ _ _) _ _ _) as [st1|] eqn:E1; [|done].
  by eapply forEach_addModule_named.
Qed.

Lemma built_Ok rnd W H mods :
  Forall named mods ->
  exists st, built rnd W H mods = Ok st /\ map_ok st /\
    (length mods <= length (nodes st))%nat /\
    (forall i md, mods !! i = Some md ->
       exists n, nodes st !! i = Some n /\ module md = Some (n_id n) /\
                 n_type n = TModule /\ n_delay n = INR i * 0.1) /\
    (forall i md m j ch, mods !! i = Some md -> module md = Some m ->
       children md !! j = Some ch -> child_built st m i j ch).
Proof.
  intros Hn. unfold built.
  destruct (forEach_addModule rnd W H (length mods) mods 0 build0 Hn map_ok_build0)
    as (st1 & -> & Hok1 & He1 & cn & Hcn & Hlen & Hmods).
  cbn in Hcn. cbn [mbind result_bind].
  destruct (forEach_addChildren rnd mods 0 st1 Hok1) as (st & -> & Hok & Hext & _ & Hch).
  { apply Forall_lookup_2. intros i md Hi.
    destruct (Hmods i md Hi) as (n & Hni & Hm & _).
    exists (n_id n). split; [done|]. apply (proj2 Hok1).
    rewrite Hcn. by eapply list_elem_of_lookup_2. }
  exists st. split_and!; try done.
  - apply extends_length in Hext. rewrite Hcn, Hlen in Hext. lia.
  - intros i md Hi. destruct (Hmods i md Hi) as (n & Hni & Hrest).
    exists n. split; [|done]. apply (extends_node st1); [done|]. by rewrite Hcn.
Qed.

(** The state that step 4 starts from: the built graph with the solved
    positions written into the nodes. *)
Definition solved (W H : R) (st : build) : build :=
  apply_positions (simulate W H (nodes st) (gedges st)).1 st.

Lemma solved_lookup W H st i :
  nodes (solved W H st) !! i
  = set_target ((simulate W H (nodes st) (gedges st)).1 !!! i) <$> nodes st !! i.
Proof. unfold solved, apply_positions. cbn [nodes]. by rewrite list_lookup_imap. Qed.

Lemma solved_ref W H st (r : ref) n :
  nodes st !! r = Some n -> exists q, nodes (solved W H st) !! r = Some (set_target q n).
Proof.
  destruct r as [i|key]; [|done]. intros Hn.
  exists ((simulate W H (nodes st) (gedges st)).1 !!! i).
  change (list_lookup i (nodes st) = Some n) in Hn.
  change (list_lookup i (nodes (solved W H st))
          = Some (set_target ((simulate W H (nodes st) (gedges st)).1 !!! i) n)).
  pose proof (solved_lookup W H st i) as Hl. unfold lookup in Hl.
  rewrite Hl, Hn. reflexivity.
Qed.

Lemma solved_ids W H st : n_id <$> nodes (solved W H st) = n_id <$> nodes st.
Proof.
  apply list_eq. intros i. rewrite !list_lookup_fmap, solved_lookup.
  by destruct (nodes st !! i).
Qed.

Lemma map_ok_solved W H st : map_ok st -> map_ok (solved W H st).
Proof.
  intros [HK HI]. split.
  - intros key idx Hk. destruct (HK key idx Hk) as (n & Hn & Hid).
    exists (set_target ((simulate W H (nodes st) (gedges st)).1 !!! idx) n).
    rewrite solved_lookup, Hn. done.
  - intros n Hn. apply list_elem_of_lookup_1 in Hn as [i Hi].
    rewrite solved_lookup in Hi. destruct (nodes st !! i) as [n0|] eqn:E; [|done].
    apply (inj Some) in Hi. subst n. apply (HI n0). by eapply list_elem_of_lookup_2.
Qed.

(** A key is in [nodeMap] exactly when it is the id of a node. *)
Lemma map_ok_known st key :
  map_ok st -> is_Some (nodeMap st !! key) <-> key ∈ n_id <$> nodes st.
Proof.
  intros [HK HI]. split.
  - intros [idx Hk]. destruct (HK key idx Hk) as (n & Hn & <-).
    apply list_elem_of_fmap_2. by eapply list_elem_of_lookup_2.
  - intros (n & -> & Hn)%list_elem_of_fmap. by apply HI.
Qed.

Lemma forceLayout_solved rnd g W H mods st :
  modules g = Some mods -> built rnd W H mods = Ok st ->
  forceLayout rnd (Some g) W H =
  Ok (nodes (solved W H st),
      gedges st ++
      cross_from (length mods) (nodeMap_get (solved W H st)) (default [] (edges g)) 0).
Proof. intros Hm Hb. by rewrite (forceLayout_built _ _ _ _ mods), Hb. Qed.

Lemma Ok_pair_inj {A B} (a a' : A) (b b' : B) :
  @Ok (A * B) (a, b) = Ok (a', b') -> a = a' /\ b = b'.
Proof. intros E. by injection E. Qed.

Lemma forceLayout_inv rnd g W H mods ns es :
  modules g = Some mods -> forceLayout rnd (Some g) W H = Ok (ns, es) ->
  exists st, built rnd W H mods = Ok st /\ ns = nodes (solved W H st) /\
    es = gedges st ++
         cross_from (length mods) (nodeMap_get (solved W H st)) (default [] (edges g)) 0.
Proof.
  intros Hm Hf. rewrite (forceLayout_built _ _ _ _ mods) in Hf by done.
  destruct (built rnd W H mods) as [st|]; [|done].
  cbn [mbind result_bind] in Hf. apply Ok_pair_inj in Hf as [<- <-]. by exists st.
Qed.

(** [forceLayout] throws exactly when a module entry has no [module] key. *)
Lemma forceLayout_total rnd g W H mods :
  modules g = Some mods -> Forall named mods ->
  exists ns es, forceLayout rnd (Some g) W H = Ok (ns, es).
Proof.
  intros Hm Hn. destruct (built_Ok rnd W H mods Hn) as (st & Hb & _).
  rewrite (forceLayout_solved _ _ _ _ mods st) by done. eauto.
Qed.

Lemma forceLayout_module rnd g W H mods ns es i md :
  modules g = Some mods -> forceLayout rnd (Some g) W H = Ok (ns, es) ->
  mods !! i = Some md ->
  exists n, ns !! i = Some n /\ module md = Some (n_id n) /\
            n_type n = TModule /\ n_delay n = INR i * 0.1.
Proof.
  intros Hm Hf Hi. destruct (forceLayout_inv _ _ _ _ _ _ _ Hm Hf) as (st & Hb & -> & _).
  destruct (built_Ok rnd W H mods (built_named _ _ _ _ _ Hb)) as (st' & Hb' & _ & _ & Hmod & _).
  assert (st' = st) as -> by congruence.
  destruct (Hmod i md Hi) as (n & Hn & Hrest).
  eexists. rewrite solved_lookup, Hn. split; [reflexivity|exact Hrest].
Qed.

Lemma forceLayout_child rnd g W H mods ns es i md m j ch :
  modules g = Some mods -> forceLayout rnd (Some g) W H = Ok (ns, es) ->
  mods !! i = Some md -> module md = Some m -> children md !! j = Some ch ->
  exists n e p,
    ns !! e_tgt e = Some n /\ e ∈ es /\ ns !! e_src e = Some p /\ n_id p = m /\
    e_label e = EmptyString /\ n_id n = m +:+ "::" +:+ ch.1 /\ n_type n = ch.2 /\
    n_delay n = INR i * 0.1 + (INR j + 1) * 0.06 /\
    e_delay e = INR i * 0.1 + (INR j + 1) * 0.08.
Proof.
  intros Hm Hf Hi Hmd Hj.
  destruct (forceLayout_inv _ _ _ _ _ _ _ Hm Hf) as (st & Hb & -> & ->).
  destruct (built_Ok rnd W H mods (built_named _ _ _ _ _ Hb)) as (st' & Hb' & _ & _ & _ & Hch).
  assert (st' = st) as -> by congruence.
  destruct (Hch i md m j ch Hi Hmd Hj)
    as (t & n & e & p & Hn & He & Ht & Hp & Hpid & Hlab & Hid & Hty & Hdn & Hde).
  destruct (solved_ref W H st (e_tgt e) n) as [q1 Hq1]; [rewrite Ht; exact Hn|].
  destruct (solved_ref W H st (e_src e) p Hp) as [q2 Hq2].
  exists (set_target q1 n), e, (set_target q2 p). rewrite Hq1, Hq2.
  split; [reflexivity|]. split; [apply elem_of_app; by left|].
  split; [reflexivity|]. done.
Qed.

(** Every name under which [nodeMap] can inherit a value. *)
Definition GNode_fields : list string :=
  ["id"; "label"; "type"; "color"; "tx"; "ty"; "x"; "y"; "r"; "cr"; "delay"; "t";
   "dur"; "visible"; "hover"; "scale"; "opacity"; "pulse"].

Definition inherited_names : list string :=
  GNode_fields ++ GNode_prototype ++ Object_prototype.

Lemma GNode_own_fields n key b : GNode_own n key = Some b -> key ∈ GNode_fields.
Proof.
  unfold GNode_own, GNode_fields.
  repeat (destruct (String.eqb key _) eqn:E;
          [apply String.eqb_eq in E; subst key; intros _;
           apply (proj1 (bool_decide_spec _)); reflexivity|clear E]).
  done.
Qed.

Lemma inherits_names st key : inherits st key = true -> key ∈ inherited_names.
Proof.
  unfold inherits, inherited_names. rewrite !elem_of_app.
  destruct (_ ≫= _) as [n|].
  - destruct (GNode_own n key) as [b|] eqn:E.
    + intros _. left. by eapply GNode_own_fields.
    + intros [Hk|Hk]%orb_prop; apply bool_decide_eq_true in Hk; auto.
  - intros Hk. apply bool_decide_eq_true in Hk. auto.
Qed.

(** Without a module named [__proto__] the inherited names are those of
    [Object.prototype]. *)
Lemma inherits_plain st key :
  nodeMap st !! "__proto__" = None ->
  inherits st key = bool_decide (key ∈ Object_prototype).
Proof. intros Hp. unfold inherits. by rewrite Hp. Qed.

(** What [nodeMap[key]] is in a state where the map is in order: the node
    of that id, or an inherited value when no node has the id. *)
Lemma nodeMap_get_spec st key r :
  map_ok st -> nodeMap_get st key = Some r ->
  (exists n, nodes st !! r = Some n /\ n_id n = key) \/
  (r = Inherited key /\ (key ∉ n_id <$> nodes st) /\ key ∈ inherited_names).
Proof.
  intros Hok. unfold nodeMap_get.
  destruct (nodeMap st !! key) as [i|] eqn:E.
  - intros Hr. apply (inj Some) in Hr as <-. left. exact (proj1 Hok key i E).
  - destruct (inherits st key) eqn:Ei; [|done].
    intros Hr. apply (inj Some) in Hr as <-. right. split; [done|]. split.
    + intros Hin. apply (map_ok_known st key Hok) in Hin as [i Hi]. congruence.
    + by apply (inherits_names st).
Qed.

Lemma nodeMap_get_known st key :
  map_ok st -> key ∈ n_id <$> nodes st ->
  exists (i : nat) n, nodeMap_get st key = Some (Node i) /\
    nodes st !! i = Some n /\ n_id n = key.
Proof.
  intros Hok Hin. apply (map_ok_known st key Hok) in Hin as [i Hi].
  destruct (proj1 Hok key i Hi) as (n & Hn & Hid).
  exists i, n. unfold nodeMap_get. by rewrite Hi.
Qed.

(** The cross-module edges of a result are the edges labelled [imports]:
    each comes from an entry of [graph.edges] and is delayed by the index of
    that entry; each of its ends is the node whose id the entry names, or,
    when no node has that id, the value that [nodeMap] inherits under that
    name. *)
Lemma forceLayout_cross_inv rnd g W H mods ns es e :
  modules g = Some mods -> forceLayout rnd (Some g) W H = Ok (ns, es) ->
  e ∈ es -> e_label e = "imports" ->
  exists i ge, default [] (edges g) !! i = Some ge /\
    ((exists s, ns !! e_src e = Some s /\ n_id s = source ge) \/
     (e_src e = Inherited (source ge) /\ (source ge ∉ n_id <$> ns) /\
      source ge ∈ inherited_names)) /\
    ((exists t, ns !! e_tgt e = Some t /\ n_id t = target ge) \/
     (e_tgt e = Inherited (target ge) /\ (target ge ∉ n_id <$> ns) /\
      target ge ∈ inherited_names)) /\
    e_delay e = INR (length mods) * 0.1 + INR i * 0.12.
Proof.
  intros Hm Hf He Hlab.
  destruct (forceLayout_inv _ _ _ _ _ _ _ Hm Hf) as (st & Hb & -> & ->).
  destruct (built_Ok rnd W H mods (built_named _ _ _ _ _ Hb)) as (st' & Hb' & Hok & _).
  assert (st' = st) as -> by congruence.
  pose proof (pc_labels_built _ _ _ _ _ Hb) as Hpc.
  pose proof (map_ok_solved W H st Hok) as HK.
  apply elem_of_app in He as [He|He].
  { unfold pc_labels in Hpc. rewrite Forall_forall in Hpc.
    by rewrite (Hpc e He) in Hlab. }
  apply elem_of_cross_from in He as (k & ge & si & ti & Hk & Hs & Ht & ->).
  exists k, ge. cbn [e_src e_tgt e_delay new_GEdge]. rewrite Nat.add_0_l.
  split; [done|]. split; [exact (nodeMap_get_spec _ _ _ HK Hs)|].
  split; [exact (nodeMap_get_spec _ _ _ HK Ht)|done].
Qed.

Lemma forceLayout_cross_intro rnd g W H mods ns es i ge :
  modules g = Some mods -> forceLayout rnd (Some g) W H = Ok (ns, es) ->
  default [] (edges g) !! i = Some ge ->
  source ge ∈ n_id <$> ns -> target ge ∈ n_id <$> ns ->
  exists e s t, e ∈ es /\ e_label e = "imports" /\
    ns !! e_src e = Some s /\ n_id s = source ge /\
    ns !! e_tgt e = Some t /\ n_id t = target ge /\
    e_delay e = INR (length mods) * 0.1 + INR i * 0.12.
Proof.
  intros Hm Hf Hi Hs Ht.
  destruct (forceLayout_inv _ _ _ _ _ _ _ Hm Hf) as (st & Hb & -> & ->).
  destruct (built_Ok rnd W H mods (built_named _ _ _ _ _ Hb)) as (st' & Hb' & Hok & _).
  assert (st' = st) as -> by congruence.
  pose proof (map_ok_solved W H st Hok) as HK.
  destruct (nodeMap_get_known _ _ HK Hs) as (si & s & Hsi & Hs' & Hsid).
  destruct (nodeMap_get_known _ _ HK Ht) as (ti & t & Hti & Ht' & Htid).
  exists (new_GEdge si ti "imports" "#39d2c0" (INR (length mods) * 0.1 + INR i * 0.12)), s, t.
  cbn [e_src e_tgt e_delay e_label new_GEdge]. split_and!; try done.
  apply elem_of_app. right. apply elem_of_cross_from.
  exists i, ge, (Node si), (Node ti). by rewrite Nat.add_0_l.
Qed.

(** ** C8: start delays *)

(** C8, as the code has it.  In a result of [forceLayout]: the node of
    module [i] has delay [i * 0.1]; the [j]-th child of module [i] has delay
    [i * 0.1 + (j + 1) * 0.06]; the parent-child edge that points to this
    child has delay [i * 0.1 + (j + 1) * 0.08]; and a cross-module edge has
    delay [moduleCount * 0.1 + i * 0.12] where [i] is the index of its entry
    in [graph.edges]. *)
Theorem startDelay_schedule rnd g W H mods ns es :
  modules g = Some mods -> forceLayout rnd (Some g) W H = Ok (ns, es) ->
  (forall i md, mods !! i = Some md ->
     exists n, ns !! i = Some n /\ module md = Some (n_id n) /\
               n_delay n = INR i * 0.1) /\
  (forall i md m j ch, mods !! i = Some md -> module md = Some m ->
     children md !! j = Some ch ->
     exists n e, ns !! e_tgt e = Some n /\ e ∈ es /\ e_label e = EmptyString /\
       n_id n = m +:+ "::" +:+ ch.1 /\
       n_delay n = INR i * 0.1 + (INR j + 1) * 0.06 /\
       e_delay e = INR i * 0.1 + (INR j + 1) * 0.08) /\
  (forall i ge, default [] (edges g) !! i = Some ge ->
     source ge ∈ n_id <$> ns -> target ge ∈ n_id <$> ns ->
     exists e s t, e ∈ es /\ e_label e = "imports" /\
       ns !! e_src e = Some s /\ n_id s = source ge /\
       ns !! e_tgt e = Some t /\ n_id t = target ge /\
       e_delay e = INR (length mods) * 0.1 + INR i * 0.12) /\
  (forall e, e ∈ es -> e_label e = "imports" ->
     exists i, is_Some (default [] (edges g) !! i) /\
       e_delay e = INR (length mods) * 0.1 + INR i * 0.12).
Proof.
  intros Hm Hf. split_and!.
  - intros i md Hi.
    destruct (forceLayout_module _ _ _ _ _ _ _ _ _ Hm Hf Hi) as (n & ? & ? & ? & ?).
    by exists n.
  - intros i md m j ch Hi Hmd Hj.
    destruct (forceLayout_child _ _ _ _ _ _ _ _ _ _ _ _ Hm Hf Hi Hmd Hj)
      as (n & e & p & ? & ? & ? & ? & ? & ? & ? & ? & ?).
    by exists n, e.
  - intros i ge. by apply (forceLayout_cross_intro rnd g W H).
  - intros e He Hlab.
    destruct (forceLayout_cross_inv _ _ _ _ _ _ _ _ Hm Hf He Hlab)
      as (i & ge & Hi & _ & _ & Hd).
    exists i. eauto.
Qed.

(** ** Concrete graphs *)

Definition entry (m p : option string) (fs cs : list string) : ModEntry :=
  {| module := m; path := p;
     functions := Some (Build_Named <$> fs); classes := Some (Build_Named <$> cs) |}.

(** The two-module scenario, with the entries keyed by [module]. *)
Definition scenario : Graph :=
  {| modules := Some [entry (Some "a.py") None ["f"] []; entry (Some "b.py") None [] ["C"]];
     edges := Some [{| source := "a.py"; target := "b.py" |}] |}.

(** The same scenario with the entries keyed by [path], as the interface
    description writes them. *)
Definition scenario_path : Graph :=
  {| modules := Some [entry None (Some "a.py") ["f"] []; entry None (Some "b.py") [] ["C"]];
     edges := Some [{| source := "a.py"; target := "b.py" |}] |}.

(** Ids of the nodes, and endpoints and label of the edges, of a result. *)
Definition shape (r : result (list GNode * list GEdge))
  : option (list string * list (ref * ref * string)) :=
  match r with
  | Ok (ns, es) => Some (n_id <$> ns, (fun e => (e_src e, e_tgt e, e_label e)) <$> es)
  | TypeError => None
  end.

Lemma scenario_shape rnd W H :
  shape (forceLayout rnd (Some scenario) W H) =
  Some (["a.py"; "b.py"; "a.py::f"; "b.py::C"],
        [(Node 0, Node 2, EmptyString); (Node 1, Node 3, EmptyString);
         (Node 0, Node 1, "imports")]).
Proof. reflexivity. Qed.

(** ** C5: bounds *)

(** C5.  Whatever the graph, on a canvas with [W >= 80] and [H >= 80] every
    node that [forceLayout] returns has its target position [(tx, ty)],
    reached after the 80 iterations, inside [[40, W - 40]] on the x axis and
    [[40, H - 40]] on the y axis. *)
Theorem forceLayout_in_bounds rnd graph W H :
  80 <= W -> 80 <= H ->
  Forall (fun n => 40 <= n_tx n <= W - 40 /\ 40 <= n_ty n <= H - 40)
         (layout_nodes (forceLayout rnd graph W H)).
Proof.
  intros HW HH.
  apply (layout_nodes_clamped rnd graph W H
           (fun c => 40 <= c <= W - 40) (fun c => 40 <= c <= H - 40)).
  - intros c. by apply clamp_bounds.
  - intros c. by apply clamp_bounds.
Qed.

Lemma forceLayout_in_bounds_witness :
  Forall (fun n => 40 <= n_tx n <= 800 - 40 /\ 40 <= n_ty n <= 600 - 40)
         (layout_nodes (forceLayout (fun _ => 0) (Some scenario) 800 600))
  /\ length (layout_nodes (forceLayout (fun _ => 0) (Some scenario) 800 600)) = 4%nat.
Proof.
  split.
  - apply (forceLayout_in_bounds (fun _ => 0) (Some scenario) 800 600); lra.
  - reflexivity.
Defined.

(** ** C4: the two-module scenario *)

(** C4, with the entries keyed by [module].  On a canvas of at least 80 by
    80 the scenario yields the four nodes [a.py], [b.py], [a.py::f],
    [b.py::C] and three edges, two parent-child and one cross-module, and
    the four target positions lie inside the margins. *)
Theorem scenario_layout rnd W H :
  80 <= W -> 80 <= H ->
  exists ns es, forceLayout rnd (Some scenario) W H = Ok (ns, es) /\
    n_id <$> ns = ["a.py"; "b.py"; "a.py::f"; "b.py::C"] /\
    (fun e => (e_src e, e_tgt e, e_label e)) <$> es
      = [(Node 0, Node 2, EmptyString); (Node 1, Node 3, EmptyString);
         (Node 0, Node 1, "imports")] /\
    Forall (fun n => 40 <= n_tx n <= W - 40 /\ 40 <= n_ty n <= H - 40) ns.
Proof.
  intros HW HH.
  pose proof (scenario_shape rnd W H) as Hs.
  pose proof (layout_nodes_clamped rnd (Some scenario) W H
                (fun c => 40 <= c <= W - 40) (fun c => 40 <= c <= H - 40)
                (fun c => clamp_bounds W c HW) (fun c => clamp_bounds H c HH)) as Hb.
  destruct (forceLayout rnd (Some scenario) W H) as [[ns es]|]; [|done].
  cbn in Hs, Hb. injection Hs as Hn He.
  by exists ns, es.
Qed.

Lemma scenario_layout_witness :
  exists ns es, forceLayout (fun _ => 0) (Some scenario) 800 600 = Ok (ns, es) /\
    n_id <$> ns = ["a.py"; "b.py"; "a.py::f"; "b.py::C"] /\
    (fun e => (e_src e, e_tgt e, e_label e)) <$> es
      = [(Node 0, Node 2, EmptyString); (Node 1, Node 3, EmptyString);
         (Node 0, Node 1, "imports")] /\
    Forall (fun n => 40 <= n_tx n <= 800 - 40 /\ 40 <= n_ty n <= 600 - 40) ns.
Proof. apply (scenario_layout (fun _ => 0) 800 600); lra. Defined.

(** With the entries keyed by [path] the first [mod.module.split] throws:
    no node list is produced.  (With the entries keyed by [module], a canvas
    of 30 by 30 puts the four nodes at [(40, 40)], outside the canvas.) *)
Lemma scenario_path_throws :
  forceLayout (fun _ => 0) (Some scenario_path) 800 600 = TypeError /\
  ~ (exists ns es,
       forceLayout (fun _ => 0) (Some scenario_path) 800 600 = Ok (ns, es) /\
       n_id <$> ns = ["a.py"; "b.py"; "a.py::f"; "b.py::C"] /\ length es = 3%nat) /\
  Forall (fun n => 30 < n_tx n /\ 30 < n_ty n)
         (layout_nodes (forceLayout (fun _ => 0) (Some scenario) 30 30)).
Proof.
  assert (forceLayout (fun _ => 0) (Some scenario_path) 800 600 = TypeError) as E
    by reflexivity.
  split; [exact E|]. split.
  - intros (ns & es & Hf & _). by rewrite E in Hf.
  - eapply Forall_impl; [apply layout_nodes_narrow; lra|].
    intros n [-> ->]. cbn. lra.
Qed.

(** ** C8: the schedule on a module with two functions *)

Definition two_functions : Graph :=
  {| modules := Some [entry (Some "a.py") None ["f"; "g"] []]; edges := None |}.

Lemma startDelay_schedule_witness :
  exists ns es n e,
    forceLayout (fun _ => 0) (Some two_functions) 800 600 = Ok (ns, es) /\
    ns !! e_tgt e = Some n /\ e ∈ es /\ n_id n = "a.py::g" /\
    n_delay n = INR 0 * 0.1 + (INR 1 + 1) * 0.06 /\
    e_delay e = INR 0 * 0.1 + (INR 1 + 1) * 0.08.
Proof.
  destruct (forceLayout_total (fun _ => 0) two_functions 800 600 _ eq_refl)
    as (ns & es & Hf).
  { repeat constructor. by exists "a.py". }
  destruct (startDelay_schedule (fun _ => 0) two_functions 800 600 _ ns es eq_refl Hf)
    as (_ & Hch & _).
  destruct (Hch 0%nat _ "a.py" 1%nat ("g", TFunction) eq_refl eq_refl eq_refl)
    as (n & e & Hn & He & _ & Hid & Hdn & Hde).
  by exists ns, es, n, e.
Defined.

(** The edge that points to the second child is delayed by [0.16], not by
    the child's delay [0.12] plus [0.02]. *)
Lemma edge_delay_counterexample :
  exists ns es n e,
    forceLayout (fun _ => 0) (Some two_functions) 800 600 = Ok (ns, es) /\
    ns !! e_tgt e = Some n /\ e ∈ es /\ e_label e = EmptyString /\
    n_id n = "a.py::g" /\ e_delay e <> n_delay n + 0.02.
Proof.
  destruct (forceLayout_total (fun _ => 0) two_functions 800 600 _ eq_refl)
    as (ns & es & Hf).
  { repeat constructor. by exists "a.py". }
  destruct (forceLayout_child (fun _ => 0) two_functions 800 600 _ ns es
              0%nat _ "a.py" 1%nat ("g", TFunction) eq_refl Hf eq_refl eq_refl eq_refl)
    as (n & e & p & Hn & He & _ & _ & Hlab & Hid & _ & Hdn & Hde).
  exists ns, es, n, e. split_and!; try done.
  rewrite Hdn, Hde. cbn [INR]. lra.
Qed.

(** ** C9: empty input and edges to unknown nodes *)

(** A name is known to [nodeMap] when it is the id of a node, or when
    [nodeMap] can inherit a value under it. *)
Definition known (ns : list GNode) (key : string) : Prop :=
  key ∈ n_id <$> ns \/ key ∈ inherited_names.

(** What the code does with [graph.edges].  Absent [modules] give empty
    lists.  When every module entry carries its [module] key no error is
    raised whatever [graph.edges] holds; every cross-module edge of the
    result comes from an entry whose source and target are both known to
    [nodeMap]; and an entry whose source or target is not known produces no
    edge. *)
Lemma unknown_edges_dropped rnd W H :
  (forall graph, graph ≫= modules = None -> forceLayout rnd graph W H = Ok ([], [])) /\
  (forall g mods, modules g = Some mods -> Forall named mods ->
     exists ns es, forceLayout rnd (Some g) W H = Ok (ns, es) /\
       (forall e, e ∈ es -> e_label e = "imports" ->
          exists i ge, default [] (edges g) !! i = Some ge /\
            known ns (source ge) /\ known ns (target ge) /\
            e_delay e = INR (length mods) * 0.1 + INR i * 0.12) /\
       (forall i ge, default [] (edges g) !! i = Some ge ->
          ~ (known ns (source ge) /\ known ns (target ge)) ->
          ~ exists e, e ∈ es /\ e_label e = "imports" /\
              e_delay e = INR (length mods) * 0.1 + INR i * 0.12)).
Proof.
  split.
  - intros graph Hm. by apply forceLayout_absent.
  - intros g mods Hm Hn.
    destruct (forceLayout_total rnd g W H mods Hm Hn) as (ns & es & Hf).
    exists ns, es. split; [done|].
    assert (forall e, e ∈ es -> e_label e = "imports" ->
              exists i ge, default [] (edges g) !! i = Some ge /\
                known ns (source ge) /\ known ns (target ge) /\
                e_delay e = INR (length mods) * 0.1 + INR i * 0.12) as Hinv.
    { intros e He Hlab.
      destruct (forceLayout_cross_inv _ _ _ _ _ _ _ _ Hm Hf He Hlab)
        as (i & ge & Hi & Hs & Ht & Hd).
      exists i, ge. split; [done|]. split; [|split; [|done]].
      - destruct Hs as [(s & Hs & <-)|(_ & _ & Hs)]; [left|by right].
        apply list_elem_of_fmap_2. destruct (e_src e) as [k|]; [|done].
        by eapply list_elem_of_lookup_2.
      - destruct Ht as [(t & Ht & <-)|(_ & _ & Ht)]; [left|by right].
        apply list_elem_of_fmap_2. destruct (e_tgt e) as [k|]; [|done].
        by eapply list_elem_of_lookup_2. }
    split; [exact Hinv|].
    intros i ge Hi Hunk (e & He & Hlab & Hd).
    destruct (Hinv e He Hlab) as (k & ge' & Hk & Hs & Ht & Hd').
    assert (INR i = INR k) as Hik by lra.
    apply INR_eq in Hik. subst k.
    assert (ge' = ge) as -> by congruence. by apply Hunk.
Qed.

(** An empty [modules] list gives empty node and edge lists when no entry of
    [graph.edges] has a member of [Object.prototype] at both ends. *)
Lemma empty_modules_layout rnd g W H :
  modules g = Some [] ->
  Forall (fun ge => ~ (source ge ∈ Object_prototype /\ target ge ∈ Object_prototype))
         (default [] (edges g)) ->
  forceLayout rnd (Some g) W H = Ok ([], []).
Proof.
  intros Hm Hes. rewrite (forceLayout_solved rnd g W H [] build0 Hm eq_refl).
  cbn [nodes gedges solved apply_positions build0 imap app]. do 2 f_equal.
  apply elem_of_nil_inv. intros e (k & ge & s & t & Hk & Hs & Ht & _)%elem_of_cross_from.
  rewrite Forall_forall in Hes. apply (Hes ge); [by eapply list_elem_of_lookup_2|].
  unfold nodeMap_get in Hs, Ht.
  change (nodeMap (solved W H build0)) with (∅ : gmap string nat) in Hs, Ht.
  rewrite lookup_empty in Hs, Ht.
  rewrite inherits_plain in Hs, Ht by reflexivity.
  split.
  - destruct (bool_decide _) eqn:E in Hs; [|done]. by apply bool_decide_eq_true in E.
  - destruct (bool_decide _) eqn:E in Ht; [|done]. by apply bool_decide_eq_true in E.
Qed.

(** An entry that names a child node is kept. *)
Definition child_edge : Graph :=
  {| modules := Some [entry (Some "a.py") None ["f"] []; entry (Some "b.py") None [] []];
     edges := Some [{| source := "a.py::f"; target := "b.py" |};
                    {| source := "c.py"; target := "b.py" |}] |}.

Lemma unknown_edges_dropped_example :
  exists ns es, forceLayout (fun _ => 0) (Some child_edge) 800 600 = Ok (ns, es) /\
    ~ exists e, e ∈ es /\ e_label e = "imports" /\ e_delay e = INR 2 * 0.1 + INR 1 * 0.12.
Proof.
  destruct (unknown_edges_dropped (fun _ => 0) 800 600) as (_ & Hd).
  destruct (Hd child_edge _ eq_refl) as (ns & es & Hf & _ & Hdrop).
  { repeat constructor; [by exists "a.py"|by exists "b.py"]. }
  exists ns, es. split; [done|].
  apply (Hdrop 1%nat {| source := "c.py"; target := "b.py" |} eq_refl).
  assert (shape (forceLayout (fun _ => 0) (Some child_edge) 800 600)
          = Some (["a.py"; "b.py"; "a.py::f"],
                  [(Node 0, Node 2, EmptyString); (Node 2, Node 1, "imports")])) as Hs
    by reflexivity.
  rewrite Hf in Hs. cbn in Hs. injection Hs as Hids _. unfold known. rewrite Hids.
  intros [[Hc|Hc] _]; cbn [source] in Hc; revert Hc;
    apply (proj1 (bool_decide_eq_false _)); reflexivity.
Qed.

(** The entry whose source is the child id [a.py::f], which no module entry
    carries as its [module], yields an [imports] edge from node 2 to
    node 1. *)
Lemma child_id_edge_kept :
  Forall (fun md => module md <> Some "a.py::f") (default [] (modules child_edge)) /\
  shape (forceLayout (fun _ => 0) (Some child_edge) 800 600)
  = Some (["a.py"; "b.py"; "a.py::f"],
          [(Node 0, Node 2, EmptyString); (Node 2, Node 1, "imports")]).
Proof. split; [by repeat constructor|reflexivity]. Qed.

(** An empty [modules] list, and one entry in [graph.edges] that names two
    members of [Object.prototype]. *)
Definition inherited_edge : Graph :=
  {| modules := Some [];
     edges := Some [{| source := "constructor"; target := "toString" |}] |}.

(** One module, and one entry in [graph.edges] whose source is a member of
    [Object.prototype]. *)
Definition inherited_source : Graph :=
  {| modules := Some [entry (Some "a.py") None [] []];
     edges := Some [{| source := "constructor"; target := "a.py" |}] |}.

(** C9, on the code.  [nodeMap] is a plain object, so [nodeMap[e.source]]
    also finds the members of [Object.prototype], and they pass the test
    [s && t].  With an empty [modules] list and the one entry
    [constructor -> toString] the result has no node and yet one [imports]
    edge: the edge list is not empty, and the entry, which names no node, is
    not dropped.  With the module [a.py] and the entry
    [constructor -> a.py] the result has the one node [a.py] and an
    [imports] edge whose source is no node. *)
Theorem inherited_name_edge_kept rnd W H :
  modules inherited_edge = Some [] /\
  shape (forceLayout rnd (Some inherited_edge) W H)
  = Some ([], [(Inherited "constructor", Inherited "toString", "imports")]) /\
  shape (forceLayout rnd (Some inherited_source) W H)
  = Some (["a.py"], [(Inherited "constructor", Node 0, "imports")]) /\
  forceLayout rnd (Some inherited_edge) W H <> Ok ([], []).
Proof.
  assert (shape (forceLayout rnd (Some inherited_edge) W H)
          = Some ([], [(Inherited "constructor", Inherited "toString", "imports")])) as Hs
    by reflexivity.
  split; [reflexivity|]. split; [exact Hs|]. split; [reflexivity|].
  intros Hf. by rewrite Hf in Hs.
Qed.

(** ** C6: the result does not depend on [Math.random] *)

(** A node with the one field that [Math.random] decides blanked. *)
Definition unpulse (n : GNode) : GNode :=
  {| n_id := n_id n; n_label := n_label n; n_type := n_type n; n_color := n_color n;
     n_tx := n_tx n; n_ty := n_ty n; n_x := n_x n; n_y := n_y n;
     n_r := n_r n; n_cr := n_cr n; n_delay := n_delay n; n_t := n_t n;
     n_dur := n_dur n; n_visible := n_visible n; n_hover := n_hover n;
     n_scale := n_scale n; n_opacity := n_opacity n; n_pulse := 0 |}.

Definition same (st1 st2 : build) : Prop :=
  unpulse <$> nodes st1 = unpulse <$> nodes st2 /\
  gedges st1 = gedges st2 /\ nodeMap st1 = nodeMap st2.

Definition rel_result {A} (Rel : A -> A -> Prop) (r1 r2 : result A) : Prop :=
  match r1, r2 with
  | Ok a1, Ok a2 => Rel a1 a2
  | TypeError, TypeError => True
  | _, _ => False
  end.

Lemma forEach_rel {St A} (Rel : St -> St -> Prop)
    (f1 f2 : A -> nat -> St -> result St) l i s1 s2 :
  (forall a i s1 s2, Rel s1 s2 -> rel_result Rel (f1 a i s1) (f2 a i s2)) ->
  Rel s1 s2 -> rel_result Rel (forEach f1 l i s1) (forEach f2 l i s2).
Proof.
  intros Hf. revert i s1 s2. induction l as [|a l IH]; intros i s1 s2 Hs; cbn [forEach].
  - exact Hs.
  - specialize (Hf a i s1 s2 Hs).
    destruct (f1 a i s1) as [t1|], (f2 a i s2) as [t2|]; try done. by apply IH.
Qed.

Lemma same_length st1 st2 : same st1 st2 -> length (nodes st1) = length (nodes st2).
Proof. intros [Hn _]. apply (f_equal length) in Hn. by rewrite !length_fmap in Hn. Qed.

Lemma same_push st1 st2 n1 n2 es1 es2 :
  same st1 st2 -> unpulse n1 = unpulse n2 -> n_id n1 = n_id n2 -> es1 = es2 ->
  same {| nodes := nodes st1 ++ [n1]; gedges := es1;
          nodeMap := <[n_id n1 := length (nodes st1)]> (nodeMap st1) |}
       {| nodes := nodes st2 ++ [n2]; gedges := es2;
          nodeMap := <[n_id n2 := length (nodes st2)]> (nodeMap st2) |}.
Proof.
  intros Hs Hn Hid ->. pose proof (same_length _ _ Hs) as Hlen.
  destruct Hs as (Hns & Hes & Hmap). unfold same. cbn.
  rewrite !fmap_app, Hns, Hmap, Hlen, Hid. cbn. by rewrite Hn.
Qed.

Section TwoRuns.

Variables rnd1 rnd2 : nat -> R.
Variables W H : R.

Lemma addModule_same N md i st1 st2 :
  same st1 st2 ->
  rel_result same (addModule rnd1 W H N md i st1) (addModule rnd2 W H N md i st2).
Proof.
  intros Hs. unfold addModule. destruct (module md) as [m|]; [|done].
  apply (same_push st1 st2
           (new_GNode _ m _ TModule _ _ _ _) (new_GNode _ m _ TModule _ _ _ _));
    try done. by destruct Hs as (_ & -> & _).
Qed.

Lemma addChild_same m i nch parent ptx pty ch j st1 st2 :
  same st1 st2 ->
  rel_result same (addChild rnd1 m i nch parent ptx pty ch j st1)
                  (addChild rnd2 m i nch parent ptx pty ch j st2).
Proof.
  intros Hs. unfold addChild.
  apply (same_push st1 st2
           (new_GNode _ (m +:+ "::" +:+ ch.1) _ _ _ _ _ _)
           (new_GNode _ (m +:+ "::" +:+ ch.1) _ _ _ _ _ _));
    try done.
  rewrite (same_length _ _ Hs). by destruct Hs as (_ & -> & _).
Qed.

Lemma addChildren_same md i st1 st2 :
  same st1 st2 ->
  rel_result same (addChildren rnd1 md i st1) (addChildren rnd2 md i st2).
Proof.
  intros Hs. unfold addChildren. destruct (module md) as [m|]; [|done].
  pose proof Hs as (Hns & _ & Hmap). rewrite Hmap.
  destruct (nodeMap st2 !! m) as [parent|]; [|done].
  apply (f_equal (fun l => l !! parent)) in Hns. rewrite !list_lookup_fmap in Hns.
  destruct (nodes st1 !! parent) as [p1|], (nodes st2 !! parent) as [p2|]; try done.
  cbn in Hns. apply (inj Some) in Hns.
  replace (n_tx p1) with (n_tx p2) by apply (f_equal n_tx (eq_sym Hns)).
  replace (n_ty p1) with (n_ty p2) by apply (f_equal n_ty (eq_sym Hns)).
  apply forEach_rel; [|done].
  intros c k t1 t2 Ht. by apply addChild_same.
Qed.

Lemma built_same mods :
  rel_result same (built rnd1 W H mods) (built rnd2 W H mods).
Proof.
  unfold built.
  assert (same build0 build0) as Hs0 by done.
  pose proof (forEach_rel same (addModule rnd1 W H (length mods))
                (addModule rnd2 W H (length mods)) mods 0 build0 build0
                (fun a i s1 s2 Hs => addModule_same _ a i s1 s2 Hs) Hs0) as Hs1.
  destruct (forEach (addModule rnd1 _ _ _) _ _ _) as [s1|],
           (forEach (addModule rnd2 _ _ _) _ _ _) as [s2|];
    cbn in Hs1 |- *; try done.
  apply forEach_rel; [|done].
  intros a i t1 t2 Ht. by apply addChildren_same.
Qed.

End TwoRuns.

Lemma radius_unpulse (ns : list GNode) (i : nat) :
  n_r ((unpulse <$> ns) !!! i) = n_r (ns !!! i).
Proof.
  rewrite !list_lookup_total_alt, list_lookup_fmap. by destruct (ns !! i).
Qed.

Lemma simulate_unpulse W H ns es :
  simulate W H (unpulse <$> ns) es = simulate W H ns es.
Proof.
  assert (repel (unpulse <$> ns) = repel ns) as Hrep.
  { extensionality positions. extensionality i. extensionality j.
    extensionality v. unfold repel. by rewrite !radius_unpulse. }
  unfold simulate.
  replace (iteration W H (unpulse <$> ns) es) with (iteration W H ns es).
  - by rewrite <- !list_fmap_compose.
  - extensionality pv. unfold iteration, repulsion. by rewrite Hrep.
Qed.

#[local] Opaque simulate.

Lemma solved_same W H st1 st2 :
  same st1 st2 -> same (solved W H st1) (solved W H st2).
Proof.
  intros (Hns & Hes & Hmap). unfold same, solved, apply_positions. cbn.
  split; [|done].
  rewrite <- (simulate_unpulse W H (nodes st1)), <- (simulate_unpulse W H (nodes st2)).
  rewrite Hns, Hes.
  set (pos := (simulate W H (unpulse <$> nodes st2) (gedges st2)).1).
  transitivity (imap (fun i n => set_target (pos !!! i) n) (unpulse <$> nodes st1)).
  - rewrite fmap_imap, imap_fmap. apply imap_ext. intros i n _. reflexivity.
  - rewrite Hns, fmap_imap, imap_fmap. apply imap_ext. intros i n _. reflexivity.
Qed.

(** Id and target position of every node of a result. *)
Definition targets (r : result (list GNode * list GEdge))
  : option (list (string * R * R)) :=
  match r with
  | Ok (ns, _) => Some ((fun n => (n_id n, n_tx n, n_ty n)) <$> ns)
  | TypeError => None
  end.

(** C6.  Two runs of [forceLayout] on the same graph and canvas size give
    the same target coordinates for every node, whatever values
    [Math.random] returns in each run. *)
Theorem forceLayout_deterministic rnd1 rnd2 graph W H :
  targets (forceLayout rnd1 graph W H) = targets (forceLayout rnd2 graph W H).
Proof.
  destruct (graph ≫= modules) as [mods|] eqn:Hm;
    [|by rewrite !forceLayout_absent].
  destruct graph as [g|]; [cbn in Hm|done].
  rewrite !(forceLayout_built _ _ _ _ mods) by done.
  pose proof (built_same rnd1 rnd2 W H mods) as Hb.
  destruct (built rnd1 W H mods) as [st1|], (built rnd2 W H mods) as [st2|]; try done.
  cbn [mbind result_bind targets]. f_equal.
  apply (solved_same W H) in Hb as (Hns & _).
  apply (f_equal (fmap (fun n => (n_id n, n_tx n, n_ty n)))) in Hns.
  by rewrite <- !list_fmap_compose in Hns.
Qed.

(** ** C7: wheel zoom *)

Lemma handle_zoom_range s g :
  0.2 <= zoom s <= 4 -> 0.2 <= zoom (handle s g) <= 4.
Proof.
  intros Hz. destruct g as [r e|e|e|r e| | |]; cbn; try done.
  - by destruct r.
  - destruct r as [r|]; [|done]. cbn. unfold Rmax, Rmin.
    repeat destruct (Rle_dec _ _); lra.
  - lra.
  - unfold Rmin. destruct (Rle_dec _ _); lra.
  - unfold Rmax. destruct (Rle_dec _ _); lra.
Qed.

Lemma reachable_zoom_range s : reachable s -> 0.2 <= zoom s <= 4.
Proof.
  intros [gs ->]. induction gs as [|g gs IH] using rev_ind.
  - cbn. lra.
  - rewrite foldl_snoc. by apply handle_zoom_range.
Qed.

(** C7.  For a wheel event at cursor [c] (canvas coordinates) on a view
    that the gestures can reach: the new zoom is the old one times 0.9
    ([deltaY > 0]) or 1.1, clamped to [[0.2, 4]]; the new pan is
    [c - (c - pan) * (zoom' / zoom)]; and the model point that was drawn
    under the cursor before the event is drawn at the cursor after it. *)
Theorem wheel_keeps_cursor_point s r e :
  reachable s ->
  let c := {| px := clientX e - r_left r; py := clientY e - r_top r |} in
  let s' := onWheel (Some r) e s in
  zoom s' = Rmax 0.2 (Rmin 4 (zoom s * (if Rlt_dec 0 (deltaY e) then 0.9 else 1.1))) /\
  px (pan s') = px c - (px c - px (pan s)) * (zoom s' / zoom s) /\
  py (pan s') = py c - (py c - py (pan s)) * (zoom s' / zoom s) /\
  to_screen s' (to_model s c) = c.
Proof.
  intros Hr c s'. pose proof (reachable_zoom_range s Hr) as Hz.
  split_and!; try reflexivity.
  unfold to_screen, to_model, s', c, onWheel. cbn.
  f_equal; field; lra.
Qed.

Lemma wheel_keeps_cursor_point_witness :
  let e := {| clientX := 300; clientY := 200; deltaY := 1 |} in
  let r := {| r_left := 10; r_top := 20; r_width := 800; r_height := 600 |} in
  to_screen (onWheel (Some r) e view0) (to_model view0 {| px := 290; py := 180 |})
  = {| px := 300 - 10; py := 200 - 20 |}.
Proof.
  intros e r.
  destruct (wheel_keeps_cursor_point view0 r e) as (_ & _ & _ & Hfix).
  - by exists [].
  - cbn in Hfix. rewrite <- Hfix. unfold to_model. cbn. f_equal; f_equal; f_equal; lra.
Defined.

(** ** Where the nodes and edges of a result come from *)

#[local] Instance Ok_inj {A} : Inj (=) (=) (@Ok A).
Proof. intros a b E. by injection E. Qed.

(** [forEach] hands the callback each element together with its index. *)
Lemma forEach_inv_at {St A} (P : St -> Prop) (f : A -> nat -> St -> result St) l i s s' :
  (forall k a s s', l !! k = Some a -> P s -> f a (i + k)%nat s = Ok s' -> P s') ->
  P s -> forEach f l i s = Ok s' -> P s'.
Proof.
  revert i s. induction l as [|a l IH]; intros i s Hf Hs He; cbn [forEach] in He.
  - by apply (inj Ok) in He as <-.
  - destruct (f a i s) as [s1|] eqn:E1; [|done].
    apply (IH (S i) s1); [| |exact He].
    + intros k b t t' Hk Ht Hb. apply (Hf (S k) b t t'); [done|done|].
      by replace (i + S k)%nat with (S i + k)%nat by lia.
    + apply (Hf 0%nat a s s1); [done|done|]. by rewrite Nat.add_0_r.
Qed.

(** A node made by the first loop for the module entry of index [i]. *)
Definition module_node (mods : list ModEntry) (n : GNode) : Prop :=
  exists i md, mods !! i = Some md /\ module md = Some (n_id n) /\
    n_type n = TModule /\ n_delay n = INR i * 0.1.

(** A node made by the second loop for child [j] of the module of index [i]. *)
Definition child_node (mods : list ModEntry) (n : GNode) : Prop :=
  exists i md m j ch, mods !! i = Some md /\ module md = Some m /\
    children md !! j = Some ch /\
    n_id n = m +:+ "::" +:+ ch.1 /\ n_type n = ch.2 /\
    n_delay n = INR i * 0.1 + (INR j + 1) * 0.06.

(** The edge made together with that child node: it runs from the node
    that [nodeMap] holds for the module name to the child. *)
Definition pc_edge (mods : list ModEntry) (ns : list GNode) (e : GEdge) : Prop :=
  exists i md m j n p, mods !! i = Some md /\ module md = Some m /\
    (j < length (children md))%nat /\
    ns !! e_tgt e = Some n /\ n_delay n = INR i * 0.1 + (INR j + 1) * 0.06 /\
    ns !! e_src e = Some p /\ n_id p = m /\
    e_delay e = INR i * 0.1 + (INR j + 1) * 0.08.

Definition origins (mods : list ModEntry) (st : build) : Prop :=
  Forall (fun n => module_node mods n \/ child_node mods n) (nodes st) /\
  Forall (pc_edge mods (nodes st)) (gedges st).

Lemma pc_edge_app mods ns cn e : pc_edge mods ns e -> pc_edge mods (ns ++ cn) e.
Proof.
  intros (i & md & m & j & n & p & Hi & Hm & Hj & Hn & Hdn & Hp & Hid & Hde).
  exists i, md, m, j, n, p. split_and!; try done; by apply ref_lookup_app_l.
Qed.

Lemma origins_push mods st n es k :
  origins mods st -> module_node mods n \/ child_node mods n ->
  Forall (pc_edge mods (nodes st ++ [n])) es ->
  origins mods {| nodes := nodes st ++ [n]; gedges := gedges st ++ es; nodeMap := k |}.
Proof.
  intros [Hn He] Hnew Hes. split; cbn.
  - apply Forall_app. split; [done|]. constructor; [done|constructor].
  - apply Forall_app. split; [|done].
    eapply Forall_impl; [exact He|]. intros e. apply pc_edge_app.
Qed.

Lemma built_origins rnd W H mods st :
  built rnd W H mods = Ok st -> map_ok st /\ origins mods st.
Proof.
  unfold built. intros Hb.
  destruct (forEach (addModule _ _ _ _) _ _ _) as [st1|] eqn:E1; [|done].
  cbn [mbind result_bind] in Hb.
  assert (map_ok st1 /\ origins mods st1) as H1.
  { revert E1. apply (forEach_inv_at (fun s => map_ok s /\ origins mods s)).
    - intros k md s s' Hk [Hok Hor] He. cbn [Nat.add] in He.
      destruct (module md) as [m|] eqn:Hm; [|by unfold addModule in He; rewrite Hm in He].
      destruct (addModule_Ok rnd W H (length mods) md k s m Hm) as (n & E & Hid & Hty & Hd).
      rewrite E in He. apply (inj Ok) in He as <-. split; [by apply map_ok_push|].
      rewrite <- (app_nil_r (gedges s)). apply origins_push; [done| |constructor].
      left. exists k, md. by rewrite Hid.
    - split; [apply map_ok_build0|]. split; constructor. }
  revert Hb. apply (forEach_inv_at (fun s => map_ok s /\ origins mods s)); [|exact H1].
  intros k md s s' Hk [Hok Hor] He. cbn [Nat.add] in He. unfold addChildren in He.
  destruct (module md) as [m|] eqn:Hm; [|done].
  destruct (nodeMap s !! m) as [parent|] eqn:Hpar; [|done].
  destruct (proj1 Hok m parent Hpar) as (p & Hp & Hid). rewrite Hp in He.
  assert (map_ok s' /\ origins mods s' /\ nodes s' !! parent = Some p) as (? & ? & _);
    [|done].
  revert He.
  apply (forEach_inv_at
           (fun t => map_ok t /\ origins mods t /\ nodes t !! parent = Some p));
    [|done].
  intros j ch t t' Hj (Hokt & Hort & Hpt) Hc. cbn [Nat.add] in Hc.
  destruct (addChild_Ok rnd m k (length (children md)) parent (n_tx p) (n_ty p) ch j t)
    as (cn & E & Hcid & Hcty & Hcd).
  rewrite E in Hc. apply (inj Ok) in Hc as <-.
  split; [by apply map_ok_push|]. split; [|by apply lookup_app_l_Some].
  apply origins_push; [done| |].
  - right. by exists k, md, m, j, ch.
  - constructor; [|constructor].
    exists k, md, m, j, cn, p. cbn [e_tgt e_src e_delay new_GEdge].
    split_and!; try done.
    + by eapply lookup_lt_Some.
    + by rewrite ref_lookup_Node, lookup_app_r, Nat.sub_diag by lia.
    + rewrite ref_lookup_Node. by apply lookup_app_l_Some.
Qed.

(** Every node of a result is a module node or a child node, and every
    edge is a parent-child edge or comes from an entry of [graph.edges]. *)
Lemma forceLayout_origins rnd g W H mods ns es :
  modules g = Some mods -> forceLayout rnd (Some g) W H = Ok (ns, es) ->
  Forall (fun n => module_node mods n \/ child_node mods n) ns /\
  Forall (fun e => pc_edge mods ns e \/
            exists i, e_delay e = INR (length mods) * 0.1 + INR i * 0.12) es.
Proof.
  intros Hm Hf.
  destruct (forceLayout_inv _ _ _ _ _ _ _ Hm Hf) as (st & Hb & -> & ->).
  destruct (built_origins _ _ _ _ _ Hb) as [Hok [Hn He]].
  assert (forall mods' n q, module_node mods' n \/ child_node mods' n ->
            module_node mods' (set_target q n) \/ child_node mods' (set_target q n))
    as Hset by (intros mods' n q Hor; exact Hor).
  split.
  - apply Forall_lookup_2. intros i n Hi. rewrite solved_lookup in Hi.
    destruct (nodes st !! i) as [n0|] eqn:E; [|done].
    apply (inj Some) in Hi. subst n. apply Hset.
    exact (Forall_lookup_1 _ _ _ _ Hn E).
  - apply Forall_app. split.
    + eapply Forall_impl; [exact He|].
      intros e (i & md & m & j & n & p & Hi & Hmd & Hj & Htn & Hdn & Hsp & Hid & Hde).
      destruct (solved_ref W H st _ _ Htn) as [q1 Hq1].
      destruct (solved_ref W H st _ _ Hsp) as [q2 Hq2].
      left. exists i, md, m, j, (set_target q1 n), (set_target q2 p).
      rewrite Hq1, Hq2. done.
    + apply Forall_forall. intros e He'.
      apply elem_of_cross_from in He' as (k & ge & si & ti & Hk & Hs & Ht & ->).
      right. exists k. by rewrite Nat.add_0_l.
Qed.

Lemma length_children md : (length (children md) <= 3)%nat.
Proof.
  unfold children. rewrite length_app, !length_fmap, !length_take. lia.
Qed.

(** No node starts later than [0.1 * N + 0.08] seconds after the build,
    [N] being the number of modules. *)
Lemma node_delay_bound mods n :
  module_node mods n \/ child_node mods n ->
  n_delay n <= INR (length mods) * 0.1 + 0.08.
Proof.
  intros [(i & md & Hi & _ & _ & ->)|(i & md & m & j & ch & Hi & _ & Hj & _ & _ & ->)].
  - apply lookup_lt_Some in Hi. apply (le_INR (S i)) in Hi. rewrite S_INR in Hi. lra.
  - apply lookup_lt_Some in Hi, Hj. pose proof (length_children md) as H3.
    apply (le_INR (S i)) in Hi. rewrite S_INR in Hi.
    assert (j <= 2)%nat as Hj2 by lia. apply le_INR in Hj2. cbn [INR] in Hj2. lra.
Qed.

(** When the ids of the nodes are pairwise distinct, every edge is started
    at least 220 ms after each of the two nodes it joins: the timeout of
    the edge exceeds the timeouts of its source and of its target by that
    much.  (With two module entries of the same name the parent of a child
    is the last node of that name, which may start after the edge.) *)
Theorem edges_start_after_nodes rnd g W H mods ns es e s t :
  modules g = Some mods -> forceLayout rnd (Some g) W H = Ok (ns, es) ->
  NoDup (n_id <$> ns) ->
  e ∈ es -> ns !! e_src e = Some s -> ns !! e_tgt e = Some t ->
  node_timeout s + 220 <= edge_timeout e /\ node_timeout t + 220 <= edge_timeout e.
Proof.
  intros Hm Hf Hnd He Hs Ht.
  destruct (forceLayout_origins _ _ _ _ _ _ _ Hm Hf) as [Hn Hes].
  unfold node_timeout, edge_timeout.
  destruct (proj1 (Forall_forall _ _) Hes e He)
    as [(i & md & m & j & n & p & Hi & Hmd & Hj & Htn & Hdn & Hsp & Hid & Hde)|[k Hde]].
  - assert (n = t) as -> by congruence. assert (p = s) as -> by congruence.
    destruct (forceLayout_module _ _ _ _ _ _ _ _ _ Hm Hf Hi) as (q & Hq & Hqm & _ & Hqd).
    destruct (ref_lookup_Some _ _ _ Hs) as (si & _ & Hs').
    assert (si = i) as ->.
    { apply (NoDup_lookup _ _ _ (n_id s) Hnd).
      - by rewrite list_lookup_fmap, Hs'.
      - rewrite list_lookup_fmap, Hq. cbn. congruence. }
    assert (q = s) as -> by congruence.
    pose proof (pos_INR j). rewrite Hde, Hqd, Hdn. lra.
  - destruct (ref_lookup_Some _ _ _ Hs) as (si & _ & Hs').
    destruct (ref_lookup_Some _ _ _ Ht) as (ti & _ & Ht').
    pose proof (node_delay_bound mods s (Forall_lookup_1 _ _ _ _ Hn Hs')).
    pose proof (node_delay_bound mods t (Forall_lookup_1 _ _ _ _ Hn Ht')).
    pose proof (pos_INR k). rewrite Hde. lra.
Qed.

(** Six module entries of the same name, each with one function: every
    child hangs on the last of the six nodes, which starts at 500 ms, while
    the edge to the first child starts at 380 ms. *)
Definition same_name : Graph :=
  {| modules := Some (replicate 6 (entry (Some "a.py") None ["f"] [])); edges := None |}.

Lemma duplicate_names_edge_early :
  exists ns es e s, forceLayout (fun _ => 0) (Some same_name) 800 600 = Ok (ns, es) /\
    e ∈ es /\ ns !! e_src e = Some s /\ edge_timeout e < node_timeout s.
Proof.
  destruct (forceLayout_total (fun _ => 0) same_name 800 600 _ eq_refl) as (ns & es & Hf).
  { repeat constructor; by exists "a.py". }
  assert (e_src <$> layout_edges (forceLayout (fun _ => 0) (Some same_name) 800 600)
          = replicate 6 (Node 5)) as Hsrc by reflexivity.
  rewrite Hf in Hsrc. cbn [layout_edges] in Hsrc.
  destruct (forceLayout_child (fun _ => 0) same_name 800 600 _ ns es
              0%nat _ "a.py" 0%nat ("f", TFunction) eq_refl Hf eq_refl eq_refl eq_refl)
    as (n & e & p & _ & He & Hp & _ & _ & _ & _ & _ & Hde).
  destruct (forceLayout_module (fun _ => 0) same_name 800 600 _ ns es 5%nat _
              eq_refl Hf eq_refl) as (q & Hq & _ & _ & Hqd).
  assert (e_src e = 5%nat) as H5.
  { apply (list_elem_of_fmap_2 e_src) in He. rewrite Hsrc in He.
    by apply elem_of_replicate in He as [? _]. }
  exists ns, es, e, p. split; [exact Hf|]. split; [exact He|]. split; [exact Hp|].
  clear Hf Hsrc. rewrite H5, ref_lookup_Node, Hq in Hp. apply (inj Some) in Hp as <-.
  unfold edge_timeout, node_timeout. rewrite Hde, Hqd. cbn [INR]. lra.
Qed.

Lemma edges_start_after_nodes_witness :
  exists ns es e s t,
    forceLayout (fun _ => 0) (Some scenario) 800 600 = Ok (ns, es) /\
    es !! 2%nat = Some e /\ e_label e = "imports" /\
    ns !! e_src e = Some s /\ ns !! e_tgt e = Some t /\
    node_timeout s + 220 <= edge_timeout e /\ node_timeout t + 220 <= edge_timeout e.
Proof.
  destruct (forceLayout_total (fun _ => 0) scenario 800 600 _ eq_refl) as (ns & es & Hf).
  { repeat constructor; [by exists "a.py"|by exists "b.py"]. }
  pose proof (scenario_shape (fun _ => 0) 800 600) as Hsh.
  rewrite Hf in Hsh. cbn [shape] in Hsh. apply (inj Some) in Hsh.
  assert (n_id <$> ns = ["a.py"; "b.py"; "a.py::f"; "b.py::C"]) as Hids by congruence.
  assert ((fun e => (e_src e, e_tgt e, e_label e)) <$> es
          = [(Node 0, Node 2, EmptyString); (Node 1, Node 3, EmptyString);
         (Node 0, Node 1, "imports")]) as Hes
    by congruence.
  assert (exists e s t, es !! 2%nat = Some e /\ e_label e = "imports" /\
            ns !! e_src e = Some s /\ ns !! e_tgt e = Some t) as (e & s & t & He & Hlab & Hs & Ht).
  { clear Hf Hsh.
    destruct es as [|e0 [|e1 [|e [|? ?]]]]; try discriminate Hes.
    destruct ns as [|s [|t ns]]; try discriminate Hids.
    exists e, s, t. cbn in Hes.
    assert (e_src e = 0%nat) as -> by congruence.
    assert (e_tgt e = 1%nat) as -> by congruence.
    split_and!; [reflexivity|congruence|reflexivity|reflexivity]. }
  assert (NoDup (n_id <$> ns)) as Hnd.
  { rewrite Hids. apply (proj1 (bool_decide_spec _)). reflexivity. }
  exists ns, es, e, s, t.
  split; [exact Hf|]. split; [exact He|]. split; [exact Hlab|].
  split; [exact Hs|]. split; [exact Ht|].
  apply (edges_start_after_nodes (fun _ => 0) scenario 800 600 _ ns es e s t
           eq_refl Hf Hnd); [|exact Hs|exact Ht].
  by apply list_elem_of_lookup_2 with 2%nat.
Defined.

(** ** Size of the graph *)

Lemma forEach_addModule_length rnd W H N l i st st' :
  forEach (addModule rnd W H N) l i st = Ok st' ->
  length (nodes st') = (length (nodes st) + length l)%nat /\ gedges st' = gedges st.
Proof.
  revert i st. induction l as [|md l IH]; intros i st He; cbn [forEach] in He.
  - apply (inj Ok) in He as <-. cbn. split; [lia|done].
  - destruct (addModule rnd W H N md i st) as [st1|] eqn:E1; [|done].
    destruct (IH _ _ He) as [-> ->]. unfold addModule in E1.
    destruct (module md); [|done]. apply (inj Ok) in E1 as <-. cbn.
    rewrite length_app. cbn. split; [lia|done].
Qed.

Lemma forEach_addChild_length rnd m i nch parent ptx pty chs j st st' :
  forEach (addChild rnd m i nch parent ptx pty) chs j st = Ok st' ->
  length (nodes st') = (length (nodes st) + length chs)%nat /\
  length (gedges st') = (length (gedges st) + length chs)%nat.
Proof.
  revert j st. induction chs as [|c chs IH]; intros j st He; cbn [forEach] in He.
  - apply (inj Ok) in He as <-. cbn. lia.
  - unfold addChild at 1 in He. destruct (IH _ _ He) as [-> ->]. cbn.
    rewrite !length_app. cbn. lia.
Qed.

Lemma forEach_addChildren_length rnd l i st st' :
  forEach (addChildren rnd) l i st = Ok st' ->
  length (nodes st') = (length (nodes st) + length (l ≫= children))%nat /\
  length (gedges st') = (length (gedges st) + length (l ≫= children))%nat.
Proof.
  revert i st. induction l as [|md l IH]; intros i st He; cbn [forEach] in He.
  - apply (inj Ok) in He as <-. cbn. lia.
  - destruct (addChildren rnd md i st) as [st1|] eqn:E1; [|done].
    destruct (IH _ _ He) as [-> ->]. unfold addChildren in E1.
    destruct (module md); [|done]. destruct (nodeMap st !! _); [|done].
    destruct (nodes st !! _); [|done].
    apply forEach_addChild_length in E1 as [-> ->].
    cbn [mbind list_bind]. rewrite length_app. lia.
Qed.

Lemma length_bind_children (l : list ModEntry) :
  (length (l ≫= children) <= 3 * length l)%nat.
Proof.
  induction l as [|md l IH]; cbn [mbind list_bind]; [cbn; lia|].
  rewrite length_app. pose proof (length_children md). cbn [length]. lia.
Qed.

Lemma length_cross_from N m l i : (length (cross_from N m l i) <= length l)%nat.
Proof.
  revert i. induction l as [|e l IH]; intros i; cbn [cross_from]; [done|].
  rewrite length_app. specialize (IH (S i)).
  destruct (m (source e)), (m (target e)); cbn; lia.
Qed.

(** The size of a result.  There is one node per module entry and one per
    child kept (two functions and one class at most), so at most four nodes
    per entry; one edge per child, and at most one more per entry of
    [graph.edges]. *)
Theorem forceLayout_size rnd g W H mods ns es :
  modules g = Some mods -> forceLayout rnd (Some g) W H = Ok (ns, es) ->
  length ns = (length mods + length (mods ≫= children))%nat /\
  (length ns <= 4 * length mods)%nat /\
  (length (mods ≫= children) <= length es
   <= length (mods ≫= children) + length (default [] (edges g)))%nat.
Proof.
  intros Hm Hf.
  destruct (forceLayout_inv _ _ _ _ _ _ _ Hm Hf) as (st & Hb & -> & ->).
  unfold built in Hb.
  destruct (forEach (addModule _ _ _ _) _ _ _) as [st1|] eqn:E1; [|done].
  cbn [mbind result_bind] in Hb.
  apply forEach_addModule_length in E1 as [Hn1 He1].
  apply forEach_addChildren_length in Hb as [Hn He].
  rewrite Hn1 in Hn. rewrite He1 in He. cbn in Hn, He.
  assert (length (nodes (solved W H st)) = length (nodes st)) as ->.
  { unfold solved, apply_positions. cbn [nodes]. by rewrite length_imap. }
  pose proof (length_bind_children mods).
  pose proof (length_cross_from (length mods) (nodeMap_get (solved W H st))
                (default [] (edges g)) 0).
  rewrite length_app. lia.
Qed.

Lemma forceLayout_size_witness :
  exists ns es, forceLayout (fun _ => 0) (Some two_functions) 800 600 = Ok (ns, es) /\
    length ns = (1 + 2)%nat /\ (length ns <= 4 * 1)%nat /\ (2 <= length es <= 2 + 0)%nat.
Proof.
  destruct (forceLayout_total (fun _ => 0) two_functions 800 600 _ eq_refl)
    as (ns & es & Hf).
  { repeat constructor. by exists "a.py". }
  exists ns, es. split; [exact Hf|].
  exact (forceLayout_size (fun _ => 0) two_functions 800 600 _ ns es eq_refl Hf).
Defined.

(** ** The layout does not look at [graph.edges] *)

(** The cross-module edges are appended after the simulation has run: the
    springs only follow the parent-child edges.  Two graphs with the same
    module entries get the same nodes, at the same positions, whatever their
    [edges] are. *)
Theorem layout_ignores_import_edges rnd g1 g2 W H :
  modules g1 = modules g2 ->
  layout_nodes (forceLayout rnd (Some g1) W H) = layout_nodes (forceLayout rnd (Some g2) W H)
  /\ (forceLayout rnd (Some g1) W H = TypeError <-> forceLayout rnd (Some g2) W H = TypeError).
Proof.
  intros Hm. destruct (modules g2) as [mods|] eqn:H2.
  - rewrite (forceLayout_built rnd g1 W H mods Hm), (forceLayout_built rnd g2 W H mods H2).
    destruct (built rnd W H mods) as [st|]; cbn [mbind result_bind layout_nodes]; [|done].
    split; [done|]. split; intros E; discriminate E.
  - rewrite !forceLayout_absent by (cbn; congruence). split; [done|]. split; intros E; discriminate E.
Qed.

Lemma layout_ignores_import_edges_witness :
  layout_nodes (forceLayout (fun _ => 0) (Some scenario) 800 600)
  = layout_nodes (forceLayout (fun _ => 0)
      (Some {| modules := modules scenario; edges := None |}) 800 600).
Proof.
  apply (layout_ignores_import_edges (fun _ => 0) scenario
           {| modules := modules scenario; edges := None |} 800 600 eq_refl).
Defined.

(** ** Clicks *)

Fixpoint no_colon (s : string) : bool :=
  match s with
  | EmptyString => true
  | String c r => negb (Ascii.eqb c ":") && no_colon r
  end.

Lemma includes_sep m x : includes "::" (m +:+ "::" +:+ x) = true.
Proof.
  induction m as [|c m IH].
  { change (EmptyString +:+ "::" +:+ x) with ("::" +:+ x).
    unfold includes. by destruct x. }
  change (String c m +:+ "::" +:+ x) with (String c (m +:+ "::" +:+ x)).
  cbn [includes]. by destruct (String.prefix _ _).
Qed.

Lemma split_head_sep m x :
  no_colon m = true -> split_head "::" (m +:+ "::" +:+ x) = m.
Proof.
  induction m as [|c m IH]; intros Hm.
  { change (EmptyString +:+ "::" +:+ x) with ("::" +:+ x).
    unfold split_head. by destruct x. }
  cbn [no_colon] in Hm. apply andb_prop in Hm as [Hc Hm].
  change (String c m +:+ "::" +:+ x) with (String c (m +:+ "::" +:+ x)).
  cbn [split_head].
  assert (String.prefix "::" (String c (m +:+ "::" +:+ x)) = false) as ->.
  { change (String.prefix "::" (String c (m +:+ "::" +:+ x)))
      with (if ascii_dec ":" c then String.prefix ":" (m +:+ "::" +:+ x) else false).
    destruct (ascii_dec ":" c) as [<-|?]; [discriminate Hc|reflexivity]. }
  by rewrite IH.
Qed.

Lemma children_type md j ch : children md !! j = Some ch -> ch.2 <> TModule.
Proof.
  intros Hj. apply list_elem_of_lookup_2 in Hj. unfold children in Hj.
  apply elem_of_app in Hj as [Hj|Hj];
    apply list_elem_of_fmap in Hj as (x & -> & _); done.
Qed.

(** What a click on a node made by the builder calls. *)
Lemma node_dispatch mods n :
  (forall md m, md ∈ mods -> module md = Some m -> no_colon m = true) ->
  module_node mods n \/ child_node mods n ->
  exists md m, md ∈ mods /\ module md = Some m /\
    ((n_id n = m /\ dispatch n = Some (FileSelect m)) \/
     (exists ch, ch ∈ children md /\ n_id n = m +:+ "::" +:+ ch.1 /\
        dispatch n = Some (FunctionClick m))).
Proof.
  intros Hcol
    [(i & md & Hi & Hmd & Hty & _)|(i & md & m & j & ch & Hi & Hmd & Hj & Hid & Hty & _)].
  - exists md, (n_id n). split; [by eapply list_elem_of_lookup_2|]. split; [done|].
    left. split; [done|]. unfold dispatch. by rewrite Hty.
  - exists md, m. split; [by eapply list_elem_of_lookup_2|]. split; [done|].
    right. exists ch. split; [by eapply list_elem_of_lookup_2|]. split; [done|].
    unfold dispatch. rewrite Hid, includes_sep, split_head_sep.
    + pose proof (children_type md j ch Hj) as Hne. rewrite <- Hty in Hne.
      by destruct (n_type n).
    + apply (Hcol md); [by eapply list_elem_of_lookup_2|done].
Qed.

(** A click on any node of the map asks for the file of a module entry:
    on a module node [onFileSelect] is called with the module's name, and
    on a function or class node [onFunctionClick] is called with the name
    of the module that owns it.  Module names are taken to hold no colon
    (the name is recovered as the text before the first [::]). *)
Theorem click_opens_module rnd g W H mods ns es n :
  modules g = Some mods -> forceLayout rnd (Some g) W H = Ok (ns, es) ->
  (forall md m, md ∈ mods -> module md = Some m -> no_colon m = true) ->
  n ∈ ns ->
  exists md m, md ∈ mods /\ module md = Some m /\
    ((n_id n = m /\ dispatch n = Some (FileSelect m)) \/
     (exists ch, ch ∈ children md /\ n_id n = m +:+ "::" +:+ ch.1 /\
        dispatch n = Some (FunctionClick m))).
Proof.
  intros Hm Hf Hcol Hn.
  destruct (forceLayout_origins _ _ _ _ _ _ _ Hm Hf) as [Hns _].
  exact (node_dispatch mods n Hcol (proj1 (Forall_forall _ _) Hns n Hn)).
Qed.

Lemma click_opens_module_witness :
  exists ns es n, forceLayout (fun _ => 0) (Some scenario) 800 600 = Ok (ns, es) /\
    ns !! 2%nat = Some n /\
    exists md m, md ∈ default [] (modules scenario) /\ module md = Some m /\
      ((n_id n = m /\ dispatch n = Some (FileSelect m)) \/
       (exists ch, ch ∈ children md /\ n_id n = m +:+ "::" +:+ ch.1 /\
          dispatch n = Some (FunctionClick m))).
Proof.
  destruct (forceLayout_total (fun _ => 0) scenario 800 600 _ eq_refl) as (ns & es & Hf).
  { repeat constructor; [by exists "a.py"|by exists "b.py"]. }
  pose proof (scenario_shape (fun _ => 0) 800 600) as Hsh.
  rewrite Hf in Hsh. cbn [shape] in Hsh. apply (inj Some) in Hsh.
  assert (n_id <$> ns = ["a.py"; "b.py"; "a.py::f"; "b.py::C"]) as Hids by congruence.
  assert (exists n, ns !! 2%nat = Some n) as [n Hn].
  { clear Hf Hsh. destruct ns as [|? [|? [|n ?]]]; try discriminate Hids. by exists n. }
  exists ns, es, n. split; [exact Hf|]. split; [exact Hn|].
  apply (click_opens_module (fun _ => 0) scenario 800 600 _ ns es n eq_refl Hf).
  - intros md m Hmd Hm. cbn in Hmd.
    apply elem_of_cons in Hmd as [->|Hmd];
      [|apply list_elem_of_singleton in Hmd as ->];
      cbn in Hm; by apply (inj Some) in Hm as <-.
  - by eapply list_elem_of_lookup_2.
Defined.

(** ** Pan, zoom and the hit test *)

(** In every view that the gestures can reach the zoom factor lies in
    [[0.2, 4]], so the point that the hover and click tests compute from a
    canvas point is exactly the model point drawn there: [to_model] and
    [to_screen] are inverse to each other. *)
Theorem view_transform_inverse s p :
  reachable s ->
  0.2 <= zoom s <= 4 /\
  to_model s (to_screen s p) = p /\ to_screen s (to_model s p) = p.
Proof.
  intros Hr. pose proof (reachable_zoom_range s Hr) as Hz. split; [exact Hz|].
  unfold to_model, to_screen. destruct p as [x y]. cbn [px py].
  split; f_equal; field; lra.
Qed.

Lemma view_transform_inverse_witness :
  0.2 <= zoom (foldl handle view0 [ZoomIn; Down {| clientX := 3; clientY := 4; deltaY := 0 |}]) <= 4 /\
  to_model (foldl handle view0 [ZoomIn; Down {| clientX := 3; clientY := 4; deltaY := 0 |}])
    (to_screen (foldl handle view0 [ZoomIn; Down {| clientX := 3; clientY := 4; deltaY := 0 |}])
       {| px := 10; py := 20 |}) = {| px := 10; py := 20 |} /\
  to_screen (foldl handle view0 [ZoomIn; Down {| clientX := 3; clientY := 4; deltaY := 0 |}])
    (to_model (foldl handle view0 [ZoomIn; Down {| clientX := 3; clientY := 4; deltaY := 0 |}])
       {| px := 10; py := 20 |}) = {| px := 10; py := 20 |}.
Proof.
  apply (view_transform_inverse
           (foldl handle view0 [ZoomIn; Down {| clientX := 3; clientY := 4; deltaY := 0 |}])
           {| px := 10; py := 20 |}).
  by exists [ZoomIn; Down {| clientX := 3; clientY := 4; deltaY := 0 |}].
Defined.

Definition is_move (g : gesture) : Prop :=
  match g with
  | Move (Some _) _ => True
  | _ => False
  end.

Lemma moves_while_dragging ms s :
  Forall is_move ms -> dragging s = true ->
  dragging (foldl handle s ms) = true /\
  dragStart (foldl handle s ms) = dragStart s /\
  panStart (foldl handle s ms) = panStart s /\
  zoom (foldl handle s ms) = zoom s.
Proof.
  intros Hms. revert s. induction Hms as [|g ms Hg _ IH]; intros s Hd; [done|].
  destruct g as [[r|] e| | | | | |]; try done. cbn [foldl handle].
  destruct (IH (onMove (Some r) e s)) as (-> & -> & -> & ->); done.
Qed.

Lemma moves_while_idle ms s :
  Forall is_move ms -> dragging s = false ->
  pan (foldl handle s ms) = pan s /\ zoom (foldl handle s ms) = zoom s.
Proof.
  intros Hms. revert s. induction Hms as [|g ms Hg _ IH]; intros s Hd; [done|].
  destruct g as [[r|] e| | | | | |]; try done. cbn [foldl handle].
  destruct (IH (onMove (Some r) e s)) as (-> & ->); [done|].
  unfold onMove. cbn. by rewrite Hd.
Qed.

(** A drag moves the view by the displacement of the pointer.  After a
    press at [e0], any pointer moves, a last move to [e], the release, and
    any later moves, the pan is the pan at the press plus [e - e0]: the
    path in between does not matter, moves after the release do nothing,
    and the zoom is unchanged. *)
Theorem drag_pans_by_displacement s e0 ms r e e1 later :
  Forall is_move ms -> Forall is_move later ->
  let s' := foldl handle s (Down e0 :: ms ++ [Move (Some r) e; Up e1] ++ later) in
  pan s' = {| px := px (pan s) + (clientX e - clientX e0);
              py := py (pan s) + (clientY e - clientY e0) |} /\
  zoom s' = zoom s.
Proof.
  intros Hms Hl. cbn zeta. cbn [foldl handle]. rewrite !foldl_app. cbn [foldl handle].
  destruct (moves_while_dragging ms (onDown e0 s) Hms eq_refl) as (Hd & Hds & Hps & Hz).
  set (s1 := foldl handle (onDown e0 s) ms) in *.
  destruct (moves_while_idle later (onUp e1 (onMove (Some r) e s1)) Hl eq_refl) as [-> ->].
  unfold onUp, onMove. cbn [pan zoom]. rewrite Hd, Hds, Hps, Hz. done.
Qed.

Lemma drag_pans_by_displacement_witness :
  pan (foldl handle view0
         (Down {| clientX := 10; clientY := 10; deltaY := 0 |}
          :: [Move (Some {| r_left := 0; r_top := 0; r_width := 800; r_height := 600 |})
                {| clientX := 500; clientY := 7; deltaY := 0 |}]
          ++ [Move (Some {| r_left := 0; r_top := 0; r_width := 800; r_height := 600 |})
                {| clientX := 40; clientY := 30; deltaY := 0 |};
              Up {| clientX := 40; clientY := 30; deltaY := 0 |}] ++ []))
  = {| px := 0 + (40 - 10); py := 0 + (30 - 10) |}.
Proof.
  apply (drag_pans_by_displacement view0
           {| clientX := 10; clientY := 10; deltaY := 0 |}
           [Move (Some {| r_left := 0; r_top := 0; r_width := 800; r_height := 600 |})
              {| clientX := 500; clientY := 7; deltaY := 0 |}]
           {| r_left := 0; r_top := 0; r_width := 800; r_height := 600 |}
           {| clientX := 40; clientY := 30; deltaY := 0 |}
           {| clientX := 40; clientY := 30; deltaY := 0 |} []).
  - constructor; [exact I|constructor].
  - constructor.
Defined.

Lemma first_hit_before wx wy ns k n :
  ns !! k = Some n -> hit wx wy n = true ->
  exists k' n', first_hit wx wy ns = Some k' /\ (k' <= k)%nat /\
    ns !! k' = Some n' /\ hit wx wy n' = true.
Proof.
  revert k. induction ns as [|a ns IH]; intros k Hk Hh; [done|].
  cbn [first_hit]. destruct (hit wx wy a) eqn:Ha.
  - exists 0%nat, a. split_and!; [done|lia|done|done].
  - destruct k as [|k]; cbn in Hk; [congruence|].
    destruct (IH k Hk Hh) as (k' & n' & -> & Hle & Hn' & Hh').
    exists (S k'), n'. split_and!; [done|lia|done|done].
Qed.

(** A click inside the drawn circle of a started node selects a node.
    The circle of node [n] is drawn around [to_screen (n.x, n.y)] with the
    radius [zoom * n.cr]; a release at a canvas point within
    [zoom * (n.cr + 5)] of that centre, less than 5 px away from the press,
    selects [n] or a node before it in [nodes] that the same point hits. *)
Theorem click_inside_circle_hits s r e ns k n :
  reachable s -> ns !! k = Some n -> n_visible n = true ->
  Rabs (clientX e - px (dragStart s)) + Rabs (clientY e - py (dragStart s)) < 5 ->
  (clientX e - r_left r - px (to_screen s {| px := n_x n; py := n_y n |})) ^ 2 +
  (clientY e - r_top r - py (to_screen s {| px := n_x n; py := n_y n |})) ^ 2
    <= (zoom s * (n_cr n + 5)) ^ 2 ->
  exists k' n', click_target (Some r) e s ns = Some k' /\ (k' <= k)%nat /\
    ns !! k' = Some n' /\ n_visible n' = true.
Proof.
  intros Hr Hk Hv Hmv Hin. pose proof (reachable_zoom_range s Hr) as Hz.
  unfold click_target. destruct (Rlt_dec _ 5) as [_|Hn]; [|done].
  set (wx := (clientX e - r_left r - px (pan s)) / zoom s).
  set (wy := (clientY e - r_top r - py (pan s)) / zoom s).
  assert (hit wx wy n = true) as Hh.
  { unfold hit. rewrite Hv. cbn [andb]. destruct (Rle_dec _ _) as [_|Hno]; [done|].
    exfalso. apply Hno. cbn [to_screen px py] in Hin.
    set (dx := clientX e - r_left r - (px (pan s) + zoom s * n_x n)) in *.
    set (dy := clientY e - r_top r - (py (pan s) + zoom s * n_y n)) in *.
    assert (wx - n_x n = dx / zoom s) as -> by (unfold wx, dx; field; lra).
    assert (wy - n_y n = dy / zoom s) as -> by (unfold wy, dy; field; lra).
    assert (0 < zoom s ^ 2) as Hz2 by nra.
    apply (Rmult_le_reg_l (zoom s ^ 2)); [exact Hz2|].
    replace (zoom s ^ 2 * ((dx / zoom s) ^ 2 + (dy / zoom s) ^ 2))
      with (dx ^ 2 + dy ^ 2) by (field; lra).
    replace (zoom s ^ 2 * (n_cr n + 5) ^ 2) with ((zoom s * (n_cr n + 5)) ^ 2) by ring.
    exact Hin. }
  destruct (first_hit_before wx wy ns k n Hk Hh) as (k' & n' & Hf & Hle & Hn' & Hh').
  exists k', n'. split_and!; try done.
  unfold hit in Hh'. by apply andb_prop in Hh' as [? _].
Qed.

Lemma click_inside_circle_hits_witness :
  exists k' n',
    click_target (Some {| r_left := 0; r_top := 0; r_width := 800; r_height := 600 |})
      {| clientX := 100; clientY := 100; deltaY := 0 |}
      (foldl handle view0 [Down {| clientX := 100; clientY := 100; deltaY := 0 |}])
      [node_update 1 0 0 (node_start (new_GNode 0 "a.py" "a" TModule 100 100 0 24))]
    = Some k' /\ (k' <= 0)%nat /\
    [node_update 1 0 0 (node_start (new_GNode 0 "a.py" "a" TModule 100 100 0 24))] !! k'
    = Some n' /\ n_visible n' = true.
Proof.
  apply (click_inside_circle_hits
           (foldl handle view0 [Down {| clientX := 100; clientY := 100; deltaY := 0 |}])
           {| r_left := 0; r_top := 0; r_width := 800; r_height := 600 |}
           {| clientX := 100; clientY := 100; deltaY := 0 |}
           [node_update 1 0 0 (node_start (new_GNode 0 "a.py" "a" TModule 100 100 0 24))]
           0%nat
           (node_update 1 0 0 (node_start (new_GNode 0 "a.py" "a" TModule 100 100 0 24)))).
  - by exists [Down {| clientX := 100; clientY := 100; deltaY := 0 |}].
  - reflexivity.
  - reflexivity.
  - cbn. replace (100 - 100) with 0 by lra. rewrite Rabs_R0. lra.
  - cbn [node_update node_start new_GNode n_visible n_x n_y n_tx n_ty n_cr n_r n_t n_dur
         to_screen view0 pan zoom px py clientX clientY r_left r_top lerp
         foldl handle onDown].
    assert (Rmin 1 ((0 + 1) / 0.6) = 1) as -> by (apply Rmin_left; lra).
    assert (outBack 1 = 1) as -> by (unfold outBack; lra).
    unfold lerp.
    replace ((100 - 0 - (0 + 1 * 100)) ^ 2 +
             (100 - 0 - (0 + 1 * (100 - 50 + (100 - (100 - 50)) * 1))) ^ 2) with 0 by ring.
    apply pow2_ge_0.
Defined.

(** ** The entrance animations *)

(** The render loop calls [n.update(dt, mx, my)] on every node and
    [e.update(dt)] on every edge once per frame.  A frame is given by its
    [dt] and, for a node, the model point under the mouse. *)
Definition node_frames (fs : list (R * R * R)) (n : GNode) : GNode :=
  foldl (fun n f => node_update f.1.1 f.1.2 f.2 n) n fs.

Definition edge_frames (dts : list R) (e : GEdge) : GEdge :=
  foldl (fun e dt => edge_update dt e) e dts.

(** The time that a list of frames spans. *)
Definition total (dts : list R) : R := foldr Rplus 0 dts.

Lemma total_app a b : total (a ++ b) = total a + total b.
Proof. unfold total. induction a as [|x a IH]; cbn [foldr app]; lra. Qed.

Lemma total_nonneg dts : Forall (Rle 0) dts -> 0 <= total dts.
Proof.
  unfold total. induction 1 as [|x l Hx _ IH]; cbn [foldr]; lra.
Qed.

Lemma node_frames_started fs n :
  n_visible n = true ->
  n_visible (node_frames fs n) = true /\
  n_t (node_frames fs n) = n_t n + total ((fun f => f.1.1) <$> fs) /\
  n_tx (node_frames fs n) = n_tx n /\ n_ty (node_frames fs n) = n_ty n /\
  n_r (node_frames fs n) = n_r n /\ n_dur (node_frames fs n) = n_dur n.
Proof.
  revert n. induction fs as [|f fs IH]; intros n Hv.
  - cbn. split_and!; try done. lra.
  - cbn [node_frames foldl]. fold (node_frames fs (node_update f.1.1 f.1.2 f.2 n)).
    destruct (IH (node_update f.1.1 f.1.2 f.2 n)) as (-> & -> & -> & -> & -> & ->).
    { unfold node_update. by rewrite Hv. }
    unfold node_update. rewrite Hv. cbn. fold (total ((fun f => f.1.1) <$> fs)).
    split_and!; try done. lra.
Qed.

Lemma outElastic_1 : outElastic 1 = 1.
Proof.
  unfold outElastic. destruct (Req_dec_T 1 0) as [E|_]; [lra|].
  by destruct (Req_dec_T 1 1).
Qed.

Lemma outBack_1 : outBack 1 = 1.
Proof. unfold outBack. lra. Qed.

(** A started node comes to rest on its target.  Once the frames since
    [start()] span at least [dur] (0.6 s for every node that the builder
    makes), the node is drawn at [(tx, ty)] with its full radius [r] and
    full opacity, whatever the lengths of the frames were; the overshoot of
    [outBack] and the oscillation of [outElastic] are over. *)
Theorem node_settles n fs f :
  0 < n_dur n ->
  n_dur n <= total ((fun f => f.1.1) <$> (fs ++ [f])) ->
  let n' := node_frames (fs ++ [f]) (node_start n) in
  n_x n' = n_tx n /\ n_y n' = n_ty n /\ n_scale n' = 1 /\
  n_cr n' = n_r n /\ n_opacity n' = 1.
Proof.
  intros Hd Ht. cbn zeta. unfold node_frames. rewrite foldl_app. cbn [foldl].
  fold (node_frames fs (node_start n)).
  destruct (node_frames_started fs (node_start n) eq_refl)
    as (Hv & Htm & Htx & Hty & Hr & Hdur).
  rewrite fmap_app, total_app in Ht. cbn in Ht.
  unfold node_update. rewrite Hv. cbn [n_x n_y n_scale n_cr n_opacity].
  rewrite Htm, Htx, Hty, Hr, Hdur. cbn [node_start n_t n_tx n_ty n_r n_dur].
  assert (Rmin 1 ((0 + total ((fun f => f.1.1) <$> fs) + f.1.1) / n_dur n) = 1) as ->.
  { apply Rmin_left. apply (Rmult_le_reg_r (n_dur n)); [done|].
    unfold Rdiv. rewrite Rmult_assoc, Rinv_l by lra. lra. }
  rewrite outElastic_1, outBack_1. unfold lerp.
  split_and!; try lra. apply Rmin_left. lra.
Qed.

Lemma node_settles_witness :
  n_x (node_frames ([(0.3, 0, 0)] ++ [(0.3, 5, 5)])
         (node_start (new_GNode 0 "a.py" "a" TModule 100 200 0 24))) = 100 /\
  n_y (node_frames ([(0.3, 0, 0)] ++ [(0.3, 5, 5)])
         (node_start (new_GNode 0 "a.py" "a" TModule 100 200 0 24))) = 200.
Proof.
  destruct (node_settles (new_GNode 0 "a.py" "a" TModule 100 200 0 24)
              [(0.3, 0, 0)] (0.3, 5, 5)) as (Hx & Hy & _).
  - cbn. lra.
  - cbn. lra.
  - split; [exact Hx|exact Hy].
Defined.

Lemma outCubic_mono a b : a <= b -> outCubic a <= outCubic b.
Proof.
  intros Hab. unfold outCubic.
  assert (0 <= (1 - a) ^ 3 - (1 - b) ^ 3); [|lra].
  replace ((1 - a) ^ 3 - (1 - b) ^ 3)
    with ((b - a) * (((1 - a) + (1 - b) / 2) ^ 2 + 3 / 4 * (1 - b) ^ 2)) by field.
  pose proof (pow2_ge_0 ((1 - a) + (1 - b) / 2)). pose proof (pow2_ge_0 (1 - b)).
  apply Rmult_le_pos; lra.
Qed.

Lemma outCubic_range x : 0 <= x <= 1 -> 0 <= outCubic x <= 1.
Proof.
  intros Hx.
  assert (outCubic 0 = 0) as E0 by (unfold outCubic; ring).
  assert (outCubic 1 = 1) as E1 by (unfold outCubic; ring).
  pose proof (outCubic_mono 0 x (proj1 Hx)). pose proof (outCubic_mono x 1 (proj2 Hx)).
  lra.
Qed.

Lemma edge_frames_started dts e :
  e_visible e = true ->
  e_visible (edge_frames dts e) = true /\
  e_t (edge_frames dts e) = e_t e + total dts /\
  e_dur (edge_frames dts e) = e_dur e.
Proof.
  revert e. induction dts as [|dt dts IH]; intros e Hv.
  - cbn. split_and!; try done. lra.
  - cbn [edge_frames foldl]. fold (edge_frames dts (edge_update dt e)).
    destruct (IH (edge_update dt e)) as (-> & -> & ->).
    { unfold edge_update. by rewrite Hv. }
    unfold edge_update. rewrite Hv. cbn. fold (total dts).
    split_and!; try done. lra.
Qed.

(** The drawn length of a started edge as a function of the time since
    [start()], from the first frame on. *)
Definition progress_at (dur t : R) : R := Rmin 1 (outCubic (Rmin 1 (t / dur))).

Lemma edge_frames_progress dts e :
  dts <> [] ->
  e_progress (edge_frames dts (edge_start e)) = progress_at (e_dur e) (total dts).
Proof.
  destruct dts as [|x l] using rev_ind; [done|]. intros _.
  unfold edge_frames. rewrite foldl_app. cbn [foldl].
  fold (edge_frames l (edge_start e)).
  destruct (edge_frames_started l (edge_start e) eq_refl) as (Hv & Ht & Hd).
  unfold edge_update. rewrite Hv. cbn [e_progress]. rewrite Ht, Hd, total_app.
  cbn. unfold progress_at. do 3 f_equal. lra.
Qed.

Lemma progress_at_mono dur a b :
  0 < dur -> a <= b -> progress_at dur a <= progress_at dur b.
Proof.
  intros Hd Hab. unfold progress_at.
  apply Rle_min_compat_l, outCubic_mono, Rle_min_compat_l.
  apply Rmult_le_compat_r; [|done]. left. by apply Rinv_0_lt_compat.
Qed.

(** A started edge grows from its source to its target and never shrinks.
    After any frames of non-negative length the drawn fraction [progress]
    lies in [[0, 1]]; more frames never decrease it; and it is [1] once the
    frames span [dur] (0.5 s for every edge that the builder makes). *)
Theorem edge_progress_grows e dts more :
  0 < e_dur e -> dts <> [] -> Forall (Rle 0) dts -> Forall (Rle 0) more ->
  0 <= e_progress (edge_frames dts (edge_start e))
    <= e_progress (edge_frames (dts ++ more) (edge_start e)) /\
  e_progress (edge_frames (dts ++ more) (edge_start e)) <= 1 /\
  (e_dur e <= total dts -> e_progress (edge_frames dts (edge_start e)) = 1).
Proof.
  intros Hd Hne H1 H2.
  rewrite !edge_frames_progress by (try done; by destruct dts).
  pose proof (total_nonneg dts H1) as Ht1. pose proof (total_nonneg more H2) as Ht2.
  rewrite total_app. split_and!.
  - unfold progress_at.
    assert (0 <= total dts / e_dur e) as Hq.
    { apply Rmult_le_pos; [done|]. left. by apply Rinv_0_lt_compat. }
    assert (0 <= Rmin 1 (total dts / e_dur e) <= 1) as Hm.
    { split; [apply Rmin_glb; lra|apply Rmin_l]. }
    apply Rmin_glb; [lra|]. by apply outCubic_range.
  - apply progress_at_mono; [done|lra].
  - apply Rmin_l.
  - intros Hfull. unfold progress_at.
    assert (Rmin 1 (total dts / e_dur e) = 1) as ->.
    { apply Rmin_left. apply (Rmult_le_reg_r (e_dur e)); [done|].
      unfold Rdiv. rewrite Rmult_assoc, Rinv_l by lra. lra. }
    unfold outCubic. apply Rmin_left. lra.
Qed.

Lemma edge_progress_grows_witness :
  e_progress (edge_frames [0.25; 0.25]
                (edge_start (new_GEdge (Node 0) (Node 1) "imports" "#39d2c0" 0.2)))
  = 1.
Proof.
  destruct (edge_progress_grows (new_GEdge (Node 0) (Node 1) "imports" "#39d2c0" 0.2)
              [0.25; 0.25] [])
    as (_ & _ & Hfull).
  - cbn. lra.
  - done.
  - repeat constructor; lra.
  - constructor.
  - apply Hfull. cbn. lra.
Defined.

Lemma frame_dt_le lastT now : frame_dt lastT now <= 0.05.
Proof.
  unfold frame_dt. destruct lastT as [l|]; [|lra].
  destruct (Req_dec_T l 0); [lra|apply Rmin_r].
Qed.

(** A long pause between two frames does not skip the animation.  Whatever
    the timestamps that the browser hands to [tick], each frame advances a
    started node by at most 50 ms: after [k] frames its local time is at
    most [0.05 * k], so it cannot complete its entrance (600 ms) in fewer
    than twelve frames. *)
Theorem frames_advance_slowly lastT inputs n :
  n_t (node_frames (tick_frames lastT inputs) (node_start n))
  <= 0.05 * INR (length inputs).
Proof.
  destruct (node_frames_started (tick_frames lastT inputs) (node_start n) eq_refl)
    as (_ & -> & _).
  cbn [node_start n_t]. rewrite Rplus_0_l.
  revert lastT. induction inputs as [|[[now mx] my] rest IH]; intros lastT.
  - cbn. lra.
  - cbn [tick_frames fmap list_fmap length]. rewrite S_INR.
    change (total (?x :: ?l)) with (x + total l). cbn [fst].
    pose proof (frame_dt_le lastT now). specialize (IH (Some now)). 
    change (list_fmap _ _ ?f ?l) with (f <$> l). lra.
Qed.

(** ** Particles *)

Definition particles_frames (dts : list R) (ps : list Particle) : list Particle :=
  foldl (fun ps dt => particles_update dt ps) ps dts.

(** After at least one update, a particle that is still alive has a
    positive life, and its life has gone down by the time elapsed. *)
Lemma particles_frames_life L dts dt ps :
  Forall (fun p => p_life p <= L) ps ->
  Forall (fun p => p_alive p = true -> 0 < p_life p <= L - total (dts ++ [dt]))
         (particles_frames (dts ++ [dt]) ps).
Proof.
  intros Hps. unfold particles_frames. rewrite foldl_app. cbn [foldl].
  fold (particles_frames dts ps). rewrite total_app.
  assert (Forall (fun p => p_life p <= L - total dts) (particles_frames dts ps)) as Hl.
  { clear dt. induction dts as [|d dts IH] using rev_ind.
    - cbn. eapply Forall_impl; [exact Hps|]. intros p Hp. cbn in Hp. lra.
    - unfold particles_frames. rewrite foldl_app. cbn [foldl].
      fold (particles_frames dts ps). rewrite total_app.
      unfold particles_update. apply Forall_fmap, Forall_forall.
      intros p [_ Hp]%list_elem_of_filter.
      pose proof (proj1 (Forall_forall _ _) IH p Hp) as Hle. cbn in *. 
      unfold total in *. cbn [foldr]. lra. }
  unfold particles_update. apply Forall_fmap, Forall_forall.
  intros p [_ Hp]%list_elem_of_filter.
  pose proof (proj1 (Forall_forall _ _) Hl p Hp) as Hle. cbn in *.
  unfold total in *. cbn [foldr].
  destruct (Rle_dec (p_life p - dt) 0); [done|]. intros _. lra.
Qed.

Lemma filter_dead (ps : list Particle) :
  Forall (fun p => p_alive p = false) ps -> filter (fun p => p_alive p = true) ps = [].
Proof.
  induction 1 as [|p ps Hp _ IH]; [done|].
  rewrite filter_cons_False by congruence. exact IH.
Qed.

(** Particles do not pile up.  Once the frames span the longest life in
    the list, every particle is dead, and the next frame removes them all:
    without new emissions the list is empty. *)
Theorem particles_expire L dts dt d ps :
  Forall (fun p => p_life p <= L) ps -> L <= total (dts ++ [dt]) ->
  Forall (fun p => p_alive p = false) (particles_frames (dts ++ [dt]) ps) /\
  particles_frames ((dts ++ [dt]) ++ [d]) ps = [].
Proof.
  intros Hps HL.
  assert (Forall (fun p => p_alive p = false) (particles_frames (dts ++ [dt]) ps)) as Hdead.
  { eapply Forall_impl; [exact (particles_frames_life L dts dt ps Hps)|].
    intros p Hp. cbn in Hp. destruct (p_alive p); [|done]. specialize (Hp eq_refl). lra. }
  split; [exact Hdead|].
  unfold particles_frames at 1. rewrite foldl_app. cbn [foldl].
  fold (particles_frames (dts ++ [dt]) ps). unfold particles_update.
  by rewrite filter_dead.
Qed.

Lemma particles_expire_witness :
  particles_frames (([0.3] ++ [0.3]) ++ [0.016])
    (emit (fun _ => 0.5) 10 20 "#58a6ff" 5 2.5 0.4 2.5 []) = [].
Proof.
  apply (particles_expire 0.6 [0.3] 0.3 0.016
           (emit (fun _ => 0.5) 10 20 "#58a6ff" 5 2.5 0.4 2.5 [])).
  - repeat constructor; cbn; lra.
  - cbn. lra.
Defined.

End CodeMapFacts.

(** * Properties of the Visualizer *)

Module VisualizerFacts.
Import Visualizer.

Local Open Scope Z_scope.

(** ** Index transitions of the controller *)

Lemma showStep_out_of_range idx st :
  idx < 0 \/ len st <= idx -> showStep idx st = st.
Proof.
  intros Hr. unfold showStep.
  destruct (idx <? 0) eqn:E1; [done|]. destruct (idx >=? len st) eqn:E2; [done|].
  lia.
Qed.

Lemma showStep_in_range idx st :
  0 <= idx < len st ->
  showStep idx st =
  {| steps := steps st; curStep := idx; playing := playing st;
     playRef := playRef st; speed := speed st;
     svg := (fun d => foldl (trail (steps st) (Z.to_nat idx)) (dimAll d)
                        (seq 0 (S (Z.to_nat idx)))) <$> svg st;
     timers := timers st |}.
Proof.
  intros Hr. unfold showStep.
  destruct (idx <? 0) eqn:E1; [lia|]. destruct (idx >=? len st) eqn:E2; [lia|done].
Qed.

Lemma stepFwd_advances st :
  -1 <= curStep st -> curStep st + 1 < len st ->
  curStep (stepFwd st) = curStep st + 1 /\
  playing (stepFwd st) = false /\ playRef (stepFwd st) = false /\
  steps (stepFwd st) = steps st.
Proof.
  intros Hlo Hhi. unfold stepFwd. cbn [set_play curStep].
  change (len (set_play false st)) with (len st).
  destruct (curStep st + 1 <? len st) eqn:E; [|lia].
  rewrite showStep_in_range by (change (len (set_play false st)) with (len st); cbn; lia).
  done.
Qed.

Lemma stepFwd_at_end st :
  len st <= curStep st + 1 -> stepFwd st = set_play false st.
Proof.
  intros Hhi. unfold stepFwd. cbn [set_play curStep].
  change (len (set_play false st)) with (len st).
  destruct (curStep st + 1 <? len st) eqn:E; [lia|done].
Qed.

Lemma play_restarts st :
  playing st = false -> 0 < len st -> len st - 1 <= curStep st ->
  curStep (togglePlay st) = 0 /\ playing (togglePlay st) = true /\
  playRef (togglePlay st) = true /\
  timers (togglePlay st) = timers st ++ [(1, speed st)].
Proof.
  intros Hp Hl Hc. unfold togglePlay. rewrite Hp.
  destruct (curStep st >=? len st - 1) eqn:E; [|lia].
  unfold playLoop, loop_from. cbn [set_playRef set_playing playRef andb].
  change (len (set_playRef true (set_playing true st))) with (len st).
  destruct (0 <? len st) eqn:E0; [|lia].
  rewrite showStep_in_range
    by (change (len (set_playRef true (set_playing true st))) with (len st); lia).
  done.
Qed.

Lemma play_continues st :
  playing st = false -> -1 <= curStep st < len st - 1 ->
  curStep (togglePlay st) = curStep st + 1 /\ playing (togglePlay st) = true /\
  playRef (togglePlay st) = true /\
  timers (togglePlay st) = timers st ++ [(curStep st + 2, speed st)].
Proof.
  intros Hp Hc. unfold togglePlay. rewrite Hp.
  destruct (curStep st >=? len st - 1) eqn:E; [lia|].
  unfold playLoop, loop_from. cbn [set_playRef set_playing playRef andb curStep].
  change (len (set_playRef true (set_playing true st))) with (len st).
  destruct (curStep st + 1 <? len st) eqn:E0; [|lia].
  rewrite showStep_in_range
    by (change (len (set_playRef true (set_playing true st))) with (len st); lia).
  cbn. split_and!; try done. do 3 f_equal. lia.
Qed.

(** What [resetAll] leaves on the elements it selects. *)
Definition neutral_node (e : element) : Prop :=
  s_opacity (el_style e) = "1" /\ s_filter (el_style e) = "none".

Definition neutral_stroke (p : part) : Prop :=
  s_opacity (p_style p) = "0.7" /\ s_stroke (p_style p) = EmptyString /\
  s_strokeWidth (p_style p) = EmptyString /\
  s_strokeDasharray (p_style p) = EmptyString /\
  s_animation (p_style p) = EmptyString.

Lemma resetAll_neutral d e :
  e ∈ resetAll d ->
  (is_node e = true -> neutral_node e) /\
  (is_edge e = true -> forall p, p ∈ el_parts e -> path_polygon (p_tag p) = true ->
                       neutral_stroke p).
Proof.
  unfold resetAll. intros (e0 & -> & He0)%list_elem_of_fmap.
  unfold is_node, is_edge. destruct (el_class e0) eqn:Hc; cbn; rewrite ?Hc.
  - split; [done|]. intros ?. done.
  - split; [done|]. intros _ p (p0 & -> & Hp0)%list_elem_of_fmap Ht.
    destruct (path_polygon (p_tag p0)) eqn:E; [done|]. by rewrite E in Ht.
  - split; intros ?; done.
Qed.

Lemma reset_index st :
  curStep (reset st) = -1 /\ playing (reset st) = false /\
  playRef (reset st) = false /\ steps (reset st) = steps st /\
  svg (reset st) = resetAll <$> svg st.
Proof. done. Qed.

(** ** The trail that [showStep] paints on the nodes *)

Lemma find_id_ids pat (d1 d2 : diagram) :
  el_id <$> d1 = el_id <$> d2 -> find_id pat d1 = find_id pat d2.
Proof.
  revert d2. induction d1 as [|e1 d1 IH]; intros [|e2 d2] Hids; try done.
  cbn in Hids. injection Hids as Hid Hids. cbn. rewrite Hid.
  destruct (includes pat (el_id e2)); [done|]. by rewrite (IH d2).
Qed.

Lemma find_id_lt pat (d : diagram) n : find_id pat d = Some n -> (n < length d)%nat.
Proof.
  revert n. induction d as [|e d IH]; intros n Hn; [done|]. cbn in Hn.
  destruct (includes pat (el_id e)).
  - injection Hn as <-. cbn. lia.
  - destruct (find_id pat d) as [m|]; [|done]. injection Hn as <-.
    cbn. specialize (IH m eq_refl). lia.
Qed.

Lemma alter_twice {A} (f g : A -> A) n (l : list A) :
  alter f n (alter g n l) = alter (fun x => f (g x)) n l.
Proof.
  revert n. induction l as [|x l IH]; intros [|n]; cbn; try done. by rewrite IH.
Qed.

Lemma ids_alter_style f n (d : diagram) :
  el_id <$> alter (with_style f) n d = el_id <$> d.
Proof.
  rewrite (list_fmap_alter el_id (with_style f) (fun x => x)).
  - by apply list_alter_id.
  - by apply Forall_forall.
Qed.

Lemma styles_alter_style f n (d : diagram) :
  el_style <$> alter (with_style f) n d = alter f n (el_style <$> d).
Proof. apply list_fmap_alter. by apply Forall_forall. Qed.

Lemma ids_dimAll d : el_id <$> dimAll d = el_id <$> d.
Proof.
  unfold dimAll. rewrite <- list_fmap_compose. apply list_fmap_ext.
  intros i e _. cbn. by destruct (is_node e), (is_edge e).
Qed.

Lemma ids_glowEdge a b d : el_id <$> glowEdge a b d = el_id <$> d.
Proof.
  unfold glowEdge. rewrite <- list_fmap_compose. apply list_fmap_ext.
  intros i e _. cbn. by destruct (edge_matches a b e).
Qed.

Lemma styles_glowEdge a b d : el_style <$> glowEdge a b d = el_style <$> d.
Proof.
  unfold glowEdge. rewrite <- list_fmap_compose. apply list_fmap_ext.
  intros i e _. cbn. by destruct (edge_matches a b e).
Qed.

Lemma ids_glowNode s k d : el_id <$> glowNode s k d = el_id <$> d.
Proof.
  unfold glowNode. destruct (querySelector s d); [|done]. apply ids_alter_style.
Qed.

(** The style that the loop body of [showStep] writes on the node of step
    [i] while showing step [idx]. *)
Definition step_style (idx i : nat) (kind : string) (s : style) : style :=
  if Nat.eqb i idx
  then {| s_opacity := "1"; s_filter := glow_filter kind;
          s_transition := "all 0.3s ease";
          s_stroke := s_stroke s; s_strokeWidth := s_strokeWidth s;
          s_strokeDasharray := s_strokeDasharray s; s_animation := s_animation s;
          s_cursor := s_cursor s |}
  else {| s_opacity := "0.5"; s_filter := s_filter s; s_transition := s_transition s;
          s_stroke := s_stroke s; s_strokeWidth := s_strokeWidth s;
          s_strokeDasharray := s_strokeDasharray s; s_animation := s_animation s;
          s_cursor := s_cursor s |}.

(** The element styles after one pass of the loop body. *)
Definition trail_styles (all : list Step) (idx : nat) (d : diagram)
    (sty : list style) (i : nat) : list style :=
  match all !! i with
  | None => sty
  | Some s =>
      match querySelector (sid s) d with
      | None => sty
      | Some n => alter (step_style idx i (kind s)) n sty
      end
  end.

Lemma ids_trail all idx d i : el_id <$> trail all idx d i = el_id <$> d.
Proof.
  unfold trail. destruct (all !! i) as [s|]; [|done].
  set (d1 := match querySelector (sid s) d with Some _ => _ | None => _ end).
  assert (el_id <$> d1 = el_id <$> d) as Hd1.
  { unfold d1. destruct (querySelector (sid s) d) as [n|]; [|done].
    destruct (Nat.eqb i idx); [rewrite ids_glowNode|]; apply ids_alter_style. }
  destruct (truthy (parent s)) as [p|]; [|done].
  destruct (find_step all p) as [ps|]; [|done].
  by rewrite ids_glowEdge.
Qed.

Lemma styles_trail all idx d i :
  el_style <$> trail all idx d i = trail_styles all idx d (el_style <$> d) i.
Proof.
  unfold trail, trail_styles. destruct (all !! i) as [s|]; [|done].
  set (d1 := match querySelector (sid s) d with Some _ => _ | None => _ end).
  assert (el_style <$> d1 =
          match querySelector (sid s) d with
          | Some n => alter (step_style idx i (kind s)) n (el_style <$> d)
          | None => el_style <$> d
          end) as Hd1.
  { unfold d1. destruct (querySelector (sid s) d) as [n|] eqn:Hq; [|done].
    unfold step_style. destruct (Nat.eqb i idx).
    - unfold glowNode, querySelector.
      rewrite (find_id_ids _ _ d) by apply ids_alter_style.
      fold (querySelector (sid s) d). rewrite Hq.
      rewrite !styles_alter_style, alter_twice. by apply list_alter_ext.
    - by rewrite styles_alter_style. }
  destruct (truthy (parent s)) as [p|]; [|done].
  destruct (find_step all p) as [ps|]; [|done].
  by rewrite styles_glowEdge.
Qed.

(** The whole loop, seen on ids and on element styles. *)
Lemma loop_ids_styles all idx d l :
  el_id <$> foldl (trail all idx) d l = el_id <$> d /\
  el_style <$> foldl (trail all idx) d l
  = foldl (trail_styles all idx d) (el_style <$> d) l.
Proof.
  induction l as [|i l IH] using rev_ind; [done|].
  rewrite !foldl_snoc. destruct IH as [Hid Hst].
  split; [by rewrite ids_trail|].
  rewrite styles_trail, Hst. unfold trail_styles.
  destruct (all !! i) as [s|]; [|done].
  unfold querySelector. by rewrite (find_id_ids _ _ d Hid).
Qed.

Section Trail.

Variable all : list Step.
Variable idx : nat.
Variable d : diagram.
Variable sty0 : list style.
Hypothesis Hlen : length sty0 = length d.

Let painted (k : nat) : list style :=
  foldl (trail_styles all idx d) sty0 (seq 0 k).

Lemma painted_length k : length (painted k) = length d.
Proof.
  unfold painted. induction k as [|k IH]; [done|].
  rewrite seq_S, foldl_snoc. cbn [Nat.add]. unfold trail_styles at 1.
  destruct (all !! k) as [s|]; [|done].
  destruct (querySelector (sid s) d); [|done]. by rewrite length_alter.
Qed.

(** A style that no pass below [k] addressed is as it was. *)
Lemma painted_untouched k p :
  (forall j s, (j < k)%nat -> all !! j = Some s -> querySelector (sid s) d <> Some p) ->
  painted k !! p = sty0 !! p.
Proof.
  unfold painted. induction k as [|k IH]; intros Hno; [done|].
  rewrite seq_S, foldl_snoc. cbn [Nat.add]. unfold trail_styles at 1.
  destruct (all !! k) as [s|] eqn:Hk;
    [|apply IH; intros j s' ? ?; apply (Hno j s'); [lia|done]].
  destruct (querySelector (sid s) d) as [n|] eqn:Hq;
    [|apply IH; intros j s' ? ?; apply (Hno j s'); [lia|done]].
  rewrite list_lookup_alter_ne.
  - apply IH. intros j s' ? ?. apply (Hno j s'); [lia|done].
  - intros ->. by apply (Hno k s); [lia| |].
Qed.

(** A style that a pass below [k] addressed has opacity 0.5 or 1. *)
Lemma painted_trail k j s p :
  (j < k)%nat -> all !! j = Some s -> querySelector (sid s) d = Some p ->
  exists st, painted k !! p = Some st /\ (s_opacity st = "0.5" \/ s_opacity st = "1").
Proof.
  unfold painted. induction k as [|k IH]; intros Hj Hs Hq; [lia|].
  rewrite seq_S, foldl_snoc. cbn [Nat.add]. fold (painted k).
  assert (p < length (painted k))%nat as Hp.
  { rewrite painted_length. by eapply find_id_lt. }
  apply lookup_lt_is_Some_2 in Hp as [st0 Hst0].
  unfold trail_styles at 1.
  destruct (decide (j = k)) as [->|Hne].
  - rewrite Hs, Hq, list_lookup_alter_eq, Hst0. cbn.
    eexists. split; [done|]. unfold step_style. destruct (Nat.eqb k idx); cbn; auto.
  - destruct (IH ltac:(lia) Hs Hq) as (st1 & Hst1 & Hop). fold (painted k) in Hst1.
    destruct (all !! k) as [s'|]; [|eauto].
    destruct (querySelector (sid s') d) as [n|]; [|eauto].
    destruct (decide (n = p)) as [->|Hnp].
    + rewrite list_lookup_alter_eq, Hst0. cbn.
      eexists. split; [done|]. unfold step_style. destruct (Nat.eqb k idx); cbn; auto.
    + rewrite list_lookup_alter_ne by done. eauto.
Qed.

(** The style that the last pass addressed carries the glow. *)
Lemma painted_current s p :
  all !! idx = Some s -> querySelector (sid s) d = Some p ->
  exists st, painted (S idx) !! p = Some st /\
    s_opacity st = "1" /\ s_filter st = glow_filter (kind s).
Proof.
  intros Hs Hq. unfold painted.
  rewrite seq_S, foldl_snoc. cbn [Nat.add]. fold (painted idx).
  assert (p < length (painted idx))%nat as Hp.
  { rewrite painted_length. by eapply find_id_lt. }
  apply lookup_lt_is_Some_2 in Hp as [st0 Hst0].
  unfold trail_styles. rewrite Hs, Hq, list_lookup_alter_eq, Hst0. cbn.
  eexists. split; [done|]. unfold step_style. by rewrite Nat.eqb_refl.
Qed.

End Trail.

Lemma dimAll_node d p e :
  d !! p = Some e -> is_node e = true ->
  exists st, (el_style <$> dimAll d) !! p = Some st /\
    s_opacity st = "0.2" /\ s_filter st = "none".
Proof.
  intros Hp Hn. unfold dimAll. rewrite !list_lookup_fmap, Hp. cbn. rewrite Hn.
  eexists. by split.
Qed.

(** The trail on the nodes.  After [showStep(i)] on a rendered diagram: the
    element that the sid of a step [j <= i] selects has opacity 0.5 or 1; the
    element that the sid of step [i] selects has opacity 1 and the glow of
    the step's kind; and a node that no sid of a step [j <= i] selects has
    the opacity 0.2 and no filter. *)
Lemma showStep_trail st d i :
  svg st = Some d -> 0 <= i < len st ->
  exists d', svg (showStep i st) = Some d' /\ curStep (showStep i st) = i /\
    el_id <$> d' = el_id <$> d /\
    (forall j s p, (j <= Z.to_nat i)%nat -> steps st !! j = Some s ->
       querySelector (sid s) d = Some p ->
       exists e, d' !! p = Some e /\
         (s_opacity (el_style e) = "0.5" \/ s_opacity (el_style e) = "1")) /\
    (forall s p, steps st !! Z.to_nat i = Some s ->
       querySelector (sid s) d = Some p ->
       exists e, d' !! p = Some e /\ s_opacity (el_style e) = "1" /\
         s_filter (el_style e) = glow_filter (kind s)) /\
    (forall p e0, d !! p = Some e0 -> is_node e0 = true ->
       (forall j s, (j <= Z.to_nat i)%nat -> steps st !! j = Some s ->
          querySelector (sid s) d <> Some p) ->
       exists e, d' !! p = Some e /\ s_opacity (el_style e) = "0.2" /\
         s_filter (el_style e) = "none").
Proof.
  intros Hsvg Hi. rewrite showStep_in_range by done. cbn [svg curStep]. rewrite Hsvg.
  cbn [fmap option_fmap option_map].
  set (idx := Z.to_nat i).
  set (d' := foldl (trail (steps st) idx) (dimAll d) (seq 0 (S idx))).
  destruct (loop_ids_styles (steps st) idx (dimAll d) (seq 0 (S idx))) as [Hid Hst].
  fold d' in Hid, Hst. rewrite ids_dimAll in Hid.
  assert (forall s, querySelector s (dimAll d) = querySelector s d) as Hq.
  { intros s. unfold querySelector. apply find_id_ids, ids_dimAll. }
  assert (length (el_style <$> dimAll d) = length (dimAll d)) as Hlen
    by apply length_fmap.
  assert (forall p st0, (el_style <$> d') !! p = Some st0 ->
            exists e, d' !! p = Some e /\ el_style e = st0) as Hback.
  { intros p st0 Hp. rewrite list_lookup_fmap in Hp.
    destruct (d' !! p) as [e|]; [|done]. cbn in Hp. injection Hp as <-. eauto. }
  exists d'. split_and!; try done.
  - intros j s p Hj Hs Hp. rewrite <- Hq in Hp.
    destruct (painted_trail (steps st) idx (dimAll d) _ Hlen (S idx) j s p
                ltac:(lia) Hs Hp) as (st0 & Hst0 & Hop).
    rewrite <- Hst in Hst0. destruct (Hback p st0 Hst0) as (e & He & <-). eauto.
  - intros s p Hs Hp. rewrite <- Hq in Hp.
    destruct (painted_current (steps st) idx (dimAll d) _ Hlen s p Hs Hp)
      as (st0 & Hst0 & Hop).
    rewrite <- Hst in Hst0. destruct (Hback p st0 Hst0) as (e & He & <-). eauto.
  - intros p e0 Hp Hn Hno.
    destruct (dimAll_node d p e0 Hp Hn) as (st0 & Hst0 & Hop).
    rewrite <- (painted_untouched (steps st) idx (dimAll d) _ Hlen (S idx) p) in Hst0.
    + rewrite <- Hst in Hst0. destruct (Hback p st0 Hst0) as (e & He & <-). eauto.
    + intros j s Hj Hs. rewrite Hq. apply (Hno j s); [lia|done].
Qed.

(** ** The edges that [showStep] leaves dimmed *)

(** Same element up to its own style. *)
Definition same_shape (e e' : element) : Prop :=
  el_id e' = el_id e /\ el_class e' = el_class e /\ el_parts e' = el_parts e.

(** The two sids that the loop body hands to [glowEdge] for step [i]. *)
Definition step_pair (all : list Step) (i : nat) : option (string * string) :=
  s ← all !! i; q ← truthy (parent s); ps ← find_step all q; Some (sid ps, sid s).

Lemma alter_style_shape f n (d : diagram) p e :
  d !! p = Some e -> exists e', alter (with_style f) n d !! p = Some e' /\ same_shape e e'.
Proof.
  intros Hp. destruct (decide (n = p)) as [->|Hne].
  - rewrite list_lookup_alter_eq, Hp. by eexists.
  - rewrite list_lookup_alter_ne, Hp by done. by eexists.
Qed.

Lemma glowNode_shape s k (d : diagram) p e :
  d !! p = Some e -> exists e', glowNode s k d !! p = Some e' /\ same_shape e e'.
Proof.
  intros Hp. unfold glowNode. destruct (querySelector s d).
  - by apply alter_style_shape.
  - by exists e.
Qed.

Lemma edge_matches_shape a b e e' :
  same_shape e e' -> edge_matches a b e' = edge_matches a b e.
Proof. intros (Hid & Hc & _). unfold edge_matches, is_edge. by rewrite Hid, Hc. Qed.

Lemma same_shape_trans e1 e2 e3 : same_shape e1 e2 -> same_shape e2 e3 -> same_shape e1 e3.
Proof. intros (? & ? & ?) (? & ? & ?). unfold same_shape. split_and!; congruence. Qed.

Lemma trail_shape all idx (d : diagram) i p e :
  d !! p = Some e ->
  (forall a b, step_pair all i = Some (a, b) -> edge_matches a b e = false) ->
  exists e', trail all idx d i !! p = Some e' /\ same_shape e e'.
Proof.
  intros Hp Hno. unfold trail. unfold step_pair in Hno.
  destruct (all !! i) as [s|]; [|by exists e]. cbn in Hno.
  set (d1 := match querySelector (sid s) d with Some _ => _ | None => _ end).
  assert (exists e1, d1 !! p = Some e1 /\ same_shape e e1) as (e1 & Hp1 & Hs1).
  { unfold d1. destruct (querySelector (sid s) d) as [n|]; [|by exists e].
    destruct (alter_style_shape
                (fun st => {| s_opacity := if Nat.eqb i idx then "1" else "0.5";
                              s_filter := s_filter st; s_transition := s_transition st;
                              s_stroke := s_stroke st; s_strokeWidth := s_strokeWidth st;
                              s_strokeDasharray := s_strokeDasharray st;
                              s_animation := s_animation st;
                              s_cursor := s_cursor st |}) n d p e Hp)
      as (e1 & Hp1 & Hs1).
    destruct (Nat.eqb i idx); [|eauto].
    destruct (glowNode_shape (sid s) (kind s) _ p e1 Hp1) as (e2 & Hp2 & Hs2).
    exists e2. split; [done|]. by eapply same_shape_trans. }
  destruct (truthy (parent s)) as [q|]; [|eauto]. cbn in Hno.
  destruct (find_step all q) as [ps|]; [|eauto]. cbn in Hno.
  exists e1. split; [|done]. unfold glowEdge. rewrite list_lookup_fmap, Hp1. cbn.
  by rewrite (edge_matches_shape _ _ e e1 Hs1), (Hno _ _ eq_refl).
Qed.

Lemma loop_shape all idx l (d : diagram) p e :
  d !! p = Some e ->
  (forall i a b, i ∈ l -> step_pair all i = Some (a, b) -> edge_matches a b e = false) ->
  exists e', foldl (trail all idx) d l !! p = Some e' /\ same_shape e e'.
Proof.
  intros Hp. induction l as [|i l IH] using rev_ind; intros Hno; [by exists e|].
  rewrite foldl_snoc.
  destruct IH as (e1 & Hp1 & Hs1).
  { intros j a b Hj. apply Hno. apply elem_of_app. by left. }
  destruct (trail_shape all idx _ i p e1 Hp1) as (e2 & Hp2 & Hs2).
  { intros a b Hab. rewrite (edge_matches_shape _ _ e e1 Hs1).
    apply (Hno i a b); [|done]. apply elem_of_app. right. by apply list_elem_of_singleton. }
  exists e2. split; [done|]. by eapply same_shape_trans.
Qed.

(** After [showStep(i)], an edge whose id no pair of sids of a step
    [j <= i] matches has its paths, polygons and markers at opacity 0.08. *)
Lemma showStep_edges st d i p e0 :
  svg st = Some d -> 0 <= i < len st ->
  d !! p = Some e0 -> is_edge e0 = true ->
  (forall j a b, (j <= Z.to_nat i)%nat -> step_pair (steps st) j = Some (a, b) ->
     edge_matches a b e0 = false) ->
  exists d' e, svg (showStep i st) = Some d' /\ d' !! p = Some e /\
    el_id e = el_id e0 /\
    forall q, q ∈ el_parts e -> path_polygon_marker (p_tag q) = true ->
      s_opacity (p_style q) = "0.08".
Proof.
  intros Hsvg Hi Hp He Hno. rewrite showStep_in_range by done. cbn [svg]. rewrite Hsvg.
  cbn [fmap option_fmap option_map].
  set (e1 := with_parts path_polygon_marker (fun s =>
         {| s_opacity := "0.08"; s_filter := s_filter s; s_transition := "all 0.4s ease";
            s_stroke := s_stroke s; s_strokeWidth := s_strokeWidth s;
            s_strokeDasharray := s_strokeDasharray s; s_animation := s_animation s;
            s_cursor := s_cursor s |}) e0).
  assert (dimAll d !! p = Some e1) as Hp1.
  { unfold dimAll. rewrite list_lookup_fmap, Hp. cbn.
    unfold is_node, is_edge in *. by destruct (el_class e0). }
  destruct (loop_shape (steps st) (Z.to_nat i) (seq 0 (S (Z.to_nat i))) _ p e1 Hp1)
    as (e & Hpe & Hid & Hc & Hparts).
  { intros j a b Hj Hab. apply elem_of_seq in Hj.
    change (edge_matches a b e1) with (edge_matches a b e0).
    apply (Hno j a b); [lia|done]. }
  eexists _, e. split_and!; try done.
  intros q Hq Ht. rewrite Hparts in Hq. cbn in Hq.
  apply list_elem_of_fmap in Hq as (q0 & -> & Hq0).
  destruct (path_polygon_marker (p_tag q0)) eqn:E; [done|]. by rewrite E in Ht.
Qed.

(** ** Cancelling a play loop *)

(** While [playRef] and [playing] are both off, a suspended loop that
    resumes only disappears from the list of suspended loops. *)
Lemma wake_while_cancelled k st :
  playRef st = false -> playing st = false ->
  steps (wake k st) = steps st /\ curStep (wake k st) = curStep st /\
  svg (wake k st) = svg st /\ playing (wake k st) = false /\
  playRef (wake k st) = false /\ speed (wake k st) = speed st.
Proof.
  intros Hr Hp. unfold wake. destruct (timers st !! k) as [[i delay]|]; [|done].
  unfold loop_from. cbn [set_timers playRef]. rewrite Hr. cbn [andb].
  destruct (i >=? _); cbn; by rewrite ?Hp.
Qed.

(** [Pause], [StepForward] and [Reset] switch both flags off. *)
Lemma cancel_flags st c :
  (c = TogglePlay /\ playing st = true) \/ c = StepForward \/ c = Reset ->
  playRef (exec st c) = false /\ playing (exec st c) = false.
Proof.
  intros [[-> Hp]|[->| ->]]; cbn [exec].
  - unfold togglePlay. by rewrite Hp.
  - unfold stepFwd. cbn [set_play curStep].
    destruct (_ <? _); [|done]. unfold showStep.
    by destruct (_ || _).
  - done.
Qed.

(** So the stale wake-up right after a cancelling command changes nothing
    but the list of suspended loops. *)
Lemma wake_after_cancel st c k :
  (c = TogglePlay /\ playing st = true) \/ c = StepForward \/ c = Reset ->
  let st1 := exec st c in
  steps (wake k st1) = steps st1 /\ curStep (wake k st1) = curStep st1 /\
  svg (wake k st1) = svg st1 /\ playing (wake k st1) = playing st1 /\
  playRef (wake k st1) = playRef st1.
Proof.
  intros Hc st1. destruct (cancel_flags st c Hc) as [Hr Hp].
  destruct (wake_while_cancelled k st1 Hr Hp) as (? & ? & ? & ? & ? & ?).
  fold st1 in Hr, Hp. by rewrite Hr, Hp.
Qed.

(** ** Concrete traces and diagrams *)

Definition blank : style :=
  {| s_opacity := EmptyString; s_filter := EmptyString; s_transition := EmptyString;
     s_stroke := EmptyString; s_strokeWidth := EmptyString;
     s_strokeDasharray := EmptyString; s_animation := EmptyString;
     s_cursor := EmptyString |}.

Definition node_el (id : string) : element :=
  {| el_id := id; el_class := NodeClass; el_style := blank; el_parts := [] |}.

Definition edge_el (id : string) (tags : list tag) : element :=
  {| el_id := id; el_class := EdgeClass; el_style := blank;
     el_parts := (fun t => {| p_tag := t; p_style := blank |}) <$> tags |}.

(** Id and opacity of every element, with tag and opacity of its parts. *)
Definition opacities (d : diagram) : list (string * string * list (tag * string)) :=
  (fun e => (el_id e, s_opacity (el_style e),
             (fun p => (p_tag p, s_opacity (p_style p))) <$> el_parts e)) <$> d.

Definition mk_step (i : Z) (s : string) (p : option Z) (k : string) : Step :=
  {| step_id := i; sid := s; parent := p; kind := k;
     step_label := EmptyString; line := i |}.

(** Two steps [n1 -> n2] on a diagram whose edge has a path and a marker. *)
Definition two_steps : list Step :=
  [mk_step 1 "n1" None "start"; mk_step 2 "n2" (Some 1) "call"].

Definition two_nodes : diagram :=
  [edge_el "L-n1-n2-0" [PathTag; MarkerTag];
   node_el "flowchart-n1-0"; node_el "flowchart-n2-1"].

(** Three steps where the sid of the third extends the sid of the second. *)
Definition three_steps : list Step :=
  [mk_step 1 "n1" None "start"; mk_step 2 "n2" (Some 1) "call";
   mk_step 3 "n20" (Some 1) "call"].

Definition three_nodes : diagram :=
  [edge_el "L-n1-n2-0" [PathTag]; edge_el "L-n1-n20-0" [PathTag];
   node_el "flowchart-n1-0"; node_el "flowchart-n2-1"; node_el "flowchart-n20-2"].

(** The walk through two steps: forward to 0, forward to 1 with [n1] on the
    trail and [n2] glowing, and a third forward that changes nothing. *)
Example two_steps_walk :
  let st1 := run [StepForward] (load two_steps two_nodes mounted) in
  let st2 := run [StepForward; StepForward] (load two_steps two_nodes mounted) in
  let st3 := run [StepForward; StepForward; StepForward]
               (load two_steps two_nodes mounted) in
  curStep st1 = 0 /\ curStep st2 = 1 /\ st3 = st2 /\
  opacities <$> svg st2
  = Some [("L-n1-n2-0", EmptyString, [(PathTag, "1"); (MarkerTag, "0.08")]);
          ("flowchart-n1-0", "0.5", []); ("flowchart-n2-1", "1", [])].
Proof. by vm_compute. Qed.

(** ** C1: Reset and the markers *)

(** C1, at a diagram whose edge carries a marker.  After one step forward
    and [Reset] the index is [-1], both nodes are back at opacity [1] and the
    path of the edge at [0.7], but the marker, which had no opacity of its
    own before the step and which [dimAll] dimmed, keeps the opacity [0.08]:
    [resetAll] does not select it. *)
Theorem reset_leaves_marker_dimmed :
  let st0 := load two_steps two_nodes mounted in
  let st := run [StepForward; Reset] st0 in
  opacities <$> svg st0
  = Some [("L-n1-n2-0", EmptyString, [(PathTag, "0.7"); (MarkerTag, EmptyString)]);
          ("flowchart-n1-0", EmptyString, []); ("flowchart-n2-1", EmptyString, [])] /\
  curStep st = -1 /\ playing st = false /\
  opacities <$> svg st
  = Some [("L-n1-n2-0", EmptyString, [(PathTag, "0.7"); (MarkerTag, "0.08")]);
          ("flowchart-n1-0", "1", []); ("flowchart-n2-1", "1", [])].
Proof. by vm_compute. Qed.

(** ** C2: the edge of a later step *)

(** C2, at a trace whose third sid [n20] contains the second sid [n2].
    Showing step 1 leaves the node of step 2 dimmed at [0.2], but the edge of
    step 2, [L-n1-n20-0], is taken by [glowEdge('n1', 'n2')] and gets full
    opacity. *)
Theorem later_edge_glows :
  let st := run [ShowStep 1] (load three_steps three_nodes mounted) in
  curStep st = 1 /\
  opacities <$> svg st
  = Some [("L-n1-n2-0", EmptyString, [(PathTag, "1")]);
          ("L-n1-n20-0", EmptyString, [(PathTag, "1")]);
          ("flowchart-n1-0", "0.5", []); ("flowchart-n2-1", "1", []);
          ("flowchart-n20-2", "0.2", [])].
Proof. by vm_compute. Qed.

(** ** C3: a stale wake-up after Play was pressed again *)

(** C3, at the commands Play, StepForward, Play on three steps.  The loop
    started by the first Play is still suspended with [i = 1]; StepForward
    cancelled it, but the second Play set [playRef] again.  When its timer
    fires the index goes from 2 back to 1. *)
Theorem stale_wake_moves_index :
  let st := run [TogglePlay; StepForward; TogglePlay]
              (load three_steps three_nodes mounted) in
  curStep st = 2 /\ playing st = true /\ timers st = [(1, 800); (3, 800)] /\
  curStep (wake 0 st) = 1 /\ timers (wake 0 st) = [(3, 800); (2, 800)].
Proof. by vm_compute. Qed.

(** ** C10: the speed slider *)

(** C10, as the code has it.  For a value [v] that the slider can report,
    the per-step delay becomes [2200 - v], that is the slider minimum plus
    the slider maximum minus [v]; it lies between 200 and 2000 ms, the slider
    then shows [v] again, a smaller [v] gives a longer delay, and the next
    play loop arms its timer with this delay. *)
Theorem slider_delay v st :
  slider_accepts v ->
  let st' := onChange v st in
  speed st' = sliderMin + sliderMax - v /\
  200 <= speed st' <= 2000 /\
  slider_value st' = v /\
  (forall v2, v < v2 -> speed (onChange v2 st) < speed st') /\
  (forall i, 0 <= i < len st ->
     timers (playLoop i st') = timers st ++ [(i + 1, 2200 - v)]).
Proof.
  intros [Hv _] st'. unfold sliderMin, sliderMax in *. cbn.
  split_and!; try lia.
  - unfold slider_value. cbn. lia.
  - intros i Hi. unfold playLoop, loop_from. cbn [set_playRef playRef andb].
    change (len (set_playRef true st')) with (len st).
    destruct (i <? len st) eqn:E; [|lia].
    rewrite showStep_in_range by (change (len (set_playRef true st')) with (len st); lia).
    done.
Qed.

Lemma slider_delay_witness :
  slider_accepts 1400 /\ speed (onChange 1400 mounted) = 800 /\
  200 <= speed (onChange 1400 mounted) <= 2000.
Proof.
  assert (slider_accepts 1400) as Ha by (by vm_compute).
  destruct (slider_delay 1400 mounted Ha) as (Hs & Hr & _).
  split; [exact Ha|]. split; [exact Hs|exact Hr].
Defined.

(** At the slider maximum the delay is 200 ms, not the maximum minus the
    value. *)
Lemma slider_max_counterexample :
  slider_accepts 2000 /\ speed (onChange 2000 mounted) = 200 /\
  speed (onChange 2000 mounted) <> sliderMax - 2000.
Proof. split; [by vm_compute|]. split; [done|]. by vm_compute. Qed.

(** ** Invariants of the controller *)

Definition index_ok (st : state) : Prop := curStep st = -1 \/ 0 <= curStep st < len st.

Definition inv (st : state) : Prop := playing st = playRef st /\ index_ok st.

Lemma showStep_inv idx st : inv st -> inv (showStep idx st).
Proof.
  intros [Hf Hi]. unfold showStep.
  destruct ((idx <? 0) || (idx >=? len st)) eqn:E; [done|].
  apply orb_false_elim in E as [E1 E2]. split; [done|]. right.
  unfold len in *. cbn [curStep steps]. lia.
Qed.

Lemma loop_from_inv i st : inv st -> inv (loop_from i st).
Proof.
  intros Hst. unfold loop_from. destruct (playRef st && (i <? len st)).
  - exact (showStep_inv i st Hst).
  - destruct (i >=? len st); [|done]. destruct Hst as [_ Hi]. by split.
Qed.

Lemma clickNode_inv nid st : inv st -> inv (clickNode nid st).
Proof.
  intros Hst. unfold clickNode. destruct (findIndex _ _); [|done].
  by apply showStep_inv.
Qed.

(** Every command but the last stretch of a load keeps the index inside the
    steps. *)
Lemma exec_inv st c : (forall all d, c <> LoadDone all d) -> inv st -> inv (exec st c).
Proof.
  intros Hc Hst. destruct c as [| | |idx|k|v|all d|nid| | |all d|]; cbn [exec].
  - unfold togglePlay. destruct (playing st) eqn:Hp.
    + destruct Hst as [_ Hi]. by split.
    + apply loop_from_inv. destruct Hst as [_ Hi]. by split.
  - unfold stepFwd.
    assert (inv (set_play false st)) as H1 by (destruct Hst as [_ Hi]; by split).
    destruct (_ <? _); [by apply showStep_inv|done].
  - split; [done|by left].
  - by apply showStep_inv.
  - unfold wake. destruct (timers st !! k) as [[i delay]|]; [|done].
    by apply loop_from_inv.
  - done.
  - split; [done|by left].
  - by apply clickNode_inv.
  - split; [done|by left].
  - done.
  - by destruct (Hc all d).
  - done.
Qed.

(** The two flags alone. *)
Definition flags_ok (st : state) : Prop := playing st = playRef st.

Lemma loadDone_flags all d st : flags_ok st -> flags_ok (loadDone all d st).
Proof. done. Qed.

Lemma exec_flags st c : flags_ok st -> flags_ok (exec st c).
Proof.
  intros Hst. destruct c as [| | |idx|k|v|all d|nid| | |all d|]; cbn [exec]; try done.
  - unfold togglePlay. destruct (playing st); [done|].
    unfold playLoop, loop_from. destruct (_ && _); [|by destruct (_ >=? _)].
    unfold showStep. by destruct (_ || _).
  - unfold stepFwd. destruct (_ <? _); [|done].
    unfold showStep. by destruct (_ || _).
  - unfold showStep. by destruct (_ || _).
  - unfold wake. destruct (timers st !! k) as [[i delay]|]; [|done].
    unfold loop_from. cbn [set_timers playRef len steps].
    destruct (_ && _); [|by destruct (_ >=? _)].
    unfold showStep. by destruct (_ || _).
  - unfold clickNode. destruct (findIndex _ _); [|done].
    unfold showStep. by destruct (_ || _).
Qed.

Lemma run_flags cs st : flags_ok st -> flags_ok (run cs st).
Proof.
  revert st. induction cs as [|c cs IH]; intros st Hst; [done|].
  apply (IH (exec st c)). by apply exec_flags.
Qed.

Lemma inv_mounted : inv mounted.
Proof. split; [done|by left]. Qed.

(** The Play/Pause button tells the truth.  After any sequence of
    commands and timer firings, the React state [playing], which the button
    shows, equals [playRef.current], which the play loops test before they
    advance. *)
Theorem flags_agree cs : playing (run cs mounted) = playRef (run cs mounted).
Proof. exact (run_flags cs mounted eq_refl). Qed.

(** *** Loads and clicks *)

(** Whether a load is under way after a command, given whether one was
    under way before it; [None] when the command comes at a moment that the
    lists of commands considered below leave out.  Left out are: the buttons
    and the showing of a step, by a click or otherwise, while a load is
    under way; and the last stretch of a load when none is under way. *)
Definition after (pending : bool) (c : command) : option bool :=
  match c with
  | LoadStart => Some true
  | LoadClear | Wake _ | Speed _ => Some pending
  | LoadDone _ _ => if pending then Some false else None
  | LoadFail | Load _ _ => Some false
  | TogglePlay | StepForward | Reset | ShowStep _ | Click _ =>
      if pending then None else Some false
  end.

(** No step is shown while a load is under way. *)
Fixpoint quiet (pending : bool) (cs : list command) : bool :=
  match cs with
  | [] => true
  | c :: cs' =>
      match after pending c with
      | Some pending' => quiet pending' cs'
      | None => false
      end
  end.

(** While a load is under way the index is still [-1] and no loop runs. *)
Definition held (pending : bool) (st : state) : Prop :=
  inv st /\ (pending = true -> curStep st = -1 /\ playRef st = false).

Lemma exec_held pending pending' c st :
  after pending c = Some pending' -> held pending st -> held pending' (exec st c).
Proof.
  intros Ha [Hinv Hp]. destruct pending.
  - destruct (Hp eq_refl) as [Hc Hr].
    assert (playing st = false) as Hpl by (destruct Hinv as [-> _]; exact Hr).
    destruct c as [| | |idx|k|v|all d|nid| | |all d|]; cbn in Ha; try done;
      apply (inj Some) in Ha as <-; cbn [exec].
    + destruct (wake_while_cancelled k st Hr Hpl) as (Hs & Hcur & _ & Hp' & Hr' & _).
      split; [|intros _; by rewrite Hcur].
      split; [by rewrite Hp', Hr'|]. left. by rewrite Hcur.
    + split; [|done]. split; [done|by left].
    + split; [|done]. split; [done|by left].
    + split; [|done]. split; [by destruct Hinv|left; exact Hc].
  - assert (inv (exec st c)) as Hinv'.
    { apply exec_inv; [|done]. intros all d ->. done. }
    split; [exact Hinv'|]. intros ->.
    destruct c as [| | |idx|k|v|all d|nid| | |all d|]; cbn in Ha; done.
Qed.

Lemma run_held cs pending st :
  quiet pending cs = true -> held pending st -> index_ok (run cs st).
Proof.
  revert pending st. induction cs as [|c cs IH]; intros pending st Hq Hst.
  - exact (proj2 (proj1 Hst)).
  - cbn [quiet] in Hq. destruct (after pending c) as [pending'|] eqn:Ha; [|done].
    apply (IH pending' (exec st c) Hq). by eapply exec_held.
Qed.

(** The step index stays inside the list of steps as long as no step is
    shown while a load is under way.  After any such sequence of commands,
    clicks, timer firings and loads, [curStep] is [-1] or the index of a
    step: the step shown in the info bar exists, and the progress bar
    [(curStep + 1) / steps.length] stays between 0 and 1. *)
Theorem index_in_range cs :
  quiet false cs = true ->
  curStep (run cs mounted) = -1 \/
  (0 <= curStep (run cs mounted) < len (run cs mounted) /\
   is_Some (steps (run cs mounted) !! Z.to_nat (curStep (run cs mounted)))).
Proof.
  intros Hq.
  destruct (run_held cs false mounted Hq) as [Hi|Hi]; [|by left|right].
  { split; [exact inv_mounted|done]. }
  split; [done|]. apply lookup_lt_is_Some. unfold len in Hi. lia.
Qed.

(** A load of three steps, then a second load, of two steps, during which a
    timer fires, and a click on the second node of the new diagram. *)
Lemma index_in_range_witness :
  let cs := [Load three_steps three_nodes; LoadStart; Wake 0; LoadClear;
             LoadDone two_steps two_nodes; Click "flowchart-n2-1"] in
  quiet false cs = true /\ curStep (run cs mounted) = 1 /\
  is_Some (steps (run cs mounted) !! 1%nat).
Proof.
  intros cs. split; [reflexivity|].
  destruct (index_in_range cs eq_refl) as [Hi|[_ Hs]]; [discriminate Hi|].
  split; [reflexivity|exact Hs].
Defined.

(** A click that lands while a load is under way.  The diagram of three
    steps is still in the page when the second load has started; a click on
    its third node passes the test of [showStep] against the three steps
    and sets the index to 2; the load then stores its two steps without
    touching the index, which now points past the end of the list. *)
Lemma click_during_load :
  let cs := [Load three_steps three_nodes; LoadStart; Click "flowchart-n20-2";
             LoadClear; LoadDone two_steps two_nodes] in
  quiet false cs = false /\
  curStep (run cs mounted) = 2 /\ len (run cs mounted) = 2 /\
  steps (run cs mounted) !! Z.to_nat (curStep (run cs mounted)) = None.
Proof. by vm_compute. Qed.

(** ** A playback from start to end *)

Lemma loop_from_fields i st :
  playRef st = true -> 0 <= i < len st ->
  curStep (loop_from i st) = i /\ playing (loop_from i st) = playing st /\
  playRef (loop_from i st) = true /\
  timers (loop_from i st) = timers st ++ [(i + 1, speed st)] /\
  steps (loop_from i st) = steps st /\ speed (loop_from i st) = speed st.
Proof.
  intros Hr Hi. unfold loop_from. rewrite Hr. cbn [andb].
  destruct (i <? len st) eqn:E; [|lia].
  by rewrite showStep_in_range.
Qed.

Lemma loop_from_end i st : len st <= i -> loop_from i st = set_play false st.
Proof.
  intros Hi. unfold loop_from.
  destruct (i <? len st) eqn:E; [lia|]. rewrite andb_false_r.
  destruct (i >=? len st) eqn:E2; [done|lia].
Qed.

(** Where [togglePlay] starts the loop. *)
Definition play_start (st : state) : Z :=
  if curStep st >=? len st - 1 then 0 else curStep st + 1.

Lemma run_snoc cs c st : run (cs ++ [c]) st = exec (run cs st) c.
Proof. unfold run. by rewrite foldl_snoc. Qed.

Lemma play_step st k :
  playing st = false -> timers st = [] -> 0 < len st -> -1 <= curStep st ->
  Z.of_nat k < len st - play_start st ->
  let st' := run (TogglePlay :: replicate k (Wake 0)) st in
  curStep st' = play_start st + Z.of_nat k /\ playing st' = true /\
  playRef st' = true /\
  timers st' = [(play_start st + Z.of_nat k + 1, speed st)] /\
  steps st' = steps st /\ speed st' = speed st.
Proof.
  intros Hp Ht Hl Hc.
  assert (0 <= play_start st < len st) as Hs.
  { unfold play_start. destruct (curStep st >=? len st - 1) eqn:E; lia. }
  induction k as [|k IH]; intros Hk st'.
  - subst st'. cbn [replicate run foldl exec]. unfold togglePlay. rewrite Hp.
    fold (play_start st). unfold playLoop.
    destruct (loop_from_fields (play_start st) (set_playRef true (set_playing true st)))
      as (-> & -> & -> & -> & -> & ->); [done| |].
    { by change (len (set_playRef true (set_playing true st))) with (len st). }
    cbn. rewrite Ht, Z.add_0_r. done.
  - subst st'. rewrite replicate_S_end, app_comm_cons, run_snoc.
    destruct IH as (Hcur & Hpl & Hrf & Htm & Hst & Hsp); [lia|].
    set (sk := run (TogglePlay :: replicate k (Wake 0)) st) in *. clearbody sk.
    cbn [exec]. unfold wake. rewrite Htm. cbn [lookup list_lookup].
    destruct (loop_from_fields (play_start st + Z.of_nat k + 1)
                (set_timers (delete 0%nat [(play_start st + Z.of_nat k + 1, speed st)]) sk))
      as (-> & -> & -> & -> & -> & ->); [done| |].
    { change (len (set_timers _ sk)) with (len sk). unfold len in *. rewrite Hst. lia. }
    cbn. rewrite Hpl, Hst, Hsp. split_and!; try done; [lia|]. do 2 f_equal. lia.
Qed.

(** Play runs to the last step and stops by itself, when the sids of the
    steps are plain.  From a paused controller with no timer pending,
    [Play] followed by the firing of its timer shows the steps one by one,
    starting after the current step (or at step 0 when the current step is
    the last one); when the timer has fired once per step shown, the index
    is the last step, both flags are off again and no timer is left. *)
Theorem play_runs_to_end st :
  Forall (fun s => plain_sid (sid s) = true) (steps st) ->
  playing st = false -> timers st = [] -> 0 < len st -> -1 <= curStep st ->
  let n := Z.to_nat (len st - play_start st) in
  (forall k, (k < n)%nat ->
     curStep (run (TogglePlay :: replicate k (Wake 0)) st) = play_start st + Z.of_nat k /\
     playing (run (TogglePlay :: replicate k (Wake 0)) st) = true) /\
  curStep (run (TogglePlay :: replicate n (Wake 0)) st) = len st - 1 /\
  playing (run (TogglePlay :: replicate n (Wake 0)) st) = false /\
  playRef (run (TogglePlay :: replicate n (Wake 0)) st) = false /\
  timers (run (TogglePlay :: replicate n (Wake 0)) st) = [].
Proof.
  intros _ Hp Ht Hl Hc n.
  assert (0 <= play_start st < len st) as Hs.
  { unfold play_start. destruct (curStep st >=? len st - 1) eqn:E; lia. }
  split.
  - intros k Hk.
    destruct (play_step st k Hp Ht Hl Hc) as (? & ? & _); [lia|done].
  - destruct n as [|m] eqn:En; [lia|].
    rewrite replicate_S_end, app_comm_cons, run_snoc.
    destruct (play_step st m Hp Ht Hl Hc) as (Hcur & Hpl & Hrf & Htm & Hst & Hsp); [lia|].
    set (sm := run (TogglePlay :: replicate m (Wake 0)) st) in *. clearbody sm.
    cbn [exec]. unfold wake. rewrite Htm. cbn [lookup list_lookup].
    rewrite loop_from_end.
    + cbn. split_and!; try done. lia.
    + change (len (set_timers _ sm)) with (len sm). unfold len in *. rewrite Hst. lia.
Qed.

Lemma play_runs_to_end_witness :
  curStep (run (TogglePlay :: replicate 3 (Wake 0)) (run [Load three_steps three_nodes] mounted))
  = 2 /\
  playing (run (TogglePlay :: replicate 3 (Wake 0)) (run [Load three_steps three_nodes] mounted))
  = false.
Proof.
  destruct (play_runs_to_end (run [Load three_steps three_nodes] mounted))
    as (_ & Hc & Hp & _);
    [by repeat constructor|reflexivity|reflexivity|reflexivity|by cbn|].
  split; [exact Hc|exact Hp].
Defined.

(** ** Timers that fire after a cancellation *)

Lemma wakes_while_cancelled ks st :
  playRef st = false -> playing st = false ->
  steps (run (Wake <$> ks) st) = steps st /\ curStep (run (Wake <$> ks) st) = curStep st /\
  svg (run (Wake <$> ks) st) = svg st /\ playing (run (Wake <$> ks) st) = false /\
  playRef (run (Wake <$> ks) st) = false /\ speed (run (Wake <$> ks) st) = speed st.
Proof.
  revert st. induction ks as [|k ks IH]; intros st Hr Hp; [done|].
  destruct (wake_while_cancelled k st Hr Hp) as (H1 & H2 & H3 & H4 & H5 & H6).
  cbn [fmap list_fmap run foldl exec]. fold (run (Wake <$> ks) (wake k st)).
  destruct (IH (wake k st) H5 H4) as (-> & -> & -> & -> & -> & ->). done.
Qed.

Lemma wake_cancelled_timers st :
  playRef st = false -> timers (wake 0 st) = tail (timers st).
Proof.
  intros Hr. unfold wake. destruct (timers st) as [|[i delay] l] eqn:E; [cbn; by rewrite E|].
  cbn [lookup list_lookup]. unfold loop_from. cbn [set_timers playRef]. rewrite Hr.
  cbn [andb]. by destruct (i >=? _).
Qed.

Lemma drain_cancelled n st :
  playRef st = false -> playing st = false -> length (timers st) = n ->
  timers (run (replicate n (Wake 0)) st) = [].
Proof.
  revert st. induction n as [|n IH]; intros st Hr Hp Hn.
  - cbn. by destruct (timers st).
  - cbn [replicate run foldl exec]. fold (run (replicate n (Wake 0)) (wake 0 st)).
    destruct (wake_while_cancelled 0 st Hr Hp) as (_ & _ & _ & H4 & H5 & _).
    apply IH; [done|done|]. rewrite wake_cancelled_timers by done.
    destruct (timers st); cbn in *; lia.
Qed.

(** Pause, Step and Reset really stop the playback unless Play is pressed
    again.  After one of these commands, the timers of the suspended loops
    may fire in any order and any number of times: steps, index, diagram and
    flags stay as the command left them; and once every pending timer has
    fired no loop is left. *)
Theorem cancelled_loops_die st c ks :
  (c = TogglePlay /\ playing st = true) \/ c = StepForward \/ c = Reset ->
  steps (run (Wake <$> ks) (exec st c)) = steps (exec st c) /\
  curStep (run (Wake <$> ks) (exec st c)) = curStep (exec st c) /\
  svg (run (Wake <$> ks) (exec st c)) = svg (exec st c) /\
  playing (run (Wake <$> ks) (exec st c)) = false /\
  playRef (run (Wake <$> ks) (exec st c)) = false /\
  timers (run (replicate (length (timers (exec st c))) (Wake 0)) (exec st c)) = [].
Proof.
  intros Hc. destruct (cancel_flags st c Hc) as [Hr Hp].
  destruct (wakes_while_cancelled ks (exec st c) Hr Hp) as (? & ? & ? & ? & ? & _).
  split_and!; try done. by apply drain_cancelled.
Qed.

Lemma cancelled_loops_die_witness :
  curStep (run (Wake <$> [0; 0; 1]%nat)
             (exec (run [Load three_steps three_nodes; TogglePlay] mounted) StepForward))
  = 1 /\
  playing (run (Wake <$> [0; 0; 1]%nat)
             (exec (run [Load three_steps three_nodes; TogglePlay] mounted) StepForward))
  = false.
Proof.
  destruct (cancelled_loops_die (run [Load three_steps three_nodes; TogglePlay] mounted)
              StepForward [0; 0; 1]%nat) as (_ & Hc & _ & Hp & _); [by right; left|].
  split; [by rewrite Hc|exact Hp].
Defined.

(** ** Clicks on the nodes of the diagram *)

Lemma findIndex_first {A} (p : A -> bool) (l : list A) i a :
  l !! i = Some a -> p a = true ->
  exists j b, findIndex p l = Some j /\ (j <= i)%nat /\ l !! j = Some b /\ p b = true /\
    forall k c, (k < j)%nat -> l !! k = Some c -> p c = false.
Proof.
  revert i. induction l as [|x l IH]; intros i Hi Ha; [done|].
  cbn [findIndex]. destruct (p x) eqn:Ex.
  - exists 0%nat, x. split_and!; try done; [lia|]. intros k c Hk. lia.
  - destruct i as [|i]; cbn in Hi; [congruence|].
    destruct (IH i Hi Ha) as (j & b & -> & Hle & Hb & Hpb & Hbefore).
    exists (S j), b. split_and!; try done; [lia|].
    intros [|k] c Hk Hc; cbn in Hc; [congruence|]. apply (Hbefore k c); [lia|done].
Qed.

(** A click on a node of the diagram shows the first step that visits it,
    when the sids of the steps are plain.  When the id of the clicked
    element holds the pattern of some step, the index moves to the first
    step of the list whose pattern the id holds; a node that the flow visits
    again later is always shown at its first visit. *)
Theorem click_shows_first_visit st nid i s :
  Forall (fun s => plain_sid (sid s) = true) (steps st) ->
  steps st !! i = Some s ->
  includes ("flowchart-" +:+ sid s +:+ "-") nid = true ->
  exists j s', (j <= i)%nat /\ steps st !! j = Some s' /\
    includes ("flowchart-" +:+ sid s' +:+ "-") nid = true /\
    (forall k s'', (k < j)%nat -> steps st !! k = Some s'' ->
       includes ("flowchart-" +:+ sid s'' +:+ "-") nid = false) /\
    clickNode nid st = showStep (Z.of_nat j) st /\
    curStep (clickNode nid st) = Z.of_nat j.
Proof.
  intros _ Hi Hs.
  destruct (findIndex_first (fun s => includes ("flowchart-" +:+ sid s +:+ "-") nid)
              (steps st) i s Hi Hs) as (j & s' & Hf & Hle & Hj & Hp & Hbefore).
  exists j, s'. unfold clickNode. rewrite Hf. split_and!; try done.
  rewrite showStep_in_range; [done|].
  apply lookup_lt_Some in Hj. unfold len. lia.
Qed.

(** A flow that comes back to its first node. *)
Definition loop_steps : list Step :=
  [mk_step 1 "n1" None "start"; mk_step 2 "n2" (Some 1) "call";
   mk_step 3 "n1" (Some 2) "loop"].

Lemma click_shows_first_visit_witness :
  curStep (clickNode "flowchart-n1-0" (load loop_steps two_nodes mounted)) = 0.
Proof.
  destruct (click_shows_first_visit (load loop_steps two_nodes mounted) "flowchart-n1-0"
              2%nat (mk_step 3 "n1" (Some 2) "loop")
              ltac:(by repeat constructor) eq_refl eq_refl)
    as (j & s' & Hle & Hj & Hp & Hbefore & _ & ->).
  destruct j as [|[|j]]; [done| |].
  - cbn in Hj. apply (inj Some) in Hj as <-. discriminate Hp.
  - specialize (Hbefore 0%nat (mk_step 1 "n1" None "start") ltac:(lia) eq_refl).
    discriminate Hbefore.
Defined.

(** ** Loading Mermaid *)

Lemma poll_spec avail fuel i :
  (i <= poll avail fuel i <= i + fuel)%nat /\
  (forall k, (i <= k < poll avail fuel i)%nat -> avail k = false) /\
  ((poll avail fuel i < i + fuel)%nat -> avail (poll avail fuel i) = true).
Proof.
  revert i. induction fuel as [|fuel IH]; intros i; cbn [poll].
  - split_and!; [lia|lia|intros; lia|lia].
  - destruct (avail i) eqn:E.
    + split_and!; [lia|lia|intros; lia|done].
    + destruct (IH (S i)) as ([H1 H2] & H3 & H4). split_and!; [lia|lia| |].
      * intros k Hk. destruct (decide (k = i)) as [->|Hne]; [done|]. apply H3. lia.
      * intros Hlt. apply H4. lia.
Qed.

(** [initMermaid] gives up after 40 waits of 150 ms, six seconds, and not
    before: it throws exactly when [window.mermaid] was unset at each of the
    41 times it was read; otherwise it returns at the first read that finds
    it, after as many waits as reads that did not. *)
Theorem initMermaid_waits ready avail :
  ((initMermaid ready avail).1 <= 40)%nat /\
  ((initMermaid ready avail).2 = NotLoaded <->
   forall k, (k <= 40)%nat -> avail k = false) /\
  ((initMermaid ready avail).2 <> NotLoaded ->
   avail (initMermaid ready avail).1 = true /\
   forall k, (k < (initMermaid ready avail).1)%nat -> avail k = false).
Proof.
  unfold initMermaid. destruct (ready && avail 0%nat) eqn:E.
  - apply andb_prop in E as [_ E0]. cbn. split_and!; [lia| |].
    + split; [done|]. intros Hall. rewrite Hall in E0 by lia. done.
    + intros _. split; [done|]. intros k Hk. lia.
  - cbn zeta. destruct (poll_spec avail 40 0) as ([_ Hle] & Hbefore & Hfound).
    set (w := poll avail 40 0) in *. clearbody w.
    destruct (avail w) eqn:Ew; cbn [fst snd].
    + split_and!; [lia| |].
      * split; [done|]. intros Hall. rewrite Hall in Ew by lia. done.
      * intros _. split; [done|]. intros k Hk. apply Hbefore. lia.
    + split_and!; [lia| |done].
      split; [|done]. intros _ k Hk.
      destruct (decide (k = w)) as [->|Hne]; [done|].
      apply Hbefore. split; [lia|].
      destruct (decide (w < 40)%nat) as [Hlt|Hge]; [|lia].
      by specialize (Hfound ltac:(lia)).
Qed.

(** ** Zoom of the diagram *)

Section ZoomFacts.

Local Open Scope R_scope.

Lemma Int_part_le a b : a <= b -> (Int_part a <= Int_part b)%Z.
Proof.
  intros Hab. destruct (base_Int_part a) as [Ha _], (base_Int_part b) as [_ Hb].
  assert (IZR (Int_part a) < IZR (Int_part b + 1)) as Hlt by (rewrite plus_IZR; lra).
  apply lt_IZR in Hlt. lia.
Qed.

Lemma round_tenth_mono a b : a <= b -> round_tenth a <= round_tenth b.
Proof.
  intros Hab. unfold round_tenth.
  assert (IZR (Int_part (a * 10 + / 2)) <= IZR (Int_part (b * 10 + / 2))); [|lra].
  apply IZR_le, Int_part_le. lra.
Qed.

Lemma round_tenth_grid k : round_tenth (IZR k / 10) = IZR k / 10.
Proof.
  unfold round_tenth. rewrite <- (Int_part_spec (IZR k / 10 * 10 + / 2) k); [done|lra].
Qed.

Lemma toFixed1_nonneg x : 0 <= x -> toFixed1 x = round_tenth x.
Proof. intros Hx. unfold toFixed1. destruct (Rlt_dec x 0); [lra|done]. Qed.

Lemma toFixed1_grid k : (0 <= k)%Z -> toFixed1 (IZR k / 10) = IZR k / 10.
Proof.
  intros Hk. apply IZR_le in Hk. rewrite toFixed1_nonneg by lra. apply round_tenth_grid.
Qed.

Lemma toFixed1_mono a b : 0 <= a <= b -> toFixed1 a <= toFixed1 b.
Proof.
  intros [Ha Hab]. rewrite !toFixed1_nonneg by lra. by apply round_tenth_mono.
Qed.

Lemma ideal_range m : 0.3 <= ideal m <= 1.5.
Proof.
  unfold ideal. split; [apply Rmax_l|]. apply Rmax_lub; [lra|apply Rmin_r].
Qed.

Lemma zoom_exec_range z c : 0.3 <= z <= 3 -> 0.3 <= zoom_exec z c <= 3.
Proof.
  intros Hz. destruct c as [| |[m|]|ck mk dy]; cbn [zoom_exec fitView].
  - unfold zoomIn. split; [|apply Rmin_l]. apply Rmin_glb; [lra|].
    replace 0.3 with (5 / 10 - 0.2) by lra.
    pose proof (toFixed1_grid 5 ltac:(lia)) as H5.
    pose proof (toFixed1_mono (5 / 10) (z + 0.2) ltac:(lra)). lra.
  - unfold zoomOut. split; [apply Rmax_l|]. apply Rmax_lub; [lra|].
    pose proof (toFixed1_grid 28 ltac:(lia)) as H28.
    pose proof (toFixed1_mono (z - 0.2) (28 / 10) ltac:(lra)). lra.
  - pose proof (ideal_range m). lra.
  - done.
  - unfold onWheel. destruct (ck || mk); [|done].
    split; [apply Rmax_l|]. apply Rmax_lub; [lra|apply Rmin_l].
Qed.

(** The zoom of the diagram never leaves [[0.3, 3]], whatever the order of
    the zoom buttons, the fit button (and the automatic fit after a
    rendering) and the wheel, with or without Ctrl. *)
Theorem diagram_zoom_range cs : 0.3 <= foldl zoom_exec 1 cs <= 3.
Proof.
  assert (forall z, 0.3 <= z <= 3 -> 0.3 <= foldl zoom_exec z cs <= 3) as Hall.
  { induction cs as [|c cs IH]; intros z Hz; [done|].
    cbn [foldl]. by apply IH, zoom_exec_range. }
  apply Hall. lra.
Qed.

(** On the grid of tenths the zoom buttons are exact steps of 0.2 that
    stop at 3 and at 0.3, and undo each other away from the two ends. *)
Theorem zoom_buttons_step k :
  (3 <= k <= 30)%Z ->
  zoomIn (IZR k / 10) = IZR (Z.min 30 (k + 2)) / 10 /\
  zoomOut (IZR k / 10) = IZR (Z.max 3 (k - 2)) / 10 /\
  ((k <= 28)%Z -> zoomOut (zoomIn (IZR k / 10)) = IZR k / 10) /\
  ((5 <= k)%Z -> zoomIn (zoomOut (IZR k / 10)) = IZR k / 10).
Proof.
  intros Hk.
  assert (forall j, (3 <= j <= 30)%Z ->
            zoomIn (IZR j / 10) = IZR (Z.min 30 (j + 2)) / 10) as Hin.
  { intros j Hj. unfold zoomIn.
    replace (IZR j / 10 + 0.2) with (IZR (j + 2) / 10) by (rewrite plus_IZR; lra).
    rewrite toFixed1_grid by lia.
    assert (IZR 3 <= IZR j <= IZR 30) as Hj' by (split; apply IZR_le; lia).
    destruct (Z.min_spec 30 (j + 2)) as [[Hlt ->]|[Hle ->]].
    - apply IZR_lt in Hlt. rewrite Rmin_left by lra. lra.
    - apply IZR_le in Hle. rewrite Rmin_right by lra. done. }
  assert (forall j, (3 <= j <= 30)%Z ->
            zoomOut (IZR j / 10) = IZR (Z.max 3 (j - 2)) / 10) as Hout.
  { intros j Hj. unfold zoomOut.
    replace (IZR j / 10 - 0.2) with (IZR (j - 2) / 10) by (rewrite minus_IZR; lra).
    rewrite toFixed1_grid by lia.
    destruct (Z.max_spec 3 (j - 2)) as [[Hlt ->]|[Hle ->]].
    - apply IZR_lt in Hlt. rewrite Rmax_right by lra. done.
    - apply IZR_le in Hle. rewrite Rmax_left by lra. lra. }
  split_and!; [by apply Hin|by apply Hout| |].
  - intros Hk'. rewrite Hin, Z.min_r, Hout, Z.max_r by lia. do 2 f_equal. lia.
  - intros Hk'. rewrite Hout, Z.max_r, Hin, Z.min_r by lia. do 2 f_equal. lia.
Qed.

Lemma zoom_buttons_step_witness :
  zoomIn (IZR 10 / 10) = IZR (Z.min 30 (10 + 2)) / 10 /\
  zoomOut (zoomIn (IZR 10 / 10)) = IZR 10 / 10.
Proof.
  destruct (zoom_buttons_step 10) as (Hin & _ & Hrt & _); [lia|].
  split; [exact Hin|apply Hrt; lia].
Defined.

Lemma or_else_pos a b : 0 <= a -> 0 < b -> 0 < or_else a b.
Proof. intros Ha Hb. unfold or_else. destruct (Req_dec_T a 0); lra. Qed.

(** The fit button fits.  With non-negative measures, the zoom that
    [fitView] sets lies in [[0.3, 1.5]], and unless it is the minimum 0.3
    the scaled diagram leaves 20 px of the container free in both
    directions. *)
Theorem fitView_fits m z :
  0 <= bbox_width m -> 0 <= bbox_height m ->
  0 <= scrollWidth m -> 0 <= scrollHeight m ->
  0.3 <= fitView (Some m) z <= 1.5 /\
  (0.3 < fitView (Some m) z ->
   fitView (Some m) z * fit_w m <= cr_width m - 20 /\
   fitView (Some m) z * fit_h m <= cr_height m - 20).
Proof.
  intros Hbw Hbh Hsw Hsh. cbn [fitView]. split; [apply ideal_range|].
  assert (0 < fit_w m) as Hw by (apply or_else_pos; [done|apply or_else_pos; [done|lra]]).
  assert (0 < fit_h m) as Hh by (apply or_else_pos; [done|apply or_else_pos; [done|lra]]).
  unfold ideal.
  set (a := (cr_width m - 20) / fit_w m). set (b := (cr_height m - 20) / fit_h m).
  intros Hgt.
  assert (Rmax 0.3 (Rmin (Rmin a b) 1.5) = Rmin (Rmin a b) 1.5) as E.
  { apply Rmax_right. destruct (Rle_dec 0.3 (Rmin (Rmin a b) 1.5)) as [?|Hn]; [done|].
    rewrite Rmax_left in Hgt by lra. lra. }
  rewrite E in *.
  pose proof (Rmin_l (Rmin a b) 1.5). pose proof (Rmin_l a b). pose proof (Rmin_r a b).
  assert (a * fit_w m = cr_width m - 20) as <- by (unfold a; field; lra).
  assert (b * fit_h m = cr_height m - 20) as <- by (unfold b; field; lra).
  split; apply Rmult_le_compat_r; lra.
Qed.

Lemma fitView_fits_witness :
  0.3 <= fitView (Some {| cr_width := 820; cr_height := 620; bbox_width := 1600;
                          bbox_height := 400; scrollWidth := 0; scrollHeight := 0 |}) 1
  <= 1.5.
Proof.
  apply (fitView_fits {| cr_width := 820; cr_height := 620; bbox_width := 1600;
                         bbox_height := 400; scrollWidth := 0; scrollHeight := 0 |} 1);
    cbn; lra.
Defined.

End ZoomFacts.

End VisualizerFacts.

(** * Properties of the editor tabs *)

Module AppFacts.
Import App.

Lemma find_tab_open p ts : is_Some (find_tab p ts) <-> p ∈ t_path <$> ts.
Proof.
  unfold find_tab. induction ts as [|t ts IH]; cbn [List.find fmap list_fmap].
  - split; [by intros [? ?]|by intros ?%elem_of_nil].
  - destruct (String.eqb (t_path t) p) eqn:E.
    + apply String.eqb_eq in E. split; [intros _; rewrite E; left|eauto].
    + apply String.eqb_neq in E. split.
      * intros Hs. apply elem_of_cons. right. by apply IH.
      * intros [Hp|Hs]%elem_of_cons; [by destruct E|by apply IH].
Qed.

(** The active tab is one of the open tabs. *)
Definition active_open (st : editor) : Prop :=
  forall p, activeTab st = Some p -> p ∈ t_path <$> tabs st.

(** The [modified] mark of a tab tells whether its content differs from the
    content last read or saved. *)
Definition marks_ok (st : editor) : Prop :=
  Forall (fun t => modified t = negb (String.eqb (content t) (savedContent t))) (tabs st).

Lemma paths_change p c (ts : list Tab) :
  t_path <$> ((fun t =>
     if String.eqb (t_path t) p
     then {| t_path := t_path t; content := c; savedContent := savedContent t;
             modified := negb (String.eqb c (savedContent t)) |}
     else t) <$> ts) = t_path <$> ts.
Proof.
  rewrite <- list_fmap_compose. apply list_fmap_ext. intros i t _. cbn.
  by destruct (String.eqb (t_path t) p).
Qed.

Lemma paths_saved p st : t_path <$> tabs (saved p st) = t_path <$> tabs st.
Proof.
  unfold saved. cbn [tabs]. rewrite <- list_fmap_compose. apply list_fmap_ext.
  intros i t _. cbn. by destruct (String.eqb (t_path t) p).
Qed.

Lemma openTab_inv p c st :
  marks_ok st -> active_open (openTab p c st) /\ marks_ok (openTab p c st).
Proof.
  intros Hm. split.
  - intros q Hq. cbn in Hq. apply (inj Some) in Hq as <-. cbn [openTab tabs].
    rewrite fmap_app. apply elem_of_app. right. by apply list_elem_of_singleton.
  - apply Forall_app. split; [done|]. constructor; [|constructor].
    cbn. by rewrite String.eqb_refl.
Qed.

Lemma saved_inv p st :
  active_open st -> marks_ok st -> active_open (saved p st) /\ marks_ok (saved p st).
Proof.
  intros Ha Hm. split.
  - intros q Hq. rewrite paths_saved. by apply Ha.
  - unfold marks_ok, saved. cbn [tabs]. apply Forall_fmap.
    eapply Forall_impl; [exact Hm|]. intros t Ht. cbn.
    destruct (String.eqb (t_path t) p); [|done]. cbn. by rewrite String.eqb_refl.
Qed.

(** The state that [handleTabClose] sets unless the user declines. *)
Definition closed (path : string) (st : editor) : editor :=
  {| tabs := filter (fun t => t_path t <> path) (tabs st);
     activeTab := if bool_decide (activeTab st = Some path)
                  then t_path <$> last (filter (fun t => t_path t <> path) (tabs st))
                  else activeTab st |}.

Lemma closed_inv p st :
  active_open st -> marks_ok st -> active_open (closed p st) /\ marks_ok (closed p st).
Proof.
  intros Ha Hm. split.
  - intros q Hq. cbn [closed activeTab tabs] in *.
    destruct (bool_decide (activeTab st = Some p)) eqn:Eb.
    + destruct (last _) as [t|] eqn:El; [|done]. cbn in Hq.
      apply (inj Some) in Hq as <-. apply list_elem_of_fmap_2.
      by apply last_Some_elem_of.
    + apply bool_decide_eq_false in Eb.
      pose proof (Ha q Hq) as Hin. apply list_elem_of_fmap in Hin as (t & -> & Ht).
      apply list_elem_of_fmap_2, list_elem_of_filter. split; [congruence|done].
  - unfold marks_ok. cbn [closed tabs]. apply Forall_forall.
    intros t [_ Ht]%list_elem_of_filter. exact (proj1 (Forall_forall _ _) Hm t Ht).
Qed.

Lemma editor_exec_inv st e :
  active_open st /\ marks_ok st -> active_open (exec st e) /\ marks_ok (exec st e).
Proof.
  intros [Ha Hm].
  assert (forall p r, active_open (handleFileSelect p r st) /\
                      marks_ok (handleFileSelect p r st)) as Hsel.
  { intros p r. unfold handleFileSelect.
    destruct (find_tab p (tabs st)) as [t|] eqn:E.
    - split; [|done]. intros q Hq. cbn in Hq. apply (inj Some) in Hq as <-.
      cbn [tabs]. apply find_tab_open. by rewrite E.
    - destruct r as [c|]; [by apply openTab_inv|done]. }
  destruct e as [p r|p r|p c|p c|ok| |p c|p sent]; cbn [exec].
  - apply Hsel.
  - apply Hsel.
  - unfold handleTabClose.
    destruct (find_tab p (tabs st)) as [tb|]; [destruct (modified tb && negb c)|];
      try done; by apply closed_inv.
  - split.
    + intros q Hq. cbn [handleContentChange tabs]. rewrite paths_change. by apply Ha.
    + unfold marks_ok, handleContentChange. cbn [tabs]. apply Forall_fmap.
      eapply Forall_impl; [exact Hm|]. intros t Ht. cbn.
      by destruct (String.eqb (t_path t) p).
  - unfold handleSave. destruct (activeTab st) as [p|]; [|done].
    destruct (String.eqb p EmptyString); [done|].
    destruct (find_tab p (tabs st)); [|done].
    destruct ok; [by apply saved_inv|done].
  - split; [by intros ?|constructor].
  - by apply openTab_inv.
  - by apply saved_inv.
Qed.

Lemma editor_run_inv es st :
  active_open st /\ marks_ok st -> active_open (run es st) /\ marks_ok (run es st).
Proof.
  revert st. induction es as [|e es IH]; intros st Hst; [done|].
  apply (IH (exec st e)). by apply editor_exec_inv.
Qed.

Lemma initial_inv : active_open initial /\ marks_ok initial.
Proof. split; [by intros ?|constructor]. Qed.

(** The active tab is never a closed one.  After any sequence of file
    selections, clicks in the code map, tab closings, edits, saves and
    project changes, in whatever order the file reads and saves complete,
    [activeTab] is [null] or the path of a tab in [tabs]: the editor, the
    status bar and the Visualizer always find the tab they look up. *)
Theorem active_tab_is_open es p :
  activeTab (run es initial) = Some p -> is_Some (find_tab p (tabs (run es initial))).
Proof.
  intros Hp. apply find_tab_open.
  exact (proj1 (editor_run_inv es initial initial_inv) p Hp).
Qed.

Lemma active_tab_is_open_witness :
  is_Some (find_tab "a.py"
             (tabs (run [Select "a.py" (Some "x"); Select "b.py" (Some "y");
                         Close "b.py" true] initial))).
Proof.
  apply (active_tab_is_open [Select "a.py" (Some "x"); Select "b.py" (Some "y");
                             Close "b.py" true] "a.py").
  reflexivity.
Defined.

(** The events whose file read completes before the next event. *)
Definition in_turn (e : event) : Prop :=
  match e with
  | ReadDone _ _ => False
  | _ => True
  end.

Lemma exec_distinct st e :
  in_turn e -> NoDup (t_path <$> tabs st) -> NoDup (t_path <$> tabs (exec st e)).
Proof.
  intros He Hnd.
  assert (forall p r, NoDup (t_path <$> tabs (handleFileSelect p r st))) as Hsel.
  { intros p r. unfold handleFileSelect.
    destruct (find_tab p (tabs st)) as [t|] eqn:E; [done|].
    destruct r as [c|]; [|done]. cbn [openTab tabs]. rewrite fmap_app.
    apply NoDup_app. split_and!; [done| |apply NoDup_singleton].
    intros q Hq Hq'. apply list_elem_of_singleton in Hq'. cbn in Hq'. subst q.
    apply find_tab_open in Hq. rewrite E in Hq. by destruct Hq. }
  destruct e as [p r|p r|p c|p c|ok| |p c|p sent]; cbn [exec]; try done.
  - assert (NoDup (t_path <$> tabs (closed p st))) as Hcl.
    { cbn [closed tabs]. apply (sublist_NoDup _ (t_path <$> tabs st)); [exact Hnd|].
      apply fmap_sublist, sublist_filter. }
    unfold handleTabClose.
    destruct (find_tab p (tabs st)) as [tb|]; [destruct (modified tb && negb c)|];
      try done; exact Hcl.
  - cbn [handleContentChange tabs]. by rewrite paths_change.
  - unfold handleSave. destruct (activeTab st) as [p|]; [|done].
    destruct (String.eqb p EmptyString); [done|].
    destruct (find_tab p (tabs st)); [|done].
    destruct ok; [by rewrite paths_saved|done].
  - constructor.
  - by rewrite paths_saved.
Qed.

(** No file is open in two tabs, as long as every file read completes
    before the next event is handled.  (A second selection of a file while
    its first read is still pending passes the same check and adds a second
    tab.) *)
Theorem tabs_are_distinct es :
  Forall in_turn es -> NoDup (t_path <$> tabs (run es initial)).
Proof.
  intros Hes.
  assert (forall st, NoDup (t_path <$> tabs st) ->
            NoDup (t_path <$> tabs (run es st))) as Hall.
  { induction Hes as [|e es He _ IH]; intros st Hst; [done|].
    apply (IH (exec st e)). by apply exec_distinct. }
  apply Hall. constructor.
Qed.

Lemma tabs_are_distinct_witness :
  NoDup (t_path <$> tabs (run [Select "a.py" (Some "x"); FunctionClick "a.py" (Some "x");
                               Select "b.py" (Some "y")] initial)).
Proof.
  apply (tabs_are_distinct [Select "a.py" (Some "x"); FunctionClick "a.py" (Some "x");
                            Select "b.py" (Some "y")]).
  repeat constructor.
Defined.

(** ** The unsaved mark *)










(** An edit while a save is under way.  The save of [xy] has begun when
    the content becomes [xyz]; when [saveFile] returns, the tab takes [xyz]
    as its saved content and loses its mark, while the file holds [xy]. *)
Lemma edit_during_save :
  let es := [Select "a.py" (Some "x"); Change "a.py" "xy"; Change "a.py" "xyz";
             SaveDone "a.py" "xy"] in
  tabs (ed (play es world0))
  = [{| t_path := "a.py"; content := "xyz"; savedContent := "xyz"; modified := false |}] /\
  disk (play es world0) !! "a.py" = Some "xy".
Proof. split; reflexivity. Qed.

(** Two reads of the same file in flight give two tabs for it. *)
Lemma overlapping_reads_duplicate :
  t_path <$> tabs (run [ReadDone "a.py" "x"; ReadDone "a.py" "x"] initial)
  = ["a.py"; "a.py"].
Proof. reflexivity. Qed.

(** A click on any node of the code map opens the file of its module.
    For a graph whose module names hold no colon, whatever node of the
    layout is clicked and whatever tabs are open, once the file is read the
    active tab is the module that the node is or belongs to, and that tab
    is open. *)
Theorem map_click_opens_tab rnd g W H mods ns es n data st :
  CodeMap.modules g = Some mods ->
  CodeMap.forceLayout rnd (Some g) W H = Ok (ns, es) ->
  (forall md m, md ∈ mods -> CodeMap.module md = Some m ->
                CodeMapFacts.no_colon m = true) ->
  n ∈ ns ->
  exists cb md m, CodeMap.dispatch n = Some cb /\ md ∈ mods /\
    CodeMap.module md = Some m /\
    activeTab (on_click cb (Some data) st) = Some m /\
    is_Some (find_tab m (tabs (on_click cb (Some data) st))).
Proof.
  intros Hm Hf Hcol Hn.
  destruct (CodeMapFacts.forceLayout_origins _ _ _ _ _ _ _ Hm Hf) as [Hns _].
  destruct (CodeMapFacts.node_dispatch mods n Hcol (proj1 (Forall_forall _ _) Hns n Hn))
    as (md & m & Hmd & Hmm & Hd).
  assert (activeTab (handleFileSelect m (Some data) st) = Some m /\
          is_Some (find_tab m (tabs (handleFileSelect m (Some data) st)))) as [Ha Ho].
  { unfold handleFileSelect. destruct (find_tab m (tabs st)) as [t|] eqn:E.
    - split; [done|]. cbn [tabs]. by rewrite E.
    - split; [done|]. apply find_tab_open. cbn [openTab tabs]. rewrite fmap_app.
      apply elem_of_app. right. by apply list_elem_of_singleton. }
  destruct Hd as [[_ Hd]|(ch & _ & _ & Hd)].
  - exists (CodeMap.FileSelect m), md, m. by split_and!.
  - exists (CodeMap.FunctionClick m), md, m. by split_and!.
Qed.

Lemma map_click_opens_tab_witness :
  exists ns es n,
    CodeMap.forceLayout (fun _ => 0%R) (Some CodeMapFacts.scenario) 800 600 = Ok (ns, es) /\
    ns !! 3%nat = Some n /\
    exists cb md m, CodeMap.dispatch n = Some cb /\
      md ∈ default [] (CodeMap.modules CodeMapFacts.scenario) /\
      CodeMap.module md = Some m /\
      activeTab (on_click cb (Some "class C: pass") initial) = Some m /\
      is_Some (find_tab m (tabs (on_click cb (Some "class C: pass") initial))).
Proof.
  destruct (CodeMapFacts.forceLayout_total (fun _ => 0%R) CodeMapFacts.scenario 800 600 _
              eq_refl) as (ns & es & Hf).
  { repeat constructor; [by exists "a.py"|by exists "b.py"]. }
  pose proof (CodeMapFacts.scenario_shape (fun _ => 0%R) 800 600) as Hsh.
  rewrite Hf in Hsh. cbn [CodeMapFacts.shape] in Hsh. apply (inj Some) in Hsh.
  assert (CodeMap.n_id <$> ns = ["a.py"; "b.py"; "a.py::f"; "b.py::C"]) as Hids
    by congruence.
  assert (exists n, ns !! 3%nat = Some n) as [n Hn].
  { clear Hf Hsh. destruct ns as [|? [|? [|? [|n ?]]]]; try discriminate Hids. by exists n. }
  exists ns, es, n. split; [exact Hf|]. split; [exact Hn|].
  apply (map_click_opens_tab (fun _ => 0%R) CodeMapFacts.scenario 800 600 _ ns es n
           "class C: pass" initial eq_refl Hf).
  - intros md m Hmd Hm. cbn in Hmd.
    apply elem_of_cons in Hmd as [->|Hmd];
      [|apply list_elem_of_singleton in Hmd as ->];
      cbn in Hm; by apply (inj Some) in Hm as <-.
  - by eapply list_elem_of_lookup_2.
Defined.

End AppFacts.
